(** * Minimum-cost pipeline routing: the cost model and the shortest-path search

    A shallow embedding of [calculateEdgeCost], [dijkstra] and the
    component [App] with its [terrainFilter] and [calculateRoute], together
    with the six-node example data, and the properties of the search.

    Conventions of the embedding.
    - Node identifiers are strings. [graph], [costs] and [previous] are plain
      objects: a [gmap string _] holds their own properties, and a key that
      is not an own property is looked up in [Object.prototype], whose
      property names are listed in [Object_prototype]. Reading
      [previous[k]] for such a name gives an inherited value, which is
      truthy and has neither [edge] nor [from]; assigning a number to
      [costs["__proto__"]] does nothing; [graph["__proto__"] = []] installs
      the array as the prototype, where a later lookup finds it, so it
      behaves as an own property does.
    - The [Set] [unvisited] iterates in insertion order, and the selection
      loop depends on that order for ties, so it is a duplicate-free list.
    - The numeric edge attributes and [maxCost] of the search are integers.
      The double-precision arithmetic of the source agrees with integer
      arithmetic on the inputs described by [exact_range]; the statements
      that depend on the value of a cost carry it as a hypothesis. Module
      [Double] gives the cost function on doubles themselves.
    - A [TypeError] raised by [graph[edge.start].push] or by iterating
      [graph[current]] on a missing key is an outcome of its own, and so is
      running out of the iteration budget of a loop. *)

From stdpp Require Import base gmap list strings.
From Stdlib Require Import ZArith Lia.
From Stdlib Require Import Floats.SpecFloat.

(** ** Data *)

Record node := Node { id : string; x : Z; y : Z }.

Record edge := Edge {
  start : string;
  end_ : string;
  distance : Z;
  terrain : Z;
  materialCost : Z;
  laborCost : Z
}.

#[global] Instance edge_eq_dec : EqDecision edge.
Proof. solve_decision. Defined.

(** The numbers that occur as tentative costs: an integer, or [Infinity]. *)
Inductive number := Fin (z : Z) | Infinity.

#[global] Instance number_eq_dec : EqDecision number.
Proof. solve_decision. Defined.

(** [a < b] on numbers. *)
Definition num_lt (a b : number) : bool :=
  match a, b with
  | Fin p, Fin q => (p <? q)%Z
  | Fin _, Infinity => true
  | Infinity, _ => false
  end.

(** [a + z] for a finite [z]. *)
Definition num_add (a : number) (z : Z) : number :=
  match a with
  | Fin p => Fin (p + z)
  | Infinity => Infinity
  end.

(** An entry of an adjacency array: [{ node, cost, edge }]. *)
Record neighbor := Neighbor { nb_node : string; nb_cost : Z; nb_edge : edge }.

(** The value of [previous[v]]: [{ from, edge }]. *)
Record link := Link { from : string; via : edge }.

(** A value read from [costs]: a number, [undefined], or the function or
    object that [Object.prototype] holds under the name. *)
Inductive value :=
  | Number (n : number)
  | Undefined
  | Inherited (k : string).

#[global] Instance value_eq_dec : EqDecision value.
Proof. solve_decision. Defined.

(** The object returned by [dijkstra]: [{ path, cost }]. An element of
    [path] is an edge or [undefined], the [edge] of an inherited value. *)
Record route := Route { path : list (option edge); cost : value }.

#[global] Instance route_eq_dec : EqDecision route.
Proof. solve_decision. Defined.

(** How a call ends. *)
Inductive outcome (A : Type) :=
  | Returned (a : A)
  | TypeError
  | Diverged.
Arguments Returned {A} a.
Arguments TypeError {A}.
Arguments Diverged {A}.

(** ** The cost model *)

(** [edge.distance * (edge.materialCost + edge.laborCost)] on integer
    attributes; [Double.calculateEdgeCost] below is the same function on
    doubles. *)
Definition calculateEdgeCost (e : edge) : Z :=
  (distance e * (materialCost e + laborCost e))%Z.

(** The closure [terrainFilter] of the component, over its two state
    variables. *)
Definition terrainFilter (terrainFilterEnabled : bool) (maxTerrain : Z)
    (e : edge) : bool :=
  negb terrainFilterEnabled || (terrain e <=? maxTerrain)%Z.

(** The test guarding the two [push] calls. *)
Definition admissible (tf : edge → bool) (maxCost : Z) (e : edge) : bool :=
  tf e && (calculateEdgeCost e <=? maxCost)%Z.

(** ** Insertion-ordered sets of identifiers *)

Definition Set_add (s : list string) (k : string) : list string :=
  if bool_decide (k ∈ s) then s else s ++ [k].

Definition Set_new (l : list string) : list string := foldl Set_add [] l.

Definition Set_has (s : list string) (k : string) : bool := bool_decide (k ∈ s).

Definition Set_delete (s : list string) (k : string) : list string :=
  filter (λ n, n ≠ k) s.

(** ** Building the adjacency structure *)

Definition init_graph (nodes : list node) : gmap string (list neighbor) :=
  foldl (λ g n, <[id n := []]> g) ∅ nodes.

(** [graph[k].push(nb)]; [None] is the [TypeError] of calling [push] on
    [undefined]. *)
Definition push (k : string) (nb : neighbor) (g : gmap string (list neighbor))
    : option (gmap string (list neighbor)) :=
  match g !! k with
  | Some l => Some (<[k := l ++ [nb]]> g)
  | None => None
  end.

Definition add_edge (tf : edge → bool) (maxCost : Z)
    (g : gmap string (list neighbor)) (e : edge)
    : option (gmap string (list neighbor)) :=
  if admissible tf maxCost e then
    match push (start e) (Neighbor (end_ e) (calculateEdgeCost e) e) g with
    | Some g1 => push (end_ e) (Neighbor (start e) (calculateEdgeCost e) e) g1
    | None => None
    end
  else Some g.

Fixpoint add_edges (tf : edge → bool) (maxCost : Z)
    (g : gmap string (list neighbor)) (edges : list edge)
    : option (gmap string (list neighbor)) :=
  match edges with
  | [] => Some g
  | e :: rest =>
      match add_edge tf maxCost g e with
      | Some g1 => add_edges tf maxCost g1 rest
      | None => None
      end
  end.

Definition build_graph (nodes : list node) (edges : list edge)
    (tf : edge → bool) (maxCost : Z) : option (gmap string (list neighbor)) :=
  add_edges tf maxCost (init_graph nodes) edges.

(** ** Plain objects *)

(** The names of the properties of [Object.prototype]. *)
Definition Object_prototype : list string := [
  "constructor"; "__defineGetter__"; "__defineSetter__"; "hasOwnProperty";
  "__lookupGetter__"; "__lookupSetter__"; "isPrototypeOf";
  "propertyIsEnumerable"; "toString"; "valueOf"; "__proto__"; "toLocaleString"
].

(** [k] is not the name of a property of [Object.prototype]. *)
Definition plain (k : string) : Prop := k ∉ Object_prototype.

(** [costs[k] = v] for a number [v]: the setter of ["__proto__"] ignores a
    value that is not an object. *)
Definition set_cost (k : string) (v : number) (m : gmap string number)
    : gmap string number :=
  if bool_decide (k = "__proto__") then m else <[k := v]> m.

(** The value of [costs[k]]. *)
Definition read_cost (m : gmap string number) (k : string) : value :=
  match m !! k with
  | Some n => Number n
  | None => if bool_decide (k ∈ Object_prototype) then Inherited k else Undefined
  end.

(** ** The search *)

Record state := State {
  costs : gmap string number;
  previous : gmap string link;
  unvisited : list string
}.

Definition init_costs (nodes : list node) (source : string) : gmap string number :=
  set_cost source (Fin 0) (foldl (λ c n, set_cost (id n) Infinity c) ∅ nodes).

Definition init_state (nodes : list node) (source : string) : state :=
  State (init_costs nodes source) ∅ (Set_new (id <$> nodes)).

(** One call of the callback of [unvisited.forEach], on the pair
    [(current, min)]; [costs[nodeId] < lowestCost] is false when
    [costs[nodeId]] is not a number. *)
Definition pick (cs : gmap string number) (acc : option string * number)
    (n : string) : option string * number :=
  match cs !! n with
  | Some c => if num_lt c acc.2 then (Some n, c) else acc
  | None => acc
  end.

Definition select_min (cs : gmap string number) (unv : list string)
    : option string :=
  (foldl (pick cs) (None, Infinity) unv).1.

(** The body of the [for ... of graph[current]] loop. A comparison with an
    operand that is not a number ([undefined], or an inherited function or
    object) is false, so the two assignments run only for a key that holds a
    number in [costs], which ["__proto__"] never does. *)
Definition relax (unv : list string) (current : string)
    (cp : gmap string number * gmap string link) (nb : neighbor)
    : gmap string number * gmap string link :=
  if Set_has unv (nb_node nb) then
    match cp.1 !! current, cp.1 !! nb_node nb with
    | Some cc, Some cn =>
        let newCost := num_add cc (nb_cost nb) in
        if num_lt newCost cn then
          (<[nb_node nb := newCost]> cp.1,
           <[nb_node nb := Link current (nb_edge nb)]> cp.2)
        else cp
    | _, _ => cp
    end
  else cp.

Inductive step_result :=
  | Break
  | Throw
  | Next (s : state).

(** One iteration of the [while] loop, after its test. *)
Definition step (graph : gmap string (list neighbor)) (destination : string)
    (s : state) : step_result :=
  match select_min (costs s) (unvisited s) with
  | None => Break
  | Some current =>
      if bool_decide (current = destination) then Break
      else
        let unv := Set_delete (unvisited s) current in
        match graph !! current with
        | None => Throw
        | Some nbs =>
            let cp := foldl (relax unv current) (costs s, previous s) nbs in
            Next (State cp.1 cp.2 unv)
        end
  end.

(** [while (unvisited.size > 0) { ... }], with an iteration budget. *)
Fixpoint search (fuel : nat) (graph : gmap string (list neighbor))
    (destination : string) (s : state) : outcome state :=
  match unvisited s with
  | [] => Returned s
  | _ :: _ =>
      match fuel with
      | O => Diverged
      | S fuel' =>
          match step graph destination s with
          | Break => Returned s
          | Throw => TypeError
          | Next s' => search fuel' graph destination s'
          end
      end
  end.

(** [while (previous[current]) { path.unshift(...); current = ... }], with an
    iteration budget. An inherited value is truthy: its [edge], [undefined],
    is put on the path, and the walk goes on at its [from], [undefined], that
    is at the key ["undefined"]. *)
Fixpoint reconstruct (fuel : nat) (prev : gmap string link)
    (path : list (option edge)) (current : string)
    : outcome (list (option edge)) :=
  match prev !! current with
  | Some l =>
      match fuel with
      | O => Diverged
      | S fuel' => reconstruct fuel' prev (Some (via l) :: path) (from l)
      end
  | None =>
      if bool_decide (current ∈ Object_prototype) then
        match fuel with
        | O => Diverged
        | S fuel' => reconstruct fuel' prev (None :: path) "undefined"
        end
      else Returned path
  end.

Definition dijkstra_fuel (fuel1 fuel2 : nat) (nodes : list node)
    (edges : list edge) (source destination : string) (tf : edge → bool)
    (maxCost : Z) : outcome route :=
  match build_graph nodes edges tf maxCost with
  | None => TypeError
  | Some graph =>
      match search fuel1 graph destination (init_state nodes source) with
      | Returned s =>
          match reconstruct fuel2 (previous s) [] destination with
          | Returned p => Returned (Route p (read_cost (costs s) destination))
          | TypeError => TypeError
          | Diverged => Diverged
          end
      | TypeError => TypeError
      | Diverged => Diverged
      end
  end.

(** The budgets: one iteration of the main loop per identifier, and one
    iteration of the reconstruction loop per node, plus one. They suffice on
    every input: a loop that has not ended within its budget never ends. *)
Definition dijkstra (nodes : list node) (edges : list edge)
    (source destination : string) (tf : edge → bool) (maxCost : Z)
    : outcome route :=
  dijkstra_fuel (length nodes) (S (length nodes))
    nodes edges source destination tf maxCost.

(** ** The example data of the component *)

Definition nodes : list node := [
  Node "A" 100 100;
  Node "B" 300 80;
  Node "C" 200 200;
  Node "D" 400 180;
  Node "E" 350 300;
  Node "F" 500 280
].

Definition eAB := Edge "A" "B" 5 1 70 40.
Definition eAC := Edge "A" "C" 7 2 65 35.
Definition eBD := Edge "B" "D" 6 1 80 45.
Definition eCD := Edge "C" "D" 3 3 90 50.
Definition eCE := Edge "C" "E" 4 2 55 25.
Definition eDF := Edge "D" "F" 8 1 60 30.
Definition eEF := Edge "E" "F" 5 2 75 40.

Definition edges : list edge := [eAB; eAC; eBD; eCD; eCE; eDF; eEF].


(** Two edges used to exercise the query: a self-loop and an edge with a
    negative distance. *)
Definition eAA := Edge "A" "A" 2 1 3 4.
Definition eNeg := Edge "A" "B" (-5) 1 70 40.


Definition nodesAP : list node := [Node "A" 0 0; Node "__proto__" 1 0].
Definition eAP := Edge "A" "__proto__" 1 1 1 1.

(** ** Notions used to state the properties *)

(** The [reduce] a caller would use to total a path. *)
Definition path_cost (p : list edge) : Z :=
  foldl (λ acc e, (acc + calculateEdgeCost e)%Z) 0%Z p.

(** The data-model invariant: every edge refers to listed nodes. *)
Definition well_formed (ns : list node) (es : list edge) : Prop :=
  Forall (λ e, start e ∈ id <$> ns ∧ end_ e ∈ id <$> ns) es.

(** What every entry of the adjacency structure records. *)
Definition entry_ok (tf : edge → bool) (maxCost : Z) (es : list edge) (k : string) (nb : neighbor) : Prop :=
  nb_edge nb ∈ es ∧
  admissible tf maxCost (nb_edge nb) = true ∧
  nb_cost nb = calculateEdgeCost (nb_edge nb) ∧
  ((start (nb_edge nb) = k ∧ end_ (nb_edge nb) = nb_node nb) ∨
   (end_ (nb_edge nb) = k ∧ start (nb_edge nb) = nb_node nb)).

Definition graph_ok (tf : edge → bool) (maxCost : Z) (es : list edge)
    (g : gmap string (list neighbor)) : Prop :=
  ∀ k l nb, g !! k = Some l → nb ∈ l → entry_ok tf maxCost es k nb.

(** [g'] is [g] without the entries that lead from a node to itself. *)
Definition loopless (g g' : gmap string (list neighbor)) : Prop :=
  ∀ k, g' !! k = filter (λ nb, nb_node nb ≠ k) <$> g !! k.

Definition without_loops (es : list edge) : list edge :=
  filter (λ e, start e ≠ end_ e) es.

(** The walk of the reconstruction loop from [v] ends within [n] links, at
    a key for which [previous] holds nothing, not even an inherited value. *)
Inductive reaches_root (prev : gmap string link) : nat → string → Prop :=
  | reaches_here n v :
      prev !! v = None → plain v → reaches_root prev n v
  | reaches_link n v l :
      prev !! v = Some l → reaches_root prev n (from l) →
      reaches_root prev (S n) v.

(** [k] links of [prev] lead from [v] to [r]. *)
Inductive leads (prev : gmap string link) : nat → string → string → Prop :=
  | leads_here v : leads prev 0 v v
  | leads_link k v l r :
      prev !! v = Some l → leads prev k (from l) r → leads prev (S k) v r.

(** [vis] lists settled nodes, latest first: each link of a settled node
    leads to a node settled earlier. *)
Fixpoint ordered (prev : gmap string link) (vis : list string) : Prop :=
  match vis with
  | [] => True
  | v :: rest => (∀ l, prev !! v = Some l → from l ∈ rest) ∧ ordered prev rest
  end.

Section Invariant.
Context (ns : list node) (es : list edge) (source : string).
Context (tf : edge → bool) (maxCost : Z).

(** What a predecessor link [previous[v] = l] records. *)
Definition link_ok (cs : gmap string number) (v : string) (l : link) : Prop :=
  from l ≠ v ∧
  via l ∈ es ∧
  admissible tf maxCost (via l) = true ∧
  ((start (via l) = from l ∧ end_ (via l) = v) ∨
   (end_ (via l) = from l ∧ start (via l) = v)) ∧
  ∃ cu, cs !! from l = Some (Fin cu) ∧
        cs !! v = Some (Fin (cu + calculateEdgeCost (via l))).

(** [vis] is the list of the nodes deleted from [unvisited], latest first. *)
Record inv (vis : list string) (s : state) : Prop := {
  inv_unv : ∀ n, n ∈ unvisited s → n ∈ id <$> ns;
  inv_vis : ∀ n, n ∈ vis → n ∈ id <$> ns ∧ n ∉ unvisited s;
  inv_nodup : NoDup vis;
  inv_settled : ∀ n, n ∈ vis → ∃ c, costs s !! n = Some (Fin c);
  inv_costs : ∀ v, is_Some (costs s !! v) → v ∈ id <$> ns ∨ v = source;
  inv_finite : ∀ v c, costs s !! v = Some (Fin c) →
    v = source ∧ c = 0%Z ∨ is_Some (previous s !! v);
  inv_prev : ∀ v l, previous s !! v = Some l →
    v ∈ id <$> ns ∧ from l ∈ vis ∧ link_ok (costs s) v l;
  inv_ordered : ordered (previous s) vis
}.

End Invariant.

Arguments inv_unv {ns es source tf maxCost vis s} _.
Arguments inv_vis {ns es source tf maxCost vis s} _.
Arguments inv_nodup {ns es source tf maxCost vis s} _.
Arguments inv_settled {ns es source tf maxCost vis s} _.
Arguments inv_costs {ns es source tf maxCost vis s} _.
Arguments inv_finite {ns es source tf maxCost vis s} _.
Arguments inv_prev {ns es source tf maxCost vis s} _.
Arguments inv_ordered {ns es source tf maxCost vis s} _.

(** ** Routes as walks *)

(** The far end of [e] seen from [u]. *)
Definition other_end (e : edge) (u : string) : string :=
  if bool_decide (start e = u) then end_ e else start e.

Definition touches (e : edge) (u : string) : bool :=
  bool_decide (start e = u) || bool_decide (end_ e = u).

(** Where a list of edges leads from [u], each edge taken in either
    direction; [None] when an edge does not continue from the node reached. *)
Fixpoint follow (p : list edge) (u : string) : option string :=
  match p with
  | [] => Some u
  | e :: p' => if touches e u then follow p' (other_end e u) else None
  end.

(** The nodes reached after each edge. *)
Fixpoint visits (p : list edge) (u : string) : list string :=
  match p with
  | [] => []
  | e :: p' => other_end e u :: visits p' (other_end e u)
  end.

(** [p] is a route from [u] to [v] through edges the query may use. *)
Definition usable_route (tf : edge → bool) (maxCost : Z) (es : list edge)
    (p : list edge) (u v : string) : Prop :=
  Forall (λ e, e ∈ es ∧ admissible tf maxCost e = true) p ∧ follow p u = Some v.

(** Every edge the query may use has a non-negative cost. *)
Definition nonneg_costs (tf : edge → bool) (maxCost : Z) (es : list edge) : Prop :=
  Forall (λ e, admissible tf maxCost e = true → (0 ≤ calculateEdgeCost e)%Z) es.

(** The test of the [find] callback that decides whether a drawn edge is
    part of the route: same end points, in either order. *)
Definition same_ends (e edge : edge) : bool :=
  bool_decide (start e = start edge) && bool_decide (end_ e = end_ edge)
  || bool_decide (start e = end_ edge) && bool_decide (end_ e = start edge).

(** [path.find(e => ...)] with that callback, as a truth value: the search
    stops at the first match, and reading [e.start] of an [undefined] element
    throws. *)
Fixpoint find_same (p : list (option edge)) (edge : edge) : outcome bool :=
  match p with
  | [] => Returned false
  | None :: _ => TypeError
  | Some e :: p' => if same_ends e edge then Returned true else find_same p' edge
  end.

(** [route.path.find(...)] for a drawn edge. *)
Definition highlighted (r : route) (edge : edge) : outcome bool :=
  find_same (path r) edge.

(** No two entries of the list join the same pair of nodes. *)
Definition no_parallel (es : list edge) : Prop :=
  ∀ i j e e', es !! i = Some e → es !! j = Some e' →
    same_ends e e' = true → i = j.

(** ** The scope of the properties *)

(** The attributes of [e] are at most [B] in absolute value. *)
Definition small (B : Z) (e : edge) : Prop :=
  (Z.abs (distance e) ≤ B ∧ Z.abs (materialCost e) ≤ B ∧
   Z.abs (laborCost e) ≤ B ∧ Z.abs (terrain e) ≤ B)%Z.

(** An integer below [2 ^ 53] in absolute value, which a double holds
    exactly, or [Infinity]. *)
Definition exact (n : number) : Prop :=
  match n with
  | Fin z => (Z.abs z < 2 ^ 53)%Z
  | Infinity => True
  end.

(** Inputs on which double-precision arithmetic is exact: every edge cost
    and every sum of edge costs along a path without a repeated node stays
    below [2 ^ 53] in absolute value, and so does [maxCost]. *)
Definition exact_range (ns : list node) (es : list edge) (maxCost : Z) : Prop :=
  ∃ B, Forall (small B) es ∧
       (2 * B * B * Z.of_nat (S (length ns)) < 2 ^ 53)%Z ∧
       (Z.abs maxCost < 2 ^ 53)%Z.

(** ** Settled nodes *)

(** [u] has been deleted from [unvisited]. *)
Definition settled (ns : list node) (s : state) (u : string) : Prop :=
  u ∈ id <$> ns ∧ u ∉ unvisited s.

(** What the tentative costs satisfy between iterations, for adjacency
    arrays [g]: the edges out of settled nodes have been relaxed, and no
    settled node costs more than an unvisited one. *)
Record relaxed (ns : list node) (source : string)
    (g : gmap string (list neighbor)) (s : state) : Prop := {
  rel_unv : ∀ n, n ∈ unvisited s → n ∈ id <$> ns;
  rel_costs : ∀ n, n ∈ id <$> ns → is_Some (costs s !! n);
  rel_source : ∃ z, costs s !! source = Some (Fin z) ∧ (z ≤ 0)%Z;
  rel_settled : ∀ u, settled ns s u → ∃ cu, costs s !! u = Some (Fin cu);
  rel_edges : ∀ u l nb cu, settled ns s u → g !! u = Some l → nb ∈ l →
    costs s !! u = Some (Fin cu) →
    ∃ cv, costs s !! nb_node nb = Some cv ∧
          num_lt (Fin (cu + nb_cost nb)) cv = false;
  rel_order : ∀ u v cu cv, settled ns s u → v ∈ unvisited s →
    costs s !! u = Some (Fin cu) → costs s !! v = Some cv →
    num_lt cv (Fin cu) = false
}.

Arguments rel_unv {ns source g s} _.
Arguments rel_costs {ns source g s} _.
Arguments rel_source {ns source g s} _.
Arguments rel_settled {ns source g s} _.
Arguments rel_edges {ns source g s} _.
Arguments rel_order {ns source g s} _.

(** Comparisons of numbers, turned into integer inequalities. *)
Ltac num_solve :=
  repeat match goal with
  | c : number |- _ => destruct c
  end;
  simpl in *; try done;
  repeat match goal with
  | H : Some _ = Some _ |- _ => injection H as H
  | H : Fin _ = Fin _ |- _ => injection H as H
  | H : (_ <? _)%Z = true |- _ => apply Z.ltb_lt in H
  | H : (_ <? _)%Z = false |- _ => apply Z.ltb_ge in H
  | |- (_ <? _)%Z = true => apply Z.ltb_lt
  | |- (_ <? _)%Z = false => apply Z.ltb_ge
  end;
  try lia.

(** ** The cost function on doubles *)

Module Double.

(** Binary64. *)
Definition prec : Z := 53.
Definition emax : Z := 1024.

Definition add : spec_float → spec_float → spec_float := SFadd prec emax.
Definition mul : spec_float → spec_float → spec_float := SFmul prec emax.

(** [a <= b] and [a < b]; false when an operand is [NaN]. *)
Definition le (a b : spec_float) : bool := SFleb a b.
Definition lt (a b : spec_float) : bool := SFltb a b.

Definition zero : spec_float := S754_zero false.

(** The double nearest to an integer. *)
Definition of_Z (z : Z) : spec_float := binary_normalize prec emax z 0 false.

(** A tentative cost as a double. *)
Definition of_number (n : number) : spec_float :=
  match n with
  | Fin z => of_Z z
  | Infinity => S754_infinity false
  end.

(** The double of sign [s] whose magnitude is the integer [a], for [a]
    below [2 ^ 53]: the mantissa is [a] shifted to 53 binary digits. *)
Definition digits (a : positive) : Z := Z.pos (digits2_pos a).

Definition mantissa (a : positive) : positive :=
  Z.to_pos (Z.pos a * 2 ^ (prec - digits a)).

Definition finite (s : bool) (a : positive) : spec_float :=
  S754_finite s (mantissa a) (digits a - prec).

Definition repr (z : Z) : spec_float :=
  match z with
  | Z0 => S754_zero false
  | Zpos a => finite false a
  | Zneg a => finite true a
  end.

Definition is_zero (a : spec_float) : bool :=
  match a with
  | S754_zero _ => true
  | _ => false
  end.

Definition is_infinity (a : spec_float) : bool :=
  match a with
  | S754_infinity _ => true
  | _ => false
  end.

(** [a] and [b] are the same double, or two zeros: [-0] and [0] are equal
    for [<], [<=] and [===]. *)
Definition same (a b : spec_float) : Prop :=
  a = b ∨ (is_zero a = true ∧ is_zero b = true).

(** [a] is a zero, a finite number or an infinity with sign bit [s]. *)
Definition has_sign (s : bool) (a : spec_float) : bool :=
  match a with
  | S754_zero s' | S754_infinity s' | S754_finite s' _ _ => Bool.eqb s s'
  | S754_nan => false
  end.

Record edge := Edge {
  start : string;
  end_ : string;
  distance : spec_float;
  terrain : spec_float;
  materialCost : spec_float;
  laborCost : spec_float
}.

Definition calculateEdgeCost (e : edge) : spec_float :=
  mul (distance e) (add (materialCost e) (laborCost e)).

End Double.

(** An edge with integer attributes, as the doubles the source holds. *)
Definition to_double (e : edge) : Double.edge :=
  Double.Edge (start e) (end_ e) (Double.of_Z (distance e))
    (Double.of_Z (terrain e)) (Double.of_Z (materialCost e))
    (Double.of_Z (laborCost e)).

(** An edge of length 0 whose two cost components are [1e308]: their sum
    overflows. *)
Definition e1e308 : Double.edge :=
  Double.Edge "A" "B" Double.zero (Double.of_Z 1)
    (Double.of_Z (10 ^ 308)) (Double.of_Z (10 ^ 308)).

(** ** The component *)

Module App.

(** The six [useState] cells; [null] is [None]. *)
Record app := Mk {
  source : option string;
  destination : option string;
  terrainFilterEnabled : bool;
  maxTerrain : Z;
  maxCost : Z;
  route : route
}.

Definition initial : app :=
  Mk None None false 3 10000 (Route [] (Number (Fin 0))).

(** [!v] for [null] or a string: the empty string is falsy as well. *)
Definition not_ (v : option string) : bool :=
  match v with
  | None => true
  | Some s => bool_decide (s = "")
  end.

Definition calculateRoute (st : app) : outcome app :=
  match source st, destination st with
  | Some s, Some d =>
      if not_ (source st) || not_ (destination st) then Returned st
      else
        match dijkstra nodes edges s d
                (terrainFilter (terrainFilterEnabled st) (maxTerrain st))
                (maxCost st) with
        | Returned result =>
            Returned (Mk (source st) (destination st) (terrainFilterEnabled st)
                        (maxTerrain st) (maxCost st) result)
        | TypeError => TypeError
        | Diverged => Diverged
        end
  | _, _ => Returned st
  end.

(** The values of the [Option]s of the two selects: one per node. *)
Definition options : list string := id <$> nodes.

(** What the controls do: the two selects, whose argument is the position
    of the chosen option, the checkbox, the two sliders and the button. *)
Inductive event :=
  | SetSource (option : nat)
  | SetDestination (option : nat)
  | SetTerrainFilterEnabled (checked : bool)
  | SetMaxTerrain (v : Z)
  | SetMaxCost (v : Z)
  | Click.

Definition handle (st : app) (ev : event) : outcome app :=
  match ev with
  | SetSource i =>
      match options !! i with
      | Some v =>
          Returned (Mk (Some v) (destination st) (terrainFilterEnabled st)
                      (maxTerrain st) (maxCost st) (route st))
      | None => Returned st
      end
  | SetDestination i =>
      match options !! i with
      | Some v =>
          Returned (Mk (source st) (Some v) (terrainFilterEnabled st)
                      (maxTerrain st) (maxCost st) (route st))
      | None => Returned st
      end
  | SetTerrainFilterEnabled b =>
      Returned (Mk (source st) (destination st) b
                  (maxTerrain st) (maxCost st) (route st))
  | SetMaxTerrain v =>
      Returned (Mk (source st) (destination st) (terrainFilterEnabled st)
                  v (maxCost st) (route st))
  | SetMaxCost v =>
      Returned (Mk (source st) (destination st) (terrainFilterEnabled st)
                  (maxTerrain st) v (route st))
  | Click => calculateRoute st
  end.

Fixpoint run (st : app) (evs : list event) : outcome app :=
  match evs with
  | [] => Returned st
  | ev :: rest =>
      match handle st ev with
      | Returned st' => run st' rest
      | TypeError => TypeError
      | Diverged => Diverged
      end
  end.

Definition inRoute (st : app) (edge : edge) : outcome bool :=
  highlighted (route st) edge.

(** [nodes.find(n => n.id === k)]. *)
Definition find_node (k : string) : option node :=
  List.find (λ n, bool_decide (id n = k)) nodes.

(** The attributes of a drawn [<line>]. *)
Record line := Line {
  x1 : Z; y1 : Z; x2 : Z; y2 : Z;
  stroke : string;
  strokeWidth : Z
}.

(** The callback of [edges.map]; reading [.x] of [undefined] throws. *)
Definition render_line (st : app) (edge : edge) : outcome line :=
  match inRoute st edge with
  | Returned b =>
      match find_node (start edge), find_node (end_ edge) with
      | Some a, Some b' =>
          Returned (Line (x a) (y a) (x b') (y b')
                      (if b then "#f5222d" else "#aaa")
                      (if b then 5 else 2))
      | _, _ => TypeError
      end
  | TypeError => TypeError
  | Diverged => Diverged
  end.

(** [v.toFixed(2) * 100] on a number with an integer value. *)
Definition times100 (v : number) : number :=
  match v with
  | Fin z => Fin (z * 100)
  | Infinity => Infinity
  end.

(** The number shown in the "Edge Cost" cell of a table row:
    [calculateEdgeCost(record).toFixed(2) * 100]. *)
Definition edge_cost_cell (record : edge) : Z :=
  (calculateEdgeCost record * 100)%Z.

(** The route panel: the placeholder, or the total and the table rows with
    their "Edge Cost" cells. *)
Inductive panel :=
  | NoRouteYet
  | Details (total : number) (rows : list (edge * Z)).

(** The rows of the table; reading [record.distance] of an [undefined]
    record throws. *)
Fixpoint table_rows (p : list (option edge)) : outcome (list (edge * Z)) :=
  match p with
  | [] => Returned []
  | None :: _ => TypeError
  | Some record :: p' =>
      match table_rows p' with
      | Returned rows => Returned ((record, edge_cost_cell record) :: rows)
      | TypeError => TypeError
      | Diverged => Diverged
      end
  end.

(** Calling [toFixed] on a value that is not a number throws. *)
Definition route_info (st : app) : outcome panel :=
  match path (route st) with
  | [] => Returned NoRouteYet
  | _ :: _ =>
      match cost (route st) with
      | Number c =>
          match table_rows (path (route st)) with
          | Returned rows => Returned (Details (times100 c) rows)
          | TypeError => TypeError
          | Diverged => Diverged
          end
      | Undefined | Inherited _ => TypeError
      end
  end.

Definition sum_cells (rows : list (edge * Z)) : Z :=
  foldl (λ acc row, (acc + row.2)%Z) 0%Z rows.

(** What the states reached by the component satisfy: the selected end
    points are options of the selects, the path of the route holds edges of
    the graph, and a route with edges has the total of their costs as its
    cost. *)
Definition consistent (st : app) : Prop :=
  (∀ s, source st = Some s → s ∈ options) ∧
  (∀ d, destination st = Some d → d ∈ options) ∧
  ∃ p, path (route st) = Some <$> p ∧
       (p ≠ [] → cost (route st) = Number (Fin (path_cost p))) ∧
       (∀ e, e ∈ p → e ∈ edges).

End App.

(** * Proofs *)

(** ** Insertion-ordered sets *)

Lemma elem_of_Set_add s k n : n ∈ Set_add s k ↔ n ∈ s ∨ n = k.
Proof.
  unfold Set_add. case_bool_decide as Hk.
  - split; [auto | intros [?| ->]; done].
  - rewrite elem_of_app, list_elem_of_singleton. done.
Qed.

Lemma NoDup_Set_add s k : NoDup s → NoDup (Set_add s k).
Proof.
  intros Hs. unfold Set_add. case_bool_decide as Hk; [done|].
  apply NoDup_app. split_and!; [done| |apply NoDup_singleton].
  intros n Hn ->%list_elem_of_singleton. done.
Qed.

Lemma length_Set_add s k : length (Set_add s k) ≤ S (length s).
Proof.
  unfold Set_add. case_bool_decide; [lia|]. rewrite length_app. simpl. lia.
Qed.

Lemma Set_new_spec l :
  (∀ n, n ∈ Set_new l ↔ n ∈ l) ∧ NoDup (Set_new l) ∧ length (Set_new l) ≤ length l.
Proof.
  unfold Set_new.
  cut (∀ s, (∀ n, n ∈ foldl Set_add s l ↔ n ∈ s ∨ n ∈ l) ∧
            (NoDup s → NoDup (foldl Set_add s l)) ∧
            length (foldl Set_add s l) ≤ length s + length l).
  { intros H. destruct (H []) as (H1 & H2 & H3). split_and!.
    - intros n. rewrite H1. rewrite elem_of_nil. tauto.
    - apply H2, NoDup_nil_2.
    - simpl in H3. done. }
  induction l as [|k l IH]; intros s; simpl.
  - split_and!; [|done|lia]. intros n. rewrite elem_of_nil. tauto.
  - destruct (IH (Set_add s k)) as (H1 & H2 & H3). split_and!.
    + intros n. rewrite H1, elem_of_Set_add, elem_of_cons. tauto.
    + intros Hs. apply H2, NoDup_Set_add, Hs.
    + pose proof (length_Set_add s k). lia.
Qed.

Lemma elem_of_Set_delete s k n : n ∈ Set_delete s k ↔ n ∈ s ∧ n ≠ k.
Proof. unfold Set_delete. rewrite list_elem_of_filter. tauto. Qed.

Lemma length_Set_delete s k : k ∈ s → length (Set_delete s k) < length s.
Proof.
  unfold Set_delete. induction s as [|a s IH]; intros Hk.
  - by apply elem_of_nil in Hk.
  - rewrite filter_cons. case_decide as Ha; simpl.
    + apply elem_of_cons in Hk as [->|Hk]; [done|]. specialize (IH Hk). lia.
    + pose proof (length_filter (λ n, n ≠ k) s). lia.
Qed.

(** ** The dictionaries filled from the node list *)

Lemma lookup_fill {V : Type} (c : V) (ns : list node) (m : gmap string V) k :
  foldl (λ m n, <[id n := c]> m) m ns !! k =
  if bool_decide (k ∈ id <$> ns) then Some c else m !! k.
Proof.
  revert m. induction ns as [|n ns IH]; intros m; cbn [foldl].
  - rewrite bool_decide_eq_false_2; [done | apply not_elem_of_nil].
  - rewrite IH, fmap_cons. case_bool_decide as Hk.
    + rewrite bool_decide_eq_true_2; [done | by right].
    + destruct (decide (k = id n)) as [->|Hne].
      * rewrite lookup_insert_eq, bool_decide_eq_true_2; [done | by left].
      * rewrite lookup_insert_ne by done.
        rewrite bool_decide_eq_false_2; [done|].
        rewrite not_elem_of_cons. done.
Qed.

Lemma init_graph_lookup ns k :
  init_graph ns !! k = if bool_decide (k ∈ id <$> ns) then Some [] else None.
Proof. unfold init_graph. rewrite lookup_fill, lookup_empty. done. Qed.

Lemma set_cost_lookup a v m k :
  set_cost a v m !! k =
  if bool_decide (k = "__proto__") then m !! k
  else if decide (a = k) then Some v else m !! k.
Proof.
  unfold set_cost. case_bool_decide as Ha.
  - subst a. case_bool_decide as Hk; [done|]. by rewrite decide_False.
  - case_bool_decide as Hk.
    + subst k. by rewrite lookup_insert_ne.
    + by rewrite lookup_insert.
Qed.

Lemma fill_costs_lookup ns m k :
  foldl (λ c n, set_cost (id n) Infinity c) m ns !! k =
  if bool_decide (k = "__proto__") then m !! k
  else if bool_decide (k ∈ id <$> ns) then Some Infinity else m !! k.
Proof.
  revert m. induction ns as [|n ns IH]; intros m; cbn [foldl].
  - case_bool_decide; [done|].
    rewrite bool_decide_eq_false_2; [done | apply not_elem_of_nil].
  - rewrite IH, fmap_cons, set_cost_lookup. case_bool_decide as Hp; [done|].
    case_bool_decide as Hk.
    + rewrite bool_decide_eq_true_2; [done | by right].
    + case_decide as Hn.
      * subst k. rewrite bool_decide_eq_true_2; [done | by left].
      * rewrite bool_decide_eq_false_2; [done|].
        rewrite not_elem_of_cons. done.
Qed.

Lemma init_costs_lookup ns source k :
  init_costs ns source !! k =
  if bool_decide (k = "__proto__") then None
  else if decide (source = k) then Some (Fin 0)
  else if bool_decide (k ∈ id <$> ns) then Some Infinity else None.
Proof.
  unfold init_costs. rewrite set_cost_lookup, fill_costs_lookup, lookup_empty.
  case_bool_decide; [done|]. by case_decide.
Qed.

(** ** The adjacency structure *)

Lemma push_Some k nb g g' :
  push k nb g = Some g' ↔ ∃ l, g !! k = Some l ∧ g' = <[k := l ++ [nb]]> g.
Proof.
  unfold push. destruct (g !! k) as [l|]; split.
  - intros [= <-]. eauto.
  - intros (l' & [= <-] & ->). done.
  - done.
  - intros (l' & [=] & _).
Qed.

Lemma push_lookup k nb g g' j :
  push k nb g = Some g' →
  g' !! j = if decide (k = j) then (λ l, l ++ [nb]) <$> g !! j else g !! j.
Proof.
  intros (l & Hl & ->)%push_Some. rewrite lookup_insert.
  case_decide as Hj; [subst j; by rewrite Hl | done].
Qed.

Section Adjacency.
Context (tf : edge → bool) (maxCost : Z).

Lemma add_edge_lookup g e g' :
  add_edge tf maxCost g e = Some g' →
  ∀ k, ∃ l', g' !! k = (λ l, l ++ l') <$> g !! k ∧
    ∀ nb, nb ∈ l' →
      admissible tf maxCost e = true ∧
      (nb = Neighbor (end_ e) (calculateEdgeCost e) e ∧ k = start e ∨
       nb = Neighbor (start e) (calculateEdgeCost e) e ∧ k = end_ e).
Proof.
  unfold add_edge. destruct (admissible tf maxCost e) eqn:Ha.
  - destruct (push (start e) _ g) as [g1|] eqn:H1; [|done].
    intros H2 k. rewrite (push_lookup _ _ _ _ k H2), (push_lookup _ _ _ _ k H1).
    destruct (decide (start e = k)) as [Hs|Hs], (decide (end_ e = k)) as [He|He].
    + eexists [_; _]. split.
      * destruct (g !! k); simpl; [|done]. by rewrite <- (assoc_L (++)).
      * intros nb [->|[->|[]%elem_of_nil]%elem_of_cons]%elem_of_cons; auto.
    + eexists [_]. split; [done|].
      intros nb [->|[]%elem_of_nil]%elem_of_cons; auto.
    + eexists [_]. split; [done|].
      intros nb [->|[]%elem_of_nil]%elem_of_cons; auto.
    + exists []. split; [|by intros nb []%elem_of_nil].
      destruct (g !! k); simpl; [|done]. by rewrite app_nil_r.
  - intros [= <-] k. exists []. split; [|by intros nb []%elem_of_nil].
    destruct (g !! k); simpl; [|done]. by rewrite app_nil_r.
Qed.

Lemma add_edges_dom es g g' k :
  add_edges tf maxCost g es = Some g' → is_Some (g' !! k) ↔ is_Some (g !! k).
Proof.
  revert g. induction es as [|e es IH]; intros g; simpl.
  - by intros [= <-].
  - destruct (add_edge tf maxCost g e) as [g1|] eqn:H1; [|done].
    intros H2%IH. rewrite H2.
    destruct (add_edge_lookup _ _ _ H1 k) as (l' & -> & _).
    by rewrite fmap_is_Some.
Qed.

Lemma add_edges_ok all es g g' :
  add_edges tf maxCost g es = Some g' →
  (∀ e, e ∈ es → e ∈ all) →
  graph_ok tf maxCost all g → graph_ok tf maxCost all g'.
Proof.
  revert g. induction es as [|e es IH]; intros g; simpl.
  - by intros [= <-].
  - destruct (add_edge tf maxCost g e) as [g1|] eqn:H1; [|done].
    intros H2 Hall Hg. apply (IH g1 H2).
    { intros e' He'. apply Hall. by right. }
    intros k l nb Hl Hnb.
    destruct (add_edge_lookup _ _ _ H1 k) as (l' & Hk & Hl').
    rewrite Hl in Hk. destruct (g !! k) as [l0|] eqn:Hl0; [|done].
    injection Hk as ->. apply elem_of_app in Hnb as [Hnb|Hnb].
    + by apply (Hg k l0).
    + destruct (Hl' nb Hnb) as (Ha & [[-> ->]|[-> ->]]);
        (split_and!; simpl; [apply Hall; by left | done | done | auto]).
Qed.

Lemma add_edges_total es g :
  (∀ e, e ∈ es → is_Some (g !! start e) ∧ is_Some (g !! end_ e)) →
  is_Some (add_edges tf maxCost g es).
Proof.
  revert g. induction es as [|e es IH]; intros g Hg; simpl; [done|].
  assert (is_Some (add_edge tf maxCost g e)) as [g1 H1].
  { unfold add_edge. destruct (admissible tf maxCost e); [|done].
    destruct (Hg e) as [[l1 Hs] [l2 He]]; [by left|].
    unfold push. rewrite Hs, lookup_insert.
    case_decide as Hse; [by rewrite <- Hse | by rewrite He]. }
  rewrite H1. apply IH. intros e' He'.
  destruct (Hg e') as [Hs He]; [by right|].
  destruct (add_edge_lookup _ _ _ H1 (start e')) as (? & -> & _).
  destruct (add_edge_lookup _ _ _ H1 (end_ e')) as (? & -> & _).
  by rewrite !fmap_is_Some.
Qed.

Lemma add_edges_grow es g g' k l :
  add_edges tf maxCost g es = Some g' → g !! k = Some l →
  ∃ l', g' !! k = Some (l ++ l').
Proof.
  revert g l. induction es as [|e es IH]; intros g l; simpl.
  - intros [= <-] Hl. exists []. by rewrite app_nil_r.
  - destruct (add_edge tf maxCost g e) as [g1|] eqn:H1; [|done].
    intros H2 Hl. destruct (add_edge_lookup _ _ _ H1 k) as (l1 & Hk & _).
    rewrite Hl in Hk. simpl in Hk.
    destruct (IH g1 _ H2 Hk) as (l2 & Hl2). exists (l1 ++ l2).
    by rewrite (assoc_L (++)).
Qed.

Lemma add_edges_entered es g g' e :
  add_edges tf maxCost g es = Some g' → e ∈ es →
  admissible tf maxCost e = true →
  (∃ l, g' !! start e = Some l ∧ Neighbor (end_ e) (calculateEdgeCost e) e ∈ l) ∧
  (∃ l, g' !! end_ e = Some l ∧ Neighbor (start e) (calculateEdgeCost e) e ∈ l).
Proof.
  revert g. induction es as [|e' es IH]; intros g; simpl.
  - by intros _ ?%elem_of_nil.
  - destruct (add_edge tf maxCost g e') as [g1|] eqn:H1; [|done].
    intros H2 [<-|He]%elem_of_cons Ha; [|by apply (IH g1)].
    unfold add_edge in H1. rewrite Ha in H1.
    destruct (push (start e) _ g) as [g0|] eqn:H0; [|done].
    pose proof (push_lookup _ _ _ _ (start e) H0) as Hs0.
    pose proof (push_lookup _ _ _ _ (start e) H1) as Hs1.
    pose proof (push_lookup _ _ _ _ (end_ e) H1) as He1.
    rewrite decide_True in Hs0 by done. rewrite decide_True in He1 by done.
    apply push_Some in H0 as (ls & Hls & _).
    apply push_Some in H1 as (le & Hle & _).
    rewrite Hls in Hs0. rewrite Hle in He1. simpl in Hs0, He1.
    assert (∃ l, g1 !! start e = Some l ∧
                 Neighbor (end_ e) (calculateEdgeCost e) e ∈ l) as (l1 & Hl1 & Hin1).
    { rewrite Hs1. case_decide; rewrite Hs0; simpl; eexists; (split; [done|]);
        rewrite !elem_of_app, !list_elem_of_singleton; auto. }
    destruct (add_edges_grow _ _ _ _ _ H2 Hl1) as (l1' & Hg1).
    destruct (add_edges_grow _ _ _ _ _ H2 He1) as (l2' & Hg2).
    split; eexists; (split; [eassumption|]);
      rewrite !elem_of_app, ?list_elem_of_singleton; auto.
Qed.

End Adjacency.

Lemma init_graph_ok tf maxCost es ns : graph_ok tf maxCost es (init_graph ns).
Proof.
  intros k l nb Hl Hnb. rewrite init_graph_lookup in Hl.
  case_bool_decide; [|done]. injection Hl as <-. by apply elem_of_nil in Hnb.
Qed.

Lemma build_graph_ok ns es tf maxCost g :
  build_graph ns es tf maxCost = Some g → graph_ok tf maxCost es g.
Proof.
  intros H. eapply add_edges_ok; [exact H | done | apply init_graph_ok].
Qed.

Lemma build_graph_dom ns es tf maxCost g k :
  build_graph ns es tf maxCost = Some g → is_Some (g !! k) ↔ k ∈ id <$> ns.
Proof.
  intros H. rewrite (add_edges_dom _ _ _ _ _ _ H), init_graph_lookup.
  case_bool_decide; split; try done.
Qed.

Lemma build_graph_total ns es tf maxCost :
  well_formed ns es → is_Some (build_graph ns es tf maxCost).
Proof.
  intros Hwf. apply add_edges_total. intros e He.
  rewrite !init_graph_lookup.
  destruct (proj1 (Forall_forall _ _) Hwf e He) as [Hs Hd].
  by rewrite !bool_decide_eq_true_2.
Qed.

(** ** Selection of the next node *)

Lemma num_lt_Fin a b : num_lt a b = true → ∃ z, a = Fin z.
Proof. destruct a; [eauto | done]. Qed.

Lemma pick_fold cs unv acc n :
  (foldl (pick cs) acc unv).1 = Some n →
  acc.1 = Some n ∨ n ∈ unv ∧ ∃ z, cs !! n = Some (Fin z).
Proof.
  revert acc. induction unv as [|a unv IH]; intros acc; cbn [foldl]; [auto|].
  intros [Hacc|[Hn Hz]]%IH; [|right; split; [by right | done]].
  unfold pick in Hacc. destruct (cs !! a) as [c|] eqn:Ha; [|auto].
  destruct (num_lt c acc.2) eqn:Hlt; [|auto].
  simpl in Hacc. injection Hacc as ->. right. split; [by left|].
  destruct (num_lt_Fin _ _ Hlt) as [z ->]. eauto.
Qed.

Lemma select_min_Some cs unv n :
  select_min cs unv = Some n → n ∈ unv ∧ ∃ z, cs !! n = Some (Fin z).
Proof. intros [?|?]%pick_fold; done. Qed.

(** ** Predecessor links *)


Lemma reaches_root_le prev n m v :
  reaches_root prev n v → n ≤ m → reaches_root prev m v.
Proof.
  intros H. revert m. induction H as [n v Hv Hp|n v l Hv _ IH]; intros m Hm.
  - by constructor.
  - destruct m as [|m]; [lia|]. eapply reaches_link; [done|]. apply IH. lia.
Qed.

Lemma ordered_reaches prev vis v :
  ordered prev vis → (∀ k, k ∈ vis → prev !! k = None → plain k) →
  v ∈ vis → reaches_root prev (length vis) v.
Proof.
  revert v. induction vis as [|a vis IH]; intros v; simpl;
    [by intros _ _ ?%elem_of_nil|].
  intros [Ha Hord] Hroot [->|Hv]%elem_of_cons.
  - destruct (prev !! a) as [l|] eqn:Hl.
    + eapply reaches_link; [done|]. apply IH; [done | | by apply Ha].
      intros k Hk. apply Hroot. by right.
    + constructor; [done|]. apply Hroot; [by left | done].
  - eapply reaches_root_le; [apply IH; [done | | done] | lia].
    intros k Hk. apply Hroot. by right.
Qed.

Lemma ordered_ext prev prev' vis :
  (∀ k, k ∈ vis → prev' !! k = prev !! k) → ordered prev vis → ordered prev' vis.
Proof.
  induction vis as [|a vis IH]; simpl; [done|]. intros Hext [Ha Hord]. split.
  - intros l. rewrite Hext by (by left). apply Ha.
  - apply IH; [|done]. intros k Hk. apply Hext. by right.
Qed.

(** The three cases of an iteration of the reconstruction loop. *)
Lemma reconstruct_root n prev acc v :
  prev !! v = None → plain v → reconstruct n prev acc v = Returned acc.
Proof.
  intros Hv Hp. destruct n; simpl; rewrite Hv;
    by rewrite bool_decide_eq_false_2.
Qed.

Lemma reconstruct_link n prev acc v l :
  prev !! v = Some l →
  reconstruct n prev acc v =
  match n with
  | O => Diverged
  | S n' => reconstruct n' prev (Some (via l) :: acc) (from l)
  end.
Proof. intros Hv. destruct n; simpl; by rewrite Hv. Qed.

Lemma reconstruct_inherited n prev acc v :
  prev !! v = None → v ∈ Object_prototype →
  reconstruct n prev acc v =
  match n with
  | O => Diverged
  | S n' => reconstruct n' prev (None :: acc) "undefined"
  end.
Proof.
  intros Hv Hp. destruct n; simpl; rewrite Hv;
    by rewrite bool_decide_eq_true_2.
Qed.

(** The three cases, on a returned path. *)
Lemma reconstruct_Returned n prev acc v p :
  reconstruct n prev acc v = Returned p →
  (prev !! v = None ∧ plain v ∧ p = acc) ∨
  (∃ n' l, n = S n' ∧ prev !! v = Some l ∧
     reconstruct n' prev (Some (via l) :: acc) (from l) = Returned p) ∨
  (∃ n', n = S n' ∧ prev !! v = None ∧ v ∈ Object_prototype ∧
     reconstruct n' prev (None :: acc) "undefined" = Returned p).
Proof.
  destruct (prev !! v) as [l|] eqn:Hv.
  - rewrite (reconstruct_link _ _ _ _ l Hv). destruct n as [|n']; [done|].
    intros H. right. left. by exists n', l.
  - destruct (decide (v ∈ Object_prototype)) as [Hp|Hp].
    + rewrite reconstruct_inherited by done. destruct n as [|n']; [done|].
      intros H. right. right. by exists n'.
    + rewrite reconstruct_root by done. intros [= <-]. by left.
Qed.

Lemma reconstruct_reaches prev n v acc :
  reaches_root prev n v → ∃ p, reconstruct n prev acc v = Returned p.
Proof.
  intros H. revert acc. induction H as [n v Hv Hp|n v l Hv _ IH]; intros acc.
  - exists acc. by apply reconstruct_root.
  - rewrite (reconstruct_link _ _ _ _ l Hv). apply IH.
Qed.

Lemma reconstruct_le prev n m v acc p :
  reconstruct n prev acc v = Returned p → n ≤ m →
  reconstruct m prev acc v = Returned p.
Proof.
  revert m v acc. induction n as [|n IH]; intros m v acc Hrec Hm;
    apply reconstruct_Returned in Hrec
      as [(Hv & Hp & ->)|[(n' & l & Hn & Hv & Hrec)|(n' & Hn & Hv & Hp & Hrec)]];
    try done.
  - by apply reconstruct_root.
  - by apply reconstruct_root.
  - injection Hn as <-. destruct m as [|m]; [lia|].
    rewrite (reconstruct_link _ _ _ _ l Hv). apply IH; [done | lia].
  - injection Hn as <-. destruct m as [|m]; [lia|].
    rewrite reconstruct_inherited by done. apply IH; [done | lia].
Qed.

(** The loop never throws. *)
Lemma reconstruct_no_throw prev n v acc :
  reconstruct n prev acc v ≠ TypeError.
Proof.
  revert v acc. induction n as [|n IH]; intros v acc; simpl;
    destruct (prev !! v); try case_bool_decide; try done; apply IH.
Qed.

(** The edges of a reconstructed path are those of the links walked. *)
Lemma reconstruct_links prev n v acc p :
  reconstruct n prev acc v = Returned p →
  ∃ q, p = q ++ acc ∧ ∀ e, Some e ∈ q → ∃ k l, prev !! k = Some l ∧ via l = e.
Proof.
  revert v acc p. induction n as [|n IH]; intros v acc p Hrec;
    apply reconstruct_Returned in Hrec
      as [(Hv & Hp & ->)|[(n' & l & Hn & Hv & Hrec)|(n' & Hn & Hv & Hp & Hrec)]];
    try done.
  - exists []. split; [done | by intros e ?%elem_of_nil].
  - exists []. split; [done | by intros e ?%elem_of_nil].
  - injection Hn as <-. apply IH in Hrec as (q & -> & Hq).
    exists (q ++ [Some (via l)]). split; [by rewrite <- (assoc_L (++))|].
    intros e [He|Heq%list_elem_of_singleton]%elem_of_app; [eauto|].
    injection Heq as ->. eauto.
  - injection Hn as <-. apply IH in Hrec as (q & -> & Hq).
    exists (q ++ [None]). split; [by rewrite <- (assoc_L (++))|].
    intros e [He|?%list_elem_of_singleton]%elem_of_app; [eauto | done].
Qed.

Lemma plain_undefined : plain "undefined".
Proof. intros H%(bool_decide_pack _). vm_compute in H. exact H. Qed.

(** Walking [k] links takes [k] iterations. *)
Lemma leads_run prev k v r :
  leads prev k v r →
  ∀ fuel acc, ∃ q, reconstruct (k + fuel) prev acc v =
                   reconstruct fuel prev (q ++ acc) r.
Proof.
  induction 1 as [v|k v l r Hv _ IH]; intros fuel acc.
  - by exists [].
  - rewrite (reconstruct_link _ _ _ _ l Hv). simpl.
    destruct (IH fuel (Some (via l) :: acc)) as [q Hq].
    exists (q ++ [Some (via l)]). by rewrite Hq, <- (assoc_L (++)).
Qed.

(** When the links from "undefined" lead to a key that holds nothing but
    an inherited value, the walk from every key that leads there goes round
    for ever. *)
Lemma cycle_diverges prev k r :
  leads prev k "undefined" r → prev !! r = None → r ∈ Object_prototype →
  ∀ fuel w j acc, leads prev j w r → reconstruct fuel prev acc w = Diverged.
Proof.
  intros Hk Hr Hp. induction fuel as [|fuel IH]; intros w j acc Hw.
  - destruct Hw as [|j w l r Hl _].
    + by rewrite reconstruct_inherited.
    + by rewrite (reconstruct_link _ _ _ _ l Hl).
  - destruct Hw as [|j w l r Hl Hw].
    + rewrite reconstruct_inherited by done. by apply (IH _ k).
    + rewrite (reconstruct_link _ _ _ _ l Hl). by apply (IH _ j).
Qed.

Lemma ordered_leads prev vis w :
  ordered prev vis → w ∈ vis →
  ∃ k r, leads prev k w r ∧ prev !! r = None ∧ r ∈ vis ∧ k < length vis.
Proof.
  revert w. induction vis as [|a vis IH]; intros w; simpl;
    [by intros _ ?%elem_of_nil|].
  intros [Ha Hord] [->|Hw]%elem_of_cons.
  - destruct (prev !! a) as [l|] eqn:Hl.
    + destruct (IH (from l) Hord (Ha l eq_refl)) as (k & r & Hk & Hr & Hrv & Hlen).
      exists (S k), r. split_and!; [by eapply leads_link | done | by right | lia].
    + exists 0, a. split_and!; [constructor | done | by left | lia].
  - destruct (IH w Hord Hw) as (k & r & Hk & Hr & Hrv & Hlen).
    exists k, r. split_and!; [done | done | by right | lia].
Qed.

(** ** The invariant of the main loop *)

Section Search.
Context (ns : list node) (es : list edge) (source : string).
Context (tf : edge → bool) (maxCost : Z).

Local Abbreviation Inv := (inv ns es source tf maxCost).


Lemma inv_init : Inv [] (init_state ns source).
Proof.
  split; simpl.
  - intros n. by rewrite (proj1 (Set_new_spec _)).
  - by intros n ?%elem_of_nil.
  - apply NoDup_nil_2.
  - by intros n ?%elem_of_nil.
  - intros v. rewrite init_costs_lookup. case_bool_decide; [by intros [? ?]|].
    case_decide; [auto|].
    case_bool_decide; [auto | by intros [? ?]].
  - intros v c. rewrite init_costs_lookup. case_bool_decide; [done|].
    case_decide.
    + intros [= <-]. auto.
    + by case_bool_decide.
  - intros v l. by rewrite lookup_empty.
  - done.
Qed.

Lemma inv_visit vis s c z :
  Inv vis s → c ∈ unvisited s → costs s !! c = Some (Fin z) →
  Inv (c :: vis) (State (costs s) (previous s) (Set_delete (unvisited s) c)).
Proof.
  intros [Hunv Hvis Hnd Hset Hcs Hfin Hprev Hord] Hc Hz. split; simpl.
  - intros n [Hn _]%elem_of_Set_delete. by apply Hunv.
  - intros n [->|Hn]%elem_of_cons; rewrite elem_of_Set_delete.
    + split; [by apply Hunv | tauto].
    + destruct (Hvis n Hn). tauto.
  - apply NoDup_cons. split; [|done]. intros Hin. by destruct (Hvis c Hin).
  - intros n [->|Hn]%elem_of_cons; [eauto | by apply Hset].
  - done.
  - done.
  - intros v l Hl. destruct (Hprev v l Hl) as (? & ? & ?).
    split_and!; [done | by right | done].
  - split; [|done]. intros l Hl. by destruct (Hprev c l Hl) as (? & ? & ?).
Qed.

Lemma inv_relax vis unv c cp nb :
  Inv vis (State cp.1 cp.2 unv) → c ∈ vis →
  entry_ok tf maxCost es c nb →
  Inv vis (State (relax unv c cp nb).1 (relax unv c cp nb).2 unv).
Proof.
  intros Hinv Hc (Hes & Hadm & Hcost & Hends). unfold relax, Set_has.
  case_bool_decide as Hv; [|done].
  destruct (cp.1 !! c) as [cc|] eqn:Hcc; [|done].
  destruct (cp.1 !! nb_node nb) as [cn|] eqn:Hcn; [|done].
  destruct (num_lt (num_add cc (nb_cost nb)) cn) eqn:Hlt; [|done].
  destruct cc as [z|]; [|done]. simpl.
  destruct Hinv as [Hunv Hvis Hnd Hset Hcs Hfin Hprev Hord]. simpl in *.
  assert (∀ k, k ∈ vis → k ≠ nb_node nb) as Hne.
  { intros k Hk ->. by destruct (Hvis _ Hk). }
  split; simpl.
  - done.
  - done.
  - done.
  - intros n Hn. rewrite lookup_insert_ne by (by apply not_eq_sym, Hne).
    by apply Hset.
  - intros v. rewrite lookup_insert. case_decide as Hk; [subst v; auto | auto].
  - intros v c'. rewrite !lookup_insert. case_decide as Hk; [eauto|]. apply Hfin.
  - intros v l. rewrite lookup_insert. case_decide as Hk.
    + intros [= <-]. subst v. split_and!; [auto | done |].
      unfold link_ok. simpl. split_and!; [by apply Hne | done | done | done |].
      exists z. rewrite lookup_insert_ne by (by apply not_eq_sym, Hne).
      rewrite lookup_insert_eq, Hcost. done.
    + intros Hl. destruct (Hprev v l Hl) as (Hvn & Hfrom & Hlk).
      split_and!; [done | done |].
      destruct Hlk as (? & ? & ? & ? & cu & Hcu & Hcv).
      unfold link_ok. split_and!; [done | done | done | done |].
      exists cu. rewrite !lookup_insert_ne; [done | done |].
      by apply not_eq_sym, Hne.
  - apply (ordered_ext cp.2); [|done]. intros k Hk.
    apply lookup_insert_ne. by apply not_eq_sym, Hne.
Qed.

Lemma inv_relax_fold vis unv c nbs cp :
  Inv vis (State cp.1 cp.2 unv) → c ∈ vis →
  (∀ nb, nb ∈ nbs → entry_ok tf maxCost es c nb) →
  Inv vis (State (foldl (relax unv c) cp nbs).1 (foldl (relax unv c) cp nbs).2 unv).
Proof.
  revert cp. induction nbs as [|nb nbs IH]; intros cp Hinv Hc Hnbs; [done|].
  cbn [foldl]. apply IH; [|done|].
  - apply inv_relax; [done | done |]. apply Hnbs. by left.
  - intros nb' Hnb'. apply Hnbs. by right.
Qed.

Context (graph : gmap string (list neighbor)).
Context (Hgraph : build_graph ns es tf maxCost = Some graph).

Lemma step_decreases destination s s' :
  step graph destination s = Next s' →
  length (unvisited s') < length (unvisited s).
Proof.
  unfold step. destruct (select_min _ _) as [c|] eqn:Hsel; [|done].
  case_bool_decide; [done|]. destruct (graph !! c); [|done].
  intros [= <-]. simpl. apply length_Set_delete.
  by apply select_min_Some in Hsel as [? _].
Qed.

Lemma inv_step destination vis s :
  Inv vis s →
  step graph destination s = Break ∨
  ∃ s' c, step graph destination s = Next s' ∧ Inv (c :: vis) s'.
Proof.
  intros Hinv. unfold step.
  destruct (select_min _ _) as [c|] eqn:Hsel; [|by left].
  case_bool_decide; [by left|]. right.
  apply select_min_Some in Hsel as [Hc [z Hz]].
  destruct (proj2 (build_graph_dom _ _ _ _ _ c Hgraph)) as [nbs Hnbs].
  { by apply (inv_unv Hinv). }
  rewrite Hnbs. eexists _, c. split; [done|].
  apply (inv_relax_fold (c :: vis) _ c nbs (costs s, previous s)).
  - by apply (inv_visit _ _ _ z).
  - by left.
  - intros nb Hnb. by apply (build_graph_ok _ _ _ _ _ Hgraph c nbs).
Qed.

Lemma search_inv destination fuel vis s :
  Inv vis s → length (unvisited s) ≤ fuel →
  ∃ s' vis', search fuel graph destination s = Returned s' ∧ Inv vis' s'.
Proof.
  revert vis s. induction fuel as [|fuel IH]; intros vis s Hinv Hlen.
  - destruct (unvisited s) eqn:Hu; simpl in Hlen; [|lia].
    exists s, vis. simpl. by rewrite Hu.
  - simpl. destruct (unvisited s) eqn:Hu; [by exists s, vis|].
    destruct (inv_step destination vis s Hinv) as [->|(s' & c & Hs' & Hinv')].
    + by exists s, vis.
    + rewrite Hs'. apply (IH (c :: vis)); [done|].
      apply step_decreases in Hs'. rewrite Hu in Hs'. simpl in Hs', Hlen. lia.
Qed.

Lemma search_le destination n m s s' :
  search n graph destination s = Returned s' → n ≤ m →
  search m graph destination s = Returned s'.
Proof.
  revert m s. induction n as [|n IH]; intros m s; simpl.
  - destruct (unvisited s) eqn:Hu; [|done]. intros H _.
    destruct m; simpl; by rewrite Hu.
  - destruct (unvisited s) eqn:Hu.
    + intros H _. destruct m; simpl; by rewrite Hu.
    + intros H Hm. destruct m as [|m]; [lia|]. simpl. rewrite Hu.
      destruct (step graph destination s); [done | done |].
      apply IH; [done | lia].
Qed.

(** A settled node without a link is the source. *)
Lemma inv_root vis s k :
  Inv vis s → k ∈ vis → previous s !! k = None → k = source.
Proof.
  intros Hinv Hk Hl. destruct (inv_settled Hinv k Hk) as [c Hc].
  destruct (inv_finite Hinv k c Hc) as [[-> _]|[l Hl']]; [done | congruence].
Qed.

(** Every walk along the links of a reachable state is short. *)
Lemma inv_reaches vis s v :
  Inv vis s → plain source → (previous s !! v = None → plain v) →
  reaches_root (previous s) (S (length ns)) v.
Proof.
  intros Hinv Hsrc Hv.
  destruct (previous s !! v) as [l|] eqn:Hl; [|constructor; auto].
  eapply reaches_link; [done|].
  destruct (inv_prev Hinv v l Hl) as (_ & Hfrom & _).
  eapply reaches_root_le.
  - apply (ordered_reaches _ vis); [apply (inv_ordered Hinv) | | done].
    intros k Hk Hnone. by rewrite (inv_root vis s k).
  - rewrite <- (length_fmap id ns). apply submseteq_length, NoDup_submseteq.
    + apply (inv_nodup Hinv).
    + intros n Hn. by destruct (inv_vis Hinv n Hn).
Qed.

(** The cost recorded for a node totals the links walked from it. *)
Lemma reconstruct_cost vis s n v acc p c :
  Inv vis s → plain source →
  reconstruct n (previous s) acc v = Returned p →
  costs s !! v = Some (Fin c) →
  ∃ q, p = (Some <$> q) ++ acc ∧ path_cost q = c.
Proof.
  intros Hinv Hsrc. revert v acc c.
  induction n as [|n IH]; intros v acc c Hrec Hc;
    apply reconstruct_Returned in Hrec
      as [(Hv & Hp & ->)|[(n' & l & Hn & Hv & Hrec)|(n' & Hn & Hv & Hp & Hrec)]];
    try done.
  - destruct (inv_finite Hinv v c Hc) as [[_ ->]|[? ?]]; [|congruence].
    by exists [].
  - destruct (inv_finite Hinv v c Hc) as [[_ ->]|[? ?]]; [|congruence].
    by exists [].
  - injection Hn as <-.
    destruct (inv_prev Hinv v l Hv) as (_ & _ & Hlk).
    destruct Hlk as (_ & _ & _ & _ & cu & Hcu & Hcv).
    destruct (IH _ _ _ Hrec Hcu) as (q & -> & Hq).
    exists (q ++ [via l]). split.
    + by rewrite fmap_app, <- (assoc_L (++)).
    + unfold path_cost in *. rewrite foldl_app. simpl. rewrite Hq. congruence.
  - destruct (inv_finite Hinv v c Hc) as [[-> _]|[? ?]]; [done | congruence].
Qed.

(** Under the invariant, the walk from a node with a plain name, or with a
    link, returns a path of edges. *)
Lemma reconstruct_inv vis s v :
  Inv vis s → plain source → (previous s !! v = None → plain v) →
  ∃ p, reconstruct (S (length ns)) (previous s) [] v = Returned p.
Proof. intros Hinv Hsrc Hv. by apply reconstruct_reaches, (inv_reaches vis). Qed.

(** The links from a linked node lead to the source, within [length ns]
    links. *)
Lemma inv_leads vis s v l :
  Inv vis s → previous s !! v = Some l →
  ∃ k, leads (previous s) k v source ∧ previous s !! source = None ∧
       k ≤ length ns.
Proof.
  intros Hinv Hl. destruct (inv_prev Hinv v l Hl) as (_ & Hfrom & _).
  destruct (ordered_leads (previous s) vis (from l) (inv_ordered Hinv) Hfrom)
    as (k & r & Hk & Hr & Hrv & Hlen).
  pose proof (inv_root vis s r Hinv Hrv Hr) as ->.
  exists (S k). split_and!; [by eapply leads_link | done |].
  assert (length vis ≤ length ns); [|lia].
  rewrite <- (length_fmap id ns). apply submseteq_length, NoDup_submseteq.
  - apply (inv_nodup Hinv).
  - intros n Hn. by destruct (inv_vis Hinv n Hn).
Qed.

(** The reconstruction loop returns within [length ns + 1] iterations, or
    never. *)
Lemma reconstruct_decided vis s v :
  Inv vis s →
  (∃ p, reconstruct (S (length ns)) (previous s) [] v = Returned p) ∨
  (∀ fuel acc, reconstruct fuel (previous s) acc v = Diverged).
Proof.
  intros Hinv.
  destruct (previous s !! v) as [l|] eqn:Hv.
  - destruct (inv_leads vis s _ l Hinv Hv) as (k & Hk & Hsrc & Hlen).
    destruct (decide (source ∈ Object_prototype)) as [Hp|Hp].
    + (* the walk reaches the source, then the key "undefined" *)
      destruct (previous s !! "undefined") as [l'|] eqn:Hu.
      * right. intros fuel acc.
        destruct (inv_leads vis s _ l' Hinv Hu) as (k' & Hk' & _ & _).
        by apply (cycle_diverges (previous s) k' source Hk' Hsrc Hp fuel v k acc).
      * left. destruct (leads_run _ _ _ _ Hk 1 []) as [q Hq].
        rewrite (reconstruct_inherited 1 _ _ source) in Hq by done.
        rewrite (reconstruct_root 0 _ _ "undefined") in Hq;
          [|done | apply plain_undefined].
        eexists. apply (reconstruct_le _ (k + 1)); [done | lia].
    + left. destruct (leads_run _ _ _ _ Hk 0 []) as [q Hq].
      rewrite (reconstruct_root 0 _ _ source) in Hq by done.
      eexists. apply (reconstruct_le _ (k + 0)); [done | lia].
  - destruct (decide (v ∈ Object_prototype)) as [Hp|Hp].
    + destruct (previous s !! "undefined") as [l'|] eqn:Hu.
      * destruct (inv_leads vis s _ l' Hinv Hu) as (k' & Hk' & Hsrc & Hlen).
        destruct (decide (source ∈ Object_prototype)) as [Hps|Hps].
        -- right. intros fuel acc. rewrite reconstruct_inherited by done.
           destruct fuel as [|fuel]; [done|].
           by apply (cycle_diverges (previous s) k' source Hk' Hsrc Hps fuel
                       "undefined" k').
        -- left. destruct (leads_run _ _ _ _ Hk' 0 [None]) as [q Hq].
           rewrite (reconstruct_root 0 _ _ source) in Hq by done.
           eexists. apply (reconstruct_le _ (S (k' + 0))); [|lia].
           by rewrite reconstruct_inherited.
      * left. eexists. rewrite reconstruct_inherited by done.
        apply reconstruct_root; [done | apply plain_undefined].
    + left. eexists. by apply reconstruct_root.
Qed.

(** Between plain end points, every element of a returned path is an edge. *)
Lemma reconstruct_edges vis s n v acc p :
  Inv vis s → plain source → plain v →
  reconstruct n (previous s) acc v = Returned p →
  ∃ q, p = (Some <$> q) ++ acc.
Proof.
  intros Hinv Hsrc Hv Hrec.
  assert (reaches_root (previous s) (S (length ns)) v) as Hreach.
  { by apply (inv_reaches vis). }
  clear Hv. revert n acc Hrec.
  induction Hreach as [m v Hv Hp|m v l Hv _ IH]; intros n acc Hrec.
  - rewrite reconstruct_root in Hrec by done. injection Hrec as <-.
    by exists [].
  - rewrite (reconstruct_link _ _ _ _ l Hv) in Hrec.
    destruct n as [|n]; [done|]. apply IH in Hrec as (q & ->).
    exists (q ++ [via l]). by rewrite fmap_app, <- (assoc_L (++)).
Qed.

End Search.

(** ** The whole query *)

Lemma init_state_length ns source :
  length (unvisited (init_state ns source)) ≤ length ns.
Proof.
  simpl. rewrite <- (length_fmap id ns). apply (Set_new_spec (id <$> ns)).
Qed.

(** A query throws exactly when the adjacency structure cannot be built;
    otherwise the main loop finishes within its budget, in a state that
    satisfies the invariant, and the reconstruction loop decides the
    outcome. *)
Lemma dijkstra_cases ns es source destination tf maxCost f1 f2 :
  length ns ≤ f1 →
  (build_graph ns es tf maxCost = None ∧
   dijkstra_fuel f1 f2 ns es source destination tf maxCost = TypeError) ∨
  (∃ g s vis,
     build_graph ns es tf maxCost = Some g ∧
     search f1 g destination (init_state ns source) = Returned s ∧
     inv ns es source tf maxCost vis s ∧
     dijkstra_fuel f1 f2 ns es source destination tf maxCost =
       match reconstruct f2 (previous s) [] destination with
       | Returned p => Returned (Route p (read_cost (costs s) destination))
       | TypeError => TypeError
       | Diverged => Diverged
       end).
Proof.
  intros Hf1. unfold dijkstra_fuel.
  destruct (build_graph ns es tf maxCost) as [g|] eqn:Hg; [right | by left].
  destruct (search_inv ns es source tf maxCost g Hg destination (length ns)
              [] (init_state ns source)) as (s & vis & Hs & Hinv).
  { apply inv_init. }
  { apply init_state_length. }
  apply (search_le _ _ _ f1) in Hs; [|done].
  exists g, s, vis. by rewrite Hs.
Qed.

Lemma dijkstra_Returned ns es source destination tf maxCost r :
  dijkstra ns es source destination tf maxCost = Returned r →
  ∃ g s vis,
    build_graph ns es tf maxCost = Some g ∧
    inv ns es source tf maxCost vis s ∧
    reconstruct (S (length ns)) (previous s) [] destination = Returned (path r) ∧
    cost r = read_cost (costs s) destination.
Proof.
  unfold dijkstra.
  destruct (dijkstra_cases ns es source destination tf maxCost
              (length ns) (S (length ns))) as [[_ ->]|H]; [done | done |].
  destruct H as (g & s & vis & Hg & _ & Hinv & ->).
  destruct (reconstruct _ _ _ _) as [p| |] eqn:Hp; [|done|done].
  intros [= <-]. by exists g, s, vis.
Qed.


Lemma dijkstra_Diverged ns es source destination tf maxCost f1 f2 :
  dijkstra ns es source destination tf maxCost = Diverged →
  dijkstra_fuel f1 f2 ns es source destination tf maxCost = Diverged.
Proof.
  unfold dijkstra.
  destruct (dijkstra_cases ns es source destination tf maxCost
              (length ns) (S (length ns)))
    as [[Hg ->]|(g & s & vis & Hg & Hs & Hinv & ->)]; [done | done |].
  intros Hd. unfold dijkstra_fuel. rewrite Hg.
  destruct (search f1 g destination (init_state ns source)) as [s1| |] eqn:Hs1;
    [| |done].
  - apply (search_le _ _ _ (f1 `max` length ns)) in Hs1; [|lia].
    apply (search_le _ _ _ (f1 `max` length ns)) in Hs; [|lia].
    assert (s1 = s) as -> by congruence.
    destruct (reconstruct_decided ns es source tf maxCost vis s destination Hinv)
      as [[p Hp]|Hdiv]; [by rewrite Hp in Hd | by rewrite Hdiv].
  - exfalso. clear Hd.
    assert (∀ fuel s0 v0, inv ns es source tf maxCost v0 s0 →
              search fuel g destination s0 ≠ TypeError) as Hno.
    { induction fuel as [|fuel IH]; intros s0 v0 Hinv0; simpl.
      - by destruct (unvisited s0).
      - destruct (unvisited s0); [done|].
        destruct (inv_step ns es source tf maxCost g Hg destination v0 s0 Hinv0)
          as [->|(s2 & c & -> & Hinv2)]; [done|]. by apply (IH _ (c :: v0)). }
    by apply (Hno f1 _ [] (inv_init ns es source tf maxCost)).
Qed.

(** A query whose end points have plain names returns when the adjacency
    structure can be built. *)
Lemma dijkstra_plain ns es source destination tf maxCost g :
  build_graph ns es tf maxCost = Some g →
  plain source → plain destination →
  ∃ r, dijkstra ns es source destination tf maxCost = Returned r.
Proof.
  intros Hg Hsrc Hdst. unfold dijkstra.
  destruct (dijkstra_cases ns es source destination tf maxCost
              (length ns) (S (length ns))) as [[Hn _]|H]; [done | congruence |].
  destruct H as (g' & s & vis & _ & _ & Hinv & ->).
  destruct (reconstruct_inv ns es source tf maxCost vis s destination)
    as [p ->]; eauto.
Qed.

Lemma dijkstra_well_formed ns es source destination tf maxCost :
  well_formed ns es → plain source → plain destination →
  ∃ r, dijkstra ns es source destination tf maxCost = Returned r.
Proof.
  intros [g Hg]%(build_graph_total ns es tf maxCost). by apply (dijkstra_plain _ _ _ _ _ _ g).
Qed.

(** The links of a path edge. *)
Lemma path_edge_link ns es source destination tf maxCost r e :
  dijkstra ns es source destination tf maxCost = Returned r → Some e ∈ path r →
  ∃ s v l, link_ok es tf maxCost (costs s) v l ∧ via l = e.
Proof.
  intros (g & s & vis & _ & Hinv & Hrec & _)%dijkstra_Returned He.
  apply reconstruct_links in Hrec as (q & Hq & Hlinks).
  rewrite Hq, app_nil_r in He. destruct (Hlinks e He) as (k & l & Hl & <-).
  exists s, k, l. split; [|done]. by destruct (inv_prev Hinv k l Hl) as (_ & _ & ?).
Qed.




(** ** The filter enters the query only through the admissible edges *)

Lemma add_edges_ext tf maxCost tf' maxCost' es g :
  (∀ e, e ∈ es → admissible tf maxCost e = admissible tf' maxCost' e) →
  add_edges tf maxCost g es = add_edges tf' maxCost' g es.
Proof.
  revert g. induction es as [|e es IH]; intros g Hext; simpl; [done|].
  unfold add_edge. rewrite <- (Hext e) by (by left).
  destruct (admissible tf maxCost e).
  - destruct (push (start e) _ g) as [g0|]; [|done].
    destruct (push (end_ e) _ g0) as [g1|]; [|done].
    apply IH. intros e' He'. apply Hext. by right.
  - apply IH. intros e' He'. apply Hext. by right.
Qed.

Lemma dijkstra_ext ns es source destination tf maxCost tf' maxCost' :
  (∀ e, e ∈ es → admissible tf maxCost e = admissible tf' maxCost' e) →
  dijkstra ns es source destination tf maxCost =
  dijkstra ns es source destination tf' maxCost'.
Proof.
  intros Hext. unfold dijkstra, dijkstra_fuel, build_graph.
  by rewrite (add_edges_ext tf maxCost tf' maxCost').
Qed.

(** ** Self-loops *)


Lemma push_loopless_keep g g' k nb g1 :
  loopless g g' → push k nb g = Some g1 → nb_node nb ≠ k →
  ∃ g1', push k nb g' = Some g1' ∧ loopless g1 g1'.
Proof.
  intros Hg (l & Hl & ->)%push_Some Hnb. unfold push.
  pose proof (Hg k) as Hk. rewrite Hl in Hk. simpl in Hk. rewrite Hk.
  eexists. split; [done|]. intros j. rewrite !lookup_insert.
  case_decide as Hj; [|apply Hg]. subst j. simpl.
  rewrite filter_app, filter_cons_True by done. done.
Qed.

Lemma push_loopless_drop g g' k nb g1 :
  loopless g g' → push k nb g = Some g1 → nb_node nb = k → loopless g1 g'.
Proof.
  intros Hg (l & Hl & ->)%push_Some Hnb j. rewrite lookup_insert.
  case_decide as Hj; [|apply Hg]. subst j. simpl.
  rewrite filter_app, filter_cons_False by (by intros ?).
  rewrite filter_nil, app_nil_r, Hg, Hl. done.
Qed.

Lemma add_edges_loopless tf maxCost es g g' g1 :
  loopless g g' → add_edges tf maxCost g es = Some g1 →
  ∃ g1', add_edges tf maxCost g' (without_loops es) = Some g1' ∧ loopless g1 g1'.
Proof.
  unfold without_loops.
  revert g g'. induction es as [|e es IH]; intros g g' Hg; simpl.
  - intros [= <-]. by exists g'.
  - destruct (add_edge tf maxCost g e) as [g2|] eqn:H2; [|done]. intros H1.
    rewrite filter_cons. unfold add_edge in H2.
    destruct (admissible tf maxCost e) eqn:Ha.
    + destruct (push (start e) _ g) as [g0|] eqn:H0; [|done].
      case_decide as Hloop.
      * destruct (push_loopless_keep _ _ _ _ _ Hg H0) as (g0' & H0' & Hg0);
          [by apply not_eq_sym|].
        destruct (push_loopless_keep _ _ _ _ _ Hg0 H2) as (g2' & H2' & Hg2);
          [done|].
        simpl. unfold add_edge. rewrite Ha, H0', H2'. by apply (IH g2).
      * apply (IH g2); [|done].
        eapply push_loopless_drop; [|exact H2|done].
        eapply push_loopless_drop; [exact Hg|exact H0|done].
    + injection H2 as <-. case_decide as Hloop; [|by apply (IH g)].
      simpl. unfold add_edge. rewrite Ha. by apply (IH g).
Qed.

Lemma loopless_init ns : loopless (init_graph ns) (init_graph ns).
Proof. intros k. rewrite init_graph_lookup. by case_bool_decide. Qed.

Lemma relax_fold_loops unv c cp nbs :
  c ∉ unv →
  foldl (relax unv c) cp (filter (λ nb, nb_node nb ≠ c) nbs) =
  foldl (relax unv c) cp nbs.
Proof.
  intros Hc. revert cp. induction nbs as [|nb nbs IH]; intros cp; [done|].
  rewrite filter_cons. case_decide as Hnb; cbn [foldl]; [apply IH|].
  rewrite IH. f_equal.
  unfold relax, Set_has. rewrite Hnb. by rewrite bool_decide_eq_false_2.
Qed.

Lemma step_loopless g g' destination s :
  loopless g g' → step g' destination s = step g destination s.
Proof.
  intros Hg. unfold step. destruct (select_min _ _) as [c|]; [|done].
  case_bool_decide; [done|]. rewrite (Hg c).
  destruct (g !! c) as [nbs|]; simpl; [|done].
  rewrite relax_fold_loops; [done|]. rewrite elem_of_Set_delete. tauto.
Qed.

Lemma search_loopless fuel g g' destination s :
  loopless g g' → search fuel g' destination s = search fuel g destination s.
Proof.
  intros Hg. revert s. induction fuel as [|fuel IH]; intros s; simpl; [done|].
  destruct (unvisited s); [done|]. rewrite (step_loopless g g') by done.
  destruct (step g destination s); [done | done | apply IH].
Qed.

Lemma dijkstra_without_loops ns es source destination tf maxCost :
  dijkstra ns es source destination tf maxCost ≠ TypeError →
  dijkstra ns (without_loops es) source destination tf maxCost =
  dijkstra ns es source destination tf maxCost.
Proof.
  unfold dijkstra, dijkstra_fuel, build_graph.
  destruct (add_edges tf maxCost (init_graph ns) es) as [g|] eqn:Hg; [|done].
  intros _.
  destruct (add_edges_loopless _ _ _ _ _ _ (loopless_init ns) Hg)
    as (g' & -> & Hg').
  by rewrite (search_loopless _ g g').
Qed.

(** ** When the adjacency structure cannot be built *)

Lemma add_edges_None tf maxCost es g :
  add_edges tf maxCost g es = None →
  ∃ e, e ∈ es ∧ admissible tf maxCost e = true ∧
       (g !! start e = None ∨ g !! end_ e = None).
Proof.
  revert g. induction es as [|e es IH]; intros g; simpl; [done|].
  destruct (add_edge tf maxCost g e) as [g1|] eqn:H1.
  - intros (e' & He' & Ha & Hnone)%IH. exists e'. split_and!; [by right | done |].
    destruct (add_edge_lookup _ _ _ _ _ H1 (start e')) as (ls & Hls & _).
    destruct (add_edge_lookup _ _ _ _ _ H1 (end_ e')) as (le & Hle & _).
    rewrite Hls, Hle in Hnone.
    destruct (g !! start e'), (g !! end_ e'); simpl in Hnone; destruct Hnone; auto; done.
  - intros _. exists e. unfold add_edge in H1.
    destruct (admissible tf maxCost e) eqn:Ha; [|done].
    split_and!; [by left | done |].
    destruct (push (start e) _ g) as [g0|] eqn:H0.
    + right. pose proof (push_lookup _ _ _ _ (end_ e) H0) as Hl.
      unfold push in H1. destruct (g0 !! end_ e) eqn:He0; [done|].
      destruct (decide (start e = end_ e)); [|done].
      by destruct (g !! end_ e).
    + left. unfold push in H0. by destruct (g !! start e).
Qed.

Lemma build_graph_None ns es tf maxCost :
  build_graph ns es tf maxCost = None ↔
  ∃ e, e ∈ es ∧ admissible tf maxCost e = true ∧
       (start e ∉ id <$> ns ∨ end_ e ∉ id <$> ns).
Proof.
  split.
  - intros (e & He & Ha & Hnone)%add_edges_None.
    exists e. split_and!; [done | done |].
    rewrite !init_graph_lookup in Hnone.
    destruct Hnone as [Hn|Hn]; [left | right]; by case_bool_decide.
  - intros (e & He & Ha & Habs).
    destruct (build_graph ns es tf maxCost) as [g|] eqn:Hg; [|done].
    destruct (add_edges_entered _ _ _ _ _ _ Hg He Ha) as [(l1 & Hl1 & _) (l2 & Hl2 & _)].
    destruct Habs as [Habs|Habs]; destruct Habs;
      eapply build_graph_dom; eauto.
Qed.

Lemma dijkstra_throws ns es source destination tf maxCost :
  dijkstra ns es source destination tf maxCost = TypeError ↔
  build_graph ns es tf maxCost = None.
Proof.
  unfold dijkstra.
  destruct (dijkstra_cases ns es source destination tf maxCost
              (length ns) (S (length ns)))
    as [[Hg ->]|(g & s & vis & Hg & _ & _ & ->)]; [done | done |].
  rewrite Hg. split; [|done].
  pose proof (reconstruct_no_throw (previous s) (S (length ns)) destination [])
    as Hno.
  by destruct (reconstruct _ _ _ _).
Qed.

(** A self-loop is pushed twice in a row. *)
Lemma add_edges_loop_twice tf maxCost es g g' e :
  add_edges tf maxCost g es = Some g' → e ∈ es →
  start e = end_ e → admissible tf maxCost e = true →
  ∃ l1 l2, g' !! start e =
    Some (l1 ++ Neighbor (start e) (calculateEdgeCost e) e
             :: Neighbor (start e) (calculateEdgeCost e) e :: l2).
Proof.
  revert g. induction es as [|e' es IH]; intros g; simpl.
  - by intros _ ?%elem_of_nil.
  - destruct (add_edge tf maxCost g e') as [g1|] eqn:H1; [|done].
    intros H2 [<-|He]%elem_of_cons Hloop Ha; [|by apply (IH g1)].
    unfold add_edge in H1. rewrite Ha in H1.
    destruct (push (start e) _ g) as [g0|] eqn:H0; [|done].
    pose proof (push_lookup _ _ _ _ (start e) H0) as Hs0.
    pose proof (push_lookup _ _ _ _ (start e) H1) as Hs1.
    rewrite decide_True in Hs0 by done. rewrite decide_True in Hs1 by done.
    apply push_Some in H0 as (ls & Hls & _).
    rewrite Hls in Hs0. simpl in Hs0. rewrite Hs0 in Hs1. simpl in Hs1.
    destruct (add_edges_grow _ _ _ _ _ _ _ H2 Hs1) as (l' & Hg').
    exists ls, l'. rewrite Hg', <- Hloop, <- !(assoc_L (++)). done.
Qed.

(** ** The example data *)

Lemma example_well_formed : well_formed nodes edges.
Proof. repeat constructor. Qed.

Lemma example_exact_range maxCost :
  (Z.abs maxCost < 2 ^ 53)%Z → exact_range nodes edges maxCost.
Proof.
  intros Hmax. exists 100%Z. split_and!; [|done|done].
  repeat constructor; simpl; lia.
Qed.

Lemma small_exact_range ns es maxCost :
  Forall (small 100) es → length ns ≤ 100 → (Z.abs maxCost < 2 ^ 53)%Z →
  exact_range ns es maxCost.
Proof.
  intros Hes Hns Hmax. exists 100%Z. split_and!; [done | | done].
  assert (Z.of_nat (S (length ns)) ≤ 101)%Z by lia.
  assert (2 ^ 53 = 9007199254740992)%Z as -> by reflexivity. lia.
Qed.

Lemma two_nodes_exact_range es :
  Forall (small 100) es → exact_range (take 2 nodes) es 10000.
Proof.
  intros H. apply small_exact_range; [done | vm_compute; lia | by vm_compute].
Qed.

Lemma plain_dec k : bool_decide (k ∈ Object_prototype) = false → plain k.
Proof. apply bool_decide_eq_false_1. Qed.

Lemma plain_proto k : plain k → k ≠ "__proto__".
Proof. intros Hk ->. apply Hk. by apply (bool_decide_unpack _). Qed.

(** ** Properties of the cost model *)

Lemma admissible_true tf maxCost e :
  admissible tf maxCost e = true ↔ tf e = true ∧ (calculateEdgeCost e ≤ maxCost)%Z.
Proof. unfold admissible. rewrite andb_true_iff, Z.leb_le. done. Qed.

Lemma admissible_disabled maxTerrain maxCost e :
  admissible (terrainFilter false maxTerrain) maxCost e =
  (calculateEdgeCost e <=? maxCost)%Z.
Proof. done. Qed.

Lemma terrainFilter_true enabled maxTerrain e :
  terrainFilter enabled maxTerrain e = true ↔
  (enabled = true → (terrain e ≤ maxTerrain)%Z).
Proof.
  unfold terrainFilter. rewrite orb_true_iff, Z.leb_le.
  destruct enabled; simpl; split; try done; auto.
  intros [?|?]; [done | auto].
Qed.

(** *** Rounding keeps the sign *)

Lemma shr_1_nonneg mrs : (0 ≤ shr_m mrs)%Z → (0 ≤ shr_m (shr_1 mrs))%Z.
Proof. destruct mrs as [[|[p|p|]|p] r s]; simpl; lia. Qed.

Lemma iter_pos_shr_1_nonneg p mrs :
  (0 ≤ shr_m mrs)%Z → (0 ≤ shr_m (iter_pos shr_1 p mrs))%Z.
Proof.
  revert mrs. induction p as [p IH|p IH|]; intros mrs H; simpl.
  - apply IH, IH. by apply shr_1_nonneg.
  - by apply IH, IH.
  - by apply shr_1_nonneg.
Qed.

Lemma shr_fexp_nonneg m e l :
  (0 ≤ m)%Z → (0 ≤ shr_m (shr_fexp Double.prec Double.emax m e l).1)%Z.
Proof.
  intros H. unfold shr_fexp, shr.
  assert (0 ≤ shr_m (shr_record_of_loc m l))%Z as H0.
  { by destruct l as [|[]]. }
  destruct (_ - e)%Z; simpl; [done | by apply iter_pos_shr_1_nonneg | done].
Qed.

Lemma round_nearest_even_nonneg m l :
  (0 ≤ m)%Z → (0 ≤ round_nearest_even m l)%Z.
Proof. intros H. destruct l as [|[]]; simpl; try done; try case_match; lia. Qed.

Lemma binary_round_aux_sign s m e l :
  (0 ≤ m)%Z →
  Double.has_sign s (binary_round_aux Double.prec Double.emax s m e l) = true.
Proof.
  intros H. unfold binary_round_aux.
  pose proof (shr_fexp_nonneg m e l H) as H1.
  destruct (shr_fexp Double.prec Double.emax m e l) as [mrs' e'].
  simpl in H1.
  pose proof (shr_fexp_nonneg _ e' loc_Exact
                (round_nearest_even_nonneg _ (loc_of_shr_record mrs') H1)) as H2.
  destruct (shr_fexp Double.prec Double.emax _ e' loc_Exact) as [mrs'' e''].
  simpl in H2. destruct (shr_m mrs'') as [|p|p]; simpl.
  - by destruct s.
  - case_match; simpl; by destruct s.
  - lia.
Qed.

Lemma has_sign_le a :
  Double.has_sign false a = true → Double.le Double.zero a = true.
Proof. by destruct a as [[]|[]| |[] ? ?]. Qed.

(** The doubles [a] with [0 <= a]. *)
Lemma le_zero_cases a :
  Double.le Double.zero a = true →
  (∃ s, a = S754_zero s) ∨ a = S754_infinity false ∨
  ∃ m e, a = S754_finite false m e.
Proof. destruct a as [s|[]| |[] m e]; try done; eauto. Qed.

Lemma add_nonneg a b :
  Double.le Double.zero a = true → Double.le Double.zero b = true →
  Double.le Double.zero (Double.add a b) = true.
Proof.
  intros [[sa ->]|[->|(ma & ea & ->)]]%le_zero_cases
         [[sb ->]|[->|(mb & eb & ->)]]%le_zero_cases; try done.
  - by destruct sa, sb.
  - apply has_sign_le. unfold Double.add, SFadd. cbv zeta.
    simpl cond_Zopp. unfold binary_normalize.
    destruct (_ + _)%Z as [|p|p] eqn:Hs; [done | | lia].
    unfold binary_round.
    destruct (shl_align p _ _) as [mz ez].
    by apply binary_round_aux_sign.
Qed.

Lemma mul_nonneg a b :
  Double.le Double.zero a = true → Double.le Double.zero b = true →
  if Double.is_zero a && Double.is_infinity b
     || Double.is_infinity a && Double.is_zero b
  then Double.mul a b = S754_nan
  else Double.le Double.zero (Double.mul a b) = true.
Proof.
  intros [[sa ->]|[->|(ma & ea & ->)]]%le_zero_cases
         [[sb ->]|[->|(mb & eb & ->)]]%le_zero_cases; try done.
  apply has_sign_le. simpl. unfold Double.mul, SFmul.
  by apply binary_round_aux_sign.
Qed.

(** On the example data the cost on doubles is the integer cost. *)
Lemma example_costs_exact :
  Forall (λ e, Double.calculateEdgeCost (to_double e) =
               Double.of_Z (calculateEdgeCost e)) edges.
Proof. repeat constructor. Qed.

(** *** Integers as doubles *)

Local Open Scope Z_scope.

(** The number of binary digits. *)
Lemma digits_spec m :
  2 ^ (Z.pos (digits2_pos m) - 1) ≤ Z.pos m < 2 ^ Z.pos (digits2_pos m).
Proof.
  induction m as [m IH|m IH|]; simpl digits2_pos.
  - rewrite Pos2Z.inj_succ.
    replace (Z.succ (Z.pos (digits2_pos m)) - 1) with (Z.succ (Z.pos (digits2_pos m) - 1)) by lia.
    rewrite !Z.pow_succ_r by lia. lia.
  - rewrite Pos2Z.inj_succ.
    replace (Z.succ (Z.pos (digits2_pos m)) - 1) with (Z.succ (Z.pos (digits2_pos m) - 1)) by lia.
    rewrite !Z.pow_succ_r by lia. lia.
  - simpl. lia.
Qed.

Lemma digits_unique m d :
  2 ^ (d - 1) ≤ Z.pos m < 2 ^ d → Z.pos (digits2_pos m) = d.
Proof.
  intros [H1 H2]. pose proof (digits_spec m) as [H3 H4].
  assert (0 < d).
  { destruct (Z_lt_le_dec 0 d); [done|].
    assert (2 ^ d ≤ 2 ^ 0) by (apply Z.pow_le_mono_r; lia). simpl in *. lia. }
  destruct (Z_lt_le_dec (Z.pos (digits2_pos m)) d) as [Hlt|Hge].
  - assert (2 ^ Z.pos (digits2_pos m) ≤ 2 ^ (d - 1)) by (apply Z.pow_le_mono_r; lia).
    lia.
  - destruct (Z_lt_le_dec d (Z.pos (digits2_pos m))) as [Hlt|Hge']; [|lia].
    assert (2 ^ d ≤ 2 ^ (Z.pos (digits2_pos m) - 1)) by (apply Z.pow_le_mono_r; lia).
    lia.
Qed.

Lemma digits_shift m t q :
  0 ≤ t → Z.pos m = Z.pos q * 2 ^ t →
  Z.pos (digits2_pos m) = Z.pos (digits2_pos q) + t.
Proof.
  intros Ht Hm. apply digits_unique. pose proof (digits_spec q) as [H1 H2].
  rewrite Hm.
  replace (Z.pos (digits2_pos q) + t - 1) with (Z.pos (digits2_pos q) - 1 + t) by lia.
  rewrite !Z.pow_add_r by lia.
  assert (0 < 2 ^ t) by (apply Z.pow_pos_nonneg; lia). nia.
Qed.

(** Shifting out zero bits loses nothing. *)
Lemma iter_pos_eq {A} (f : A → A) n x : iter_pos f n x = Pos.iter f x n.
Proof.
  revert x. induction n as [n IH|n IH|]; intros x; simpl.
  - by rewrite !IH, !Pos.iter_swap.
  - by rewrite !IH.
  - done.
Qed.

Lemma shr_1_even M :
  0 ≤ M → M mod 2 = 0 →
  shr_1 (Build_shr_record M false false) = Build_shr_record (M / 2) false false.
Proof.
  intros HM Hmod. destruct M as [|[p|p|]|p]; try done; simpl.
  - rewrite Pos2Z.inj_xI in Hmod. exfalso.
    rewrite Z.add_comm, Z.mul_comm, Z.mod_add in Hmod by lia. done.
  - f_equal. rewrite Pos2Z.inj_xO, Z.mul_comm, Z.div_mul by lia. done.
Qed.

Lemma shr_exact n M :
  0 ≤ M → M mod 2 ^ Z.pos n = 0 →
  iter_pos shr_1 n (Build_shr_record M false false) =
  Build_shr_record (M / 2 ^ Z.pos n) false false.
Proof.
  rewrite iter_pos_eq. revert M.
  induction n as [|n IH] using Pos.peano_ind; intros M HM Hmod.
  - simpl. by apply shr_1_even.
  - rewrite Pos.iter_succ, <- Pos.iter_swap.
    rewrite Pos2Z.inj_succ, Z.pow_succ_r in * by lia.
    assert (0 < 2 ^ Z.pos n) by (apply Z.pow_pos_nonneg; lia).
    assert (M mod 2 = 0) as H2.
    { apply Z.mod_divide in Hmod; [|lia]. destruct Hmod as [k ->].
      apply Z.mod_divide; [lia|]. exists (k * 2 ^ Z.pos n). lia. }
    rewrite shr_1_even by done. rewrite IH.
    + by rewrite Z.div_div by lia.
    + apply Z.div_pos; lia.
    + apply Z.mod_divide in Hmod; [|lia]. destruct Hmod as [k ->].
      replace (k * (2 * 2 ^ Z.pos n)) with (k * 2 ^ Z.pos n * 2) by lia.
      rewrite Z.div_mul by lia. apply Z.mod_mul. lia.
Qed.

(** Rounding a mantissa whose significant part has 53 digits is exact. *)
Lemma round_exact s m e q t :
  0 ≤ t → Z.pos m = Z.pos q * 2 ^ t → Z.pos (digits2_pos q) = 53 →
  -1074 ≤ e + t ≤ 971 →
  binary_round_aux Double.prec Double.emax s (Z.pos m) e loc_Exact =
  S754_finite s q (e + t).
Proof.
  intros Ht Hm Hq He.
  pose proof (digits_shift m t q Ht Hm) as Hd. rewrite Hq in Hd.
  assert (0 < 2 ^ t) by (apply Z.pow_pos_nonneg; lia).
  unfold binary_round_aux.
  assert (shr_fexp Double.prec Double.emax (Z.pos m) e loc_Exact =
          (Build_shr_record (Z.pos q) false false, e + t)) as ->.
  { unfold shr_fexp, shr, fexp, emin, Double.prec, Double.emax. simpl Zdigits2.
    rewrite Hd. simpl shr_record_of_loc.
    replace (Z.max (53 + t + e - 53) (3 - 1024 - 53) - e) with t by lia.
    destruct t as [|t|t]; [| |lia].
    - rewrite Z.pow_0_r, Z.mul_1_r in Hm. rewrite Z.add_0_r. by injection Hm as ->.
    - rewrite shr_exact; [|lia|rewrite Hm; apply Z.mod_mul; lia].
      by rewrite Hm, Z.div_mul by lia. }
  simpl loc_of_shr_record. simpl round_nearest_even. simpl shr_m.
  assert (shr_fexp Double.prec Double.emax (Z.pos q) (e + t) loc_Exact =
          (Build_shr_record (Z.pos q) false false, e + t)) as ->.
  { unfold shr_fexp, shr, fexp, emin, Double.prec, Double.emax. simpl Zdigits2.
    rewrite Hq. simpl shr_record_of_loc.
    replace (Z.max (53 + (e + t) - 53) (3 - 1024 - 53) - (e + t)) with 0 by lia.
    done. }
  simpl shr_m. unfold Double.emax, Double.prec.
  replace (e + t <=? 1024 - 53) with true; [done|].
  symmetry. apply Z.leb_le. lia.
Qed.

Lemma digits_le a : Z.pos a < 2 ^ 53 → 1 ≤ Double.digits a ≤ 53.
Proof.
  intros Ha. unfold Double.digits. pose proof (digits_spec a) as [H1 H2].
  split; [lia|].
  destruct (Z_lt_le_dec 53 (Z.pos (digits2_pos a))) as [Hlt|]; [|done].
  assert (2 ^ 53 ≤ 2 ^ (Z.pos (digits2_pos a) - 1)) by (apply Z.pow_le_mono_r; lia).
  lia.
Qed.

Lemma mantissa_spec a :
  Z.pos a < 2 ^ 53 →
  Z.pos (Double.mantissa a) = Z.pos a * 2 ^ (53 - Double.digits a) ∧
  Z.pos (digits2_pos (Double.mantissa a)) = 53.
Proof.
  intros Ha. pose proof (digits_le a Ha) as Hd.
  assert (0 < 2 ^ (53 - Double.digits a)) by (apply Z.pow_pos_nonneg; lia).
  assert (Z.pos (Double.mantissa a) = Z.pos a * 2 ^ (53 - Double.digits a)) as Hm.
  { unfold Double.mantissa, Double.prec. rewrite Z2Pos.id; [done | nia]. }
  split; [done|].
  rewrite (digits_shift _ (53 - Double.digits a) a); [| lia | done].
  unfold Double.digits. lia.
Qed.

Lemma iter_xO a d : Z.pos (Pos.iter xO a d) = Z.pos a * 2 ^ Z.pos d.
Proof.
  induction d as [|d IH] using Pos.peano_ind.
  - simpl. lia.
  - rewrite Pos.iter_succ, Pos2Z.inj_xO, IH, Pos2Z.inj_succ, Z.pow_succ_r by lia.
    lia.
Qed.

Lemma shl_align_spec m e ez :
  ez ≤ e →
  Z.pos (shl_align m e ez).1 = Z.pos m * 2 ^ (e - ez) ∧
  (shl_align m e ez).2 = ez.
Proof.
  intros He. unfold shl_align. destruct (ez - e) as [|d|d] eqn:Hd; simpl.
  - replace (e - ez) with 0 by lia. split; lia.
  - lia.
  - rewrite iter_xO. replace (e - ez) with (Z.pos d) by lia. done.
Qed.

(** An integer below [2 ^ 53] in absolute value, scaled by a power of two,
    is normalised to its representation. *)
Lemma normalize_exact c j :
  0 ≤ j → Z.abs c < 2 ^ 53 →
  binary_normalize Double.prec Double.emax (c * 2 ^ j) (- j) false =
  Double.repr c.
Proof.
  intros Hj Hc. assert (0 < 2 ^ j) as Hpow by (apply Z.pow_pos_nonneg; lia).
  assert (∀ s a p, Z.pos a < 2 ^ 53 → Z.pos p = Z.pos a * 2 ^ j →
            binary_round Double.prec Double.emax s p (- j) = Double.finite s a)
    as Hround.
  { intros s a p Ha Hp. pose proof (digits_le a Ha) as Hd.
    destruct (mantissa_spec a Ha) as [Hm Hdm].
    pose proof (digits_shift p j a Hj Hp) as Hdp. fold (Double.digits a) in Hdp.
    unfold binary_round, fexp, emin, Double.prec, Double.emax. rewrite Hdp.
    replace (Z.max (Double.digits a + j + - j - 53) (3 - 1024 - 53))
      with (Double.digits a - 53) by lia.
    destruct (Z_lt_le_dec (Double.digits a - 53) (- j)) as [Hlt|Hge].
    - destruct (shl_align_spec p (- j) (Double.digits a - 53)) as [H1 H2]; [lia|].
      destruct (shl_align p (- j) (Double.digits a - 53)) as [mz ez].
      simpl in H1, H2. subst ez.
      rewrite (round_exact s mz _ (Double.mantissa a) 0); [| lia | | done | lia].
      + unfold Double.finite, Double.prec. by rewrite Z.add_0_r.
      + rewrite H1, Hp, Hm, Z.pow_0_r, Z.mul_1_r, <- Z.mul_assoc, <- Z.pow_add_r by lia.
        do 2 f_equal. lia.
    - assert (shl_align p (- j) (Double.digits a - 53) = (p, - j)) as ->.
      { unfold shl_align. destruct (Double.digits a - 53 - - j) eqn:Hz; [done | done | lia]. }
      rewrite (round_exact s p _ (Double.mantissa a) (Double.digits a - 53 + j));
        [| lia | | done | lia].
      + unfold Double.finite, Double.prec. f_equal. lia.
      + rewrite Hp, Hm, <- Z.mul_assoc, <- Z.pow_add_r by lia. do 2 f_equal. lia. }
  destruct c as [|a|a]; simpl.
  - done.
  - assert (Z.pos a * 2 ^ j = Z.pos (Z.to_pos (Z.pos a * 2 ^ j))) as Hp
      by (symmetry; apply Z2Pos.id; nia).
    rewrite Hp. simpl. apply Hround; [lia | lia].
  - assert (Z.pos a * 2 ^ j = Z.pos (Z.to_pos (Z.pos a * 2 ^ j))) as Hp
      by (symmetry; apply Z2Pos.id; nia).
    assert (Z.neg a * 2 ^ j = Z.neg (Z.to_pos (Z.pos a * 2 ^ j))) as Hn.
    { rewrite <- !Pos2Z.opp_pos, <- Hp. lia. }
    rewrite Hn. simpl. apply Hround; [lia | lia].
Qed.

Lemma of_Z_repr c : Z.abs c < 2 ^ 53 → Double.of_Z c = Double.repr c.
Proof.
  intros Hc. unfold Double.of_Z.
  pose proof (normalize_exact c 0 ltac:(lia) Hc) as H.
  by rewrite Z.pow_0_r, Z.mul_1_r in H.
Qed.

(** Addition. *)
Lemma finite_aligned a ez :
  Z.pos a < 2 ^ 53 → ez ≤ Double.digits a - 53 →
  Z.pos (shl_align (Double.mantissa a) (Double.digits a - 53) ez).1 =
  Z.pos a * 2 ^ (- ez).
Proof.
  intros Ha Hez. pose proof (digits_le a Ha) as Hd.
  destruct (mantissa_spec a Ha) as [Hm _].
  destruct (shl_align_spec (Double.mantissa a) (Double.digits a - 53) ez Hez)
    as [-> _].
  rewrite Hm, <- Z.mul_assoc, <- Z.pow_add_r by lia. do 2 f_equal. lia.
Qed.

Lemma add_finite s1 a s2 b :
  Z.pos a < 2 ^ 53 → Z.pos b < 2 ^ 53 →
  Z.abs (cond_Zopp s1 (Z.pos a) + cond_Zopp s2 (Z.pos b)) < 2 ^ 53 →
  Double.add (Double.finite s1 a) (Double.finite s2 b) =
  Double.repr (cond_Zopp s1 (Z.pos a) + cond_Zopp s2 (Z.pos b)).
Proof.
  intros Ha Hb Hc. pose proof (digits_le a Ha) as Hda.
  pose proof (digits_le b Hb) as Hdb.
  unfold Double.add, Double.finite, SFadd, Double.prec. cbv zeta.
  set (ez := Z.min (Double.digits a - 53) (Double.digits b - 53)).
  rewrite (finite_aligned a ez), (finite_aligned b ez) by lia.
  assert (cond_Zopp s1 (Z.pos a * 2 ^ (- ez)) + cond_Zopp s2 (Z.pos b * 2 ^ (- ez)) =
          (cond_Zopp s1 (Z.pos a) + cond_Zopp s2 (Z.pos b)) * 2 ^ (- ez)) as ->.
  { destruct s1, s2; simpl; lia. }
  pose proof (normalize_exact (cond_Zopp s1 (Z.pos a) + cond_Zopp s2 (Z.pos b))
                (- ez) ltac:(lia) Hc) as H.
  by rewrite Z.opp_involutive in H.
Qed.

Lemma add_exact z1 z2 :
  Z.abs z1 < 2 ^ 53 → Z.abs z2 < 2 ^ 53 → Z.abs (z1 + z2) < 2 ^ 53 →
  Double.add (Double.of_Z z1) (Double.of_Z z2) = Double.of_Z (z1 + z2).
Proof.
  intros H1 H2 H3. rewrite !of_Z_repr by done.
  destruct z1 as [|a|a], z2 as [|b|b]; try done.
  - apply (add_finite false a false b); [lia | lia | done].
  - apply (add_finite false a true b); [lia | lia | done].
  - apply (add_finite true a false b); [lia | lia | done].
  - apply (add_finite true a true b); [lia | lia | done].
Qed.

(** Multiplication. *)
Lemma digits_mul a b :
  Double.digits a + Double.digits b - 1 ≤ Double.digits (a * b).
Proof.
  unfold Double.digits.
  pose proof (digits_spec a) as [Ha _]. pose proof (digits_spec b) as [Hb _].
  pose proof (digits_spec (a * b)) as [_ Hab]. rewrite Pos2Z.inj_mul in Hab.
  set (da := Z.pos (digits2_pos a)) in *. set (db := Z.pos (digits2_pos b)) in *.
  set (dab := Z.pos (digits2_pos (a * b))) in *.
  assert (1 ≤ da) by (unfold da; lia). assert (1 ≤ db) by (unfold db; lia).
  assert (1 ≤ dab) by (unfold dab; lia).
  destruct (Z_lt_le_dec dab (da + db - 1)) as [Hlt|]; [|done].
  assert (2 ^ dab ≤ 2 ^ (da - 1 + (db - 1))) as Hle
    by (apply Z.pow_le_mono_r; lia).
  rewrite Z.pow_add_r in Hle by lia.
  assert (0 < 2 ^ (da - 1)) by (apply Z.pow_pos_nonneg; lia).
  assert (0 < 2 ^ (db - 1)) by (apply Z.pow_pos_nonneg; lia).
  nia.
Qed.

Lemma mul_finite s1 a s2 b :
  Z.pos a * Z.pos b < 2 ^ 53 →
  Double.mul (Double.finite s1 a) (Double.finite s2 b) =
  Double.finite (xorb s1 s2) (a * b).
Proof.
  intros Hab.
  assert (Z.pos a < 2 ^ 53) as Ha by nia.
  assert (Z.pos b < 2 ^ 53) as Hb by nia.
  assert (Z.pos (a * b) < 2 ^ 53) as Hab' by (by rewrite Pos2Z.inj_mul).
  pose proof (digits_le a Ha) as Hda. pose proof (digits_le b Hb) as Hdb.
  pose proof (digits_le (a * b) Hab') as Hdab.
  pose proof (digits_mul a b) as Hdm.
  destruct (mantissa_spec a Ha) as [Hma _].
  destruct (mantissa_spec b Hb) as [Hmb _].
  destruct (mantissa_spec (a * b) Hab') as [Hmab Hdig].
  unfold Double.mul, Double.finite, SFmul, Double.prec.
  rewrite (round_exact _ _ _ (Double.mantissa (a * b))
             (53 + Double.digits (a * b) - Double.digits a - Double.digits b));
    [| lia | | done | lia].
  - f_equal. lia.
  - rewrite Pos2Z.inj_mul, Hma, Hmb, Hmab, Pos2Z.inj_mul.
    replace (Z.pos a * 2 ^ (53 - Double.digits a) *
             (Z.pos b * 2 ^ (53 - Double.digits b)))
      with (Z.pos a * Z.pos b *
            (2 ^ (53 - Double.digits a) * 2 ^ (53 - Double.digits b))) by lia.
    rewrite <- !Z.mul_assoc, <- !Z.pow_add_r by lia. do 3 f_equal. lia.
Qed.

Lemma mul_exact z1 z2 :
  Z.abs (z1 * z2) < 2 ^ 53 → Z.abs z1 < 2 ^ 53 → Z.abs z2 < 2 ^ 53 →
  Double.same (Double.mul (Double.of_Z z1) (Double.of_Z z2))
    (Double.of_Z (z1 * z2)).
Proof.
  intros H12 H1 H2. rewrite !of_Z_repr by done.
  destruct z1 as [|a|a], z2 as [|b|b]; simpl;
    try (by right); left;
    [apply (mul_finite false a false b) | apply (mul_finite false a true b)
    |apply (mul_finite true a false b) | apply (mul_finite true a true b)];
    simpl in H12; lia.
Qed.

(** Comparison. *)
Lemma compare_finite a b :
  Z.pos a < 2 ^ 53 → Z.pos b < 2 ^ 53 →
  match Double.digits a - 53 ?= Double.digits b - 53 with
  | Lt => Lt
  | Gt => Gt
  | Eq => Pos.compare_cont Eq (Double.mantissa a) (Double.mantissa b)
  end = (Z.pos a ?= Z.pos b).
Proof.
  intros Ha Hb. pose proof (digits_le a Ha) as Hda.
  pose proof (digits_le b Hb) as Hdb.
  destruct (mantissa_spec a Ha) as [Hma _].
  destruct (mantissa_spec b Hb) as [Hmb _].
  pose proof (digits_spec a) as [Ha1 Ha2]. pose proof (digits_spec b) as [Hb1 Hb2].
  fold (Double.digits a) in Ha1, Ha2. fold (Double.digits b) in Hb1, Hb2.
  destruct (Z.compare_spec (Double.digits a - 53) (Double.digits b - 53))
    as [Heq|Hlt|Hgt].
  - change (Pos.compare_cont Eq (Double.mantissa a) (Double.mantissa b))
      with (Z.pos (Double.mantissa a) ?= Z.pos (Double.mantissa b)).
    rewrite Hma, Hmb. replace (Double.digits b) with (Double.digits a) by lia.
    assert (0 < 2 ^ (53 - Double.digits a)) by (apply Z.pow_pos_nonneg; lia).
    destruct (Z.compare_spec (Z.pos a) (Z.pos b)) as [->|?|?].
    + apply Z.compare_refl.
    + apply Z.compare_lt_iff. nia.
    + apply Z.compare_gt_iff. nia.
  - symmetry. apply Z.compare_lt_iff.
    assert (2 ^ Double.digits a ≤ 2 ^ (Double.digits b - 1))
      by (apply Z.pow_le_mono_r; lia).
    lia.
  - symmetry. apply Z.compare_gt_iff.
    assert (2 ^ Double.digits b ≤ 2 ^ (Double.digits a - 1))
      by (apply Z.pow_le_mono_r; lia).
    lia.
Qed.

Lemma compare_exact z1 z2 :
  Z.abs z1 < 2 ^ 53 → Z.abs z2 < 2 ^ 53 →
  SFcompare (Double.of_Z z1) (Double.of_Z z2) = Some (z1 ?= z2).
Proof.
  intros H1 H2. rewrite !of_Z_repr by done.
  destruct z1 as [|a|a], z2 as [|b|b]; try done; simpl; f_equal.
  - apply compare_finite; lia.
  - change (a ?= b)%positive with (Z.pos a ?= Z.pos b).
    rewrite <- (compare_finite a b) by lia.
    unfold Double.prec. by destruct (_ ?= _).
Qed.

Lemma compare_zero a x :
  Double.is_zero a = true → SFcompare a x = SFcompare Double.zero x.
Proof. by destruct a. Qed.

Lemma compare_same a b x :
  Double.same a b → SFcompare a x = SFcompare b x.
Proof.
  intros [->|[Ha Hb]]; [done|].
  by rewrite (compare_zero a), (compare_zero b).
Qed.

Lemma add_same z x y :
  Z.abs z < 2 ^ 53 → Double.same x y →
  Double.same (Double.add (Double.of_Z z) x) (Double.add (Double.of_Z z) y).
Proof.
  intros Hz [->|[Hx Hy]]; [by left|]. rewrite of_Z_repr by done.
  destruct x as [sx| | |]; try done. destruct y as [sy| | |]; try done.
  destruct z; [right | left | left]; try done.
  by destruct sx, sy.
Qed.

(** The integer model of the arithmetic of the search is the arithmetic on
    doubles, for integers below [2 ^ 53] in absolute value. *)
Lemma lt_exact z1 z2 :
  Z.abs z1 < 2 ^ 53 → Z.abs z2 < 2 ^ 53 →
  Double.lt (Double.of_Z z1) (Double.of_Z z2) = (z1 <? z2).
Proof.
  intros H1 H2. unfold Double.lt, SFltb, Z.ltb.
  rewrite compare_exact by done. by destruct (z1 ?= z2).
Qed.

Lemma le_exact z1 z2 :
  Z.abs z1 < 2 ^ 53 → Z.abs z2 < 2 ^ 53 →
  Double.le (Double.of_Z z1) (Double.of_Z z2) = (z1 <=? z2).
Proof.
  intros H1 H2. unfold Double.le, SFleb, Z.leb.
  rewrite compare_exact by done. by destruct (z1 ?= z2).
Qed.

Lemma of_Z_not_zero z x :
  Z.abs z < 2 ^ 53 → Double.same x (Double.of_Z z) → z ≠ 0 →
  x = Double.of_Z z.
Proof.
  intros Hz [->|[_ Hzero]] Hne; [done|].
  rewrite of_Z_repr in Hzero by done. by destruct z.
Qed.

Local Close Scope Z_scope.

(** C4, as the code has it. The cost of an edge is the double-precision
    product of its distance with the double-precision sum of its material
    and labor costs. When the three attributes are non-negative, so is the
    sum, and the cost is non-negative, [+Infinity] included, unless one of
    the distance and the sum is zero and the other is [Infinity]: then the
    cost is [NaN]. *)
Theorem calculateEdgeCost_spec (e : Double.edge) :
  Double.le Double.zero (Double.distance e) = true →
  Double.le Double.zero (Double.materialCost e) = true →
  Double.le Double.zero (Double.laborCost e) = true →
  Double.calculateEdgeCost e =
    Double.mul (Double.distance e)
      (Double.add (Double.materialCost e) (Double.laborCost e)) ∧
  Double.le Double.zero
    (Double.add (Double.materialCost e) (Double.laborCost e)) = true ∧
  if Double.is_zero (Double.distance e) &&
       Double.is_infinity
         (Double.add (Double.materialCost e) (Double.laborCost e))
     || Double.is_infinity (Double.distance e) &&
       Double.is_zero
         (Double.add (Double.materialCost e) (Double.laborCost e))
  then Double.calculateEdgeCost e = S754_nan
  else Double.le Double.zero (Double.calculateEdgeCost e) = true.
Proof.
  intros Hd Hm Hl. split; [done|].
  pose proof (add_nonneg _ _ Hm Hl) as Hsum. split; [done|].
  by apply mul_nonneg.
Qed.

Lemma calculateEdgeCost_spec_witness :
  Double.calculateEdgeCost (to_double eCD) =
    Double.mul (Double.of_Z 3) (Double.add (Double.of_Z 90) (Double.of_Z 50)) ∧
  Double.le Double.zero (Double.add (Double.of_Z 90) (Double.of_Z 50)) = true ∧
  Double.le Double.zero (Double.calculateEdgeCost (to_double eCD)) = true.
Proof.
  apply (calculateEdgeCost_spec (to_double eCD)); reflexivity.
Defined.

(** The cost is not non-negative for all non-negative attributes: with
    distance 0 and material and labor costs [1e308], three finite doubles,
    the sum overflows to [Infinity] and the cost is [0 * Infinity], that is
    [NaN], for which [0 <= cost] is false. *)
Lemma calculateEdgeCost_nan :
  valid_binary Double.prec Double.emax (Double.materialCost e1e308) = true ∧
  Double.le Double.zero (Double.distance e1e308) = true ∧
  Double.le Double.zero (Double.materialCost e1e308) = true ∧
  Double.le Double.zero (Double.laborCost e1e308) = true ∧
  Double.add (Double.materialCost e1e308) (Double.laborCost e1e308) =
    S754_infinity false ∧
  Double.calculateEdgeCost e1e308 = S754_nan ∧
  Double.le Double.zero (Double.calculateEdgeCost e1e308) = false.
Proof. split_and!; vm_compute; reflexivity. Qed.

(** ** Properties of the query *)

(** C1. On the six-node example, with the terrain filter disabled and
    [maxCost] at least 750, the query from A to F returns the path
    A→C→E→F with total cost 1595. *)
Theorem example_route (maxTerrain maxCost : Z) :
  (750 ≤ maxCost)%Z →
  dijkstra nodes edges "A" "F" (terrainFilter false maxTerrain) maxCost =
  Returned (Route [Some eAC; Some eCE; Some eEF] (Number (Fin 1595))).
Proof.
  intros Hmax.
  rewrite (dijkstra_ext _ _ _ _ _ _ (terrainFilter false 3) 750).
  - vm_compute. reflexivity.
  - intros e He. rewrite !admissible_disabled.
    assert (calculateEdgeCost e ≤ 750)%Z as He750.
    { unfold edges in He.
      repeat (apply elem_of_cons in He as [->|He]; [vm_compute; discriminate|]).
      by apply elem_of_nil in He. }
    rewrite (proj2 (Z.leb_le _ _)) by lia. symmetry. by apply Z.leb_le.
Qed.

Lemma example_route_witness :
  dijkstra nodes edges "A" "F" (terrainFilter false 3) 10000 =
  Returned (Route [Some eAC; Some eCE; Some eEF] (Number (Fin 1595))).
Proof. apply (example_route 3 10000). lia. Defined.

(** C2, as the code has it. For a query whose source and destination are
    not names of properties of [Object.prototype], on inputs in the range
    where double arithmetic is exact: whenever the query returns, every
    element of the path is an edge, and either the cost is finite and
    equals the sum of [calculateEdgeCost] over the edges of the path, or
    the path is empty and the cost is [Infinity] (destination not reached)
    or [undefined] (destination not a node). *)
Theorem route_cost_sum ns es source destination tf maxCost r :
  plain source → plain destination → exact_range ns es maxCost →
  dijkstra ns es source destination tf maxCost = Returned r →
  ∃ p, path r = Some <$> p ∧
    (cost r = Number (Fin (path_cost p)) ∨
     p = [] ∧ (cost r = Number Infinity ∨ cost r = Undefined)).
Proof.
  intros Hsrc Hdst _ (g & s & vis & _ & Hinv & Hrec & Hcost)%dijkstra_Returned.
  assert ((∀ c, costs s !! destination ≠ Some (Fin c)) → path r = []) as Hempty.
  { intros Hc. destruct (previous s !! destination) as [l|] eqn:Hl.
    - destruct (inv_prev Hinv _ _ Hl) as (_ & _ & Hlk).
      destruct Hlk as (_ & _ & _ & _ & cu & _ & Hd). by destruct (Hc _ Hd).
    - rewrite reconstruct_root in Hrec by done. congruence. }
  unfold read_cost in Hcost.
  destruct (costs s !! destination) as [[c|]|] eqn:Hc.
  - destruct (reconstruct_cost ns es source tf maxCost vis s _ _ _ _ c
                Hinv Hsrc Hrec Hc) as (q & Hq & Hsum).
    exists q. rewrite Hq, app_nil_r, Hcost, Hsum. auto.
  - exists []. rewrite Hempty by done. auto.
  - exists []. rewrite Hempty by done.
    rewrite bool_decide_eq_false_2 in Hcost by done. auto.
Qed.

Lemma route_cost_sum_witness :
  ∃ p, [Some eAC; Some eCE; Some eEF] = Some <$> p ∧
    (Number (Fin 1595) = Number (Fin (path_cost p)) ∨
     p = [] ∧ (Number (Fin 1595) = Number Infinity ∨
               Number (Fin 1595) = Undefined)).
Proof.
  apply (route_cost_sum nodes edges "A" "F" (terrainFilter false 3) 10000
           (Route [Some eAC; Some eCE; Some eEF] (Number (Fin 1595)))).
  - apply plain_dec. reflexivity.
  - apply plain_dec. reflexivity.
  - apply example_exact_range. simpl. lia.
  - vm_compute. reflexivity.
Defined.

(** The sum fails for a destination that is not reached: on the example
    with [maxCost = 400] the path from A to F is empty, so its edges total
    0, and the returned cost is [Infinity]. *)
Lemma route_cost_sum_unreachable :
  dijkstra nodes edges "A" "F" (terrainFilter false 3) 400 =
    Returned (Route [] (Number Infinity)) ∧
  Number Infinity ≠ Number (Fin (path_cost [])).
Proof. split; [vm_compute; reflexivity | discriminate]. Qed.









(** C7, as the code has it. On the six-node example with [maxCost = 400]
    and the terrain filter disabled, the only admissible edge is C–E (320):
    A–B (550) and C–D (420) cost more than 400 and are excluded like the
    other four. A and F have no neighbour, and the query from A to F
    returns the unreachable result. *)
Theorem example_maxCost_400 (maxTerrain : Z) :
  List.filter (admissible (terrainFilter false maxTerrain) 400) edges = [eCE] ∧
  (∃ g, build_graph nodes edges (terrainFilter false maxTerrain) 400 = Some g ∧
        g !! "A" = Some [] ∧ g !! "B" = Some [] ∧
        g !! "C" = Some [Neighbor "E" 320 eCE] ∧ g !! "D" = Some [] ∧
        g !! "E" = Some [Neighbor "C" 320 eCE] ∧ g !! "F" = Some []) ∧
  dijkstra nodes edges "A" "F" (terrainFilter false maxTerrain) 400 =
    Returned (Route [] (Number Infinity)).
Proof.
  split_and!.
  - reflexivity.
  - unfold build_graph.
    rewrite (add_edges_ext _ _ (terrainFilter false 3) 400) by done.
    eexists. split; [reflexivity|]. split_and!; vm_compute; reflexivity.
  - rewrite (dijkstra_ext _ _ _ _ _ _ (terrainFilter false 3) 400) by done.
    vm_compute. reflexivity.
Qed.

(** The admissible set under [maxCost = 400] is not {A–B, C–D, C–E}:
    A–B and C–D fail the cost clause. *)
Lemma example_maxCost_400_excludes_AB_CD :
  calculateEdgeCost eAB = 550%Z ∧ calculateEdgeCost eCD = 420%Z ∧
  admissible (terrainFilter false 3) 400 eAB = false ∧
  admissible (terrainFilter false 3) 400 eCD = false ∧
  List.filter (admissible (terrainFilter false 3) 400) edges ≠ [eAB; eCD; eCE].
Proof. split_and!; [reflexivity .. | discriminate]. Qed.

Lemma relax_self unv c cp nb :
  nb_node nb = c → relax (Set_delete unv c) c cp nb = cp.
Proof.
  intros Hnb. unfold relax, Set_has. rewrite bool_decide_eq_false_2; [done|].
  rewrite elem_of_Set_delete. tauto.
Qed.

(** The main loop ends within its budget. *)
Lemma search_total ns es source destination tf maxCost g :
  build_graph ns es tf maxCost = Some g →
  ∃ s, search (length ns) g destination (init_state ns source) = Returned s.
Proof.
  intros Hg.
  destruct (search_inv ns es source tf maxCost g Hg destination (length ns)
              [] (init_state ns source)) as (s & vis & Hs & _).
  { apply inv_init. }
  { apply init_state_length. }
  eauto.
Qed.

(** C8, as the code has it. On inputs in the range where double arithmetic
    is exact, a self-loop that passes the filter is entered in the
    adjacency structure: it is pushed twice, as two consecutive entries, onto
    the array of its node. The relaxation step skips these entries, because
    the node has just been deleted from [unvisited]: no edge of a returned
    path is a self-loop, removing the self-loops from the edge list leaves
    the outcome of every query that does not throw unchanged, and the main
    loop ends within [length nodes] iterations. *)
Theorem self_loops_inert ns es source destination tf maxCost :
  exact_range ns es maxCost →
  (∀ g e, build_graph ns es tf maxCost = Some g → e ∈ es →
     start e = end_ e → admissible tf maxCost e = true →
     ∃ l1 l2, g !! start e =
       Some (l1 ++ Neighbor (start e) (calculateEdgeCost e) e
                :: Neighbor (start e) (calculateEdgeCost e) e :: l2)) ∧
  (∀ unv c cp nb, nb_node nb = c → relax (Set_delete unv c) c cp nb = cp) ∧
  (∀ r e, dijkstra ns es source destination tf maxCost = Returned r →
     Some e ∈ path r → start e ≠ end_ e) ∧
  (dijkstra ns es source destination tf maxCost ≠ TypeError →
   dijkstra ns (without_loops es) source destination tf maxCost =
   dijkstra ns es source destination tf maxCost) ∧
  (∀ g, build_graph ns es tf maxCost = Some g →
     ∃ s, search (length ns) g destination (init_state ns source) = Returned s).
Proof.
  intros _. split_and!.
  - intros g e Hg He Hloop Ha. by apply (add_edges_loop_twice _ _ _ _ _ _ Hg).
  - apply relax_self.
  - intros r e Hr He.
    destruct (path_edge_link _ _ _ _ _ _ _ _ Hr He) as (s & v & l & Hlk & <-).
    destruct Hlk as (Hne & _ & _ & [[Hs Hd]|[Hs Hd]] & _); congruence.
  - apply dijkstra_without_loops.
  - intros g Hg. by apply (search_total _ es _ _ tf maxCost).
Qed.

Lemma self_loops_inert_witness :
  dijkstra (take 2 nodes) (without_loops [eAA; eAB]) "A" "B"
    (terrainFilter false 3) 10000 =
  dijkstra (take 2 nodes) [eAA; eAB] "A" "B" (terrainFilter false 3) 10000.
Proof.
  apply (proj1 (proj2 (proj2 (proj2
    (self_loops_inert (take 2 nodes) [eAA; eAB] "A" "B"
       (terrainFilter false 3) 10000
       (two_nodes_exact_range [eAA; eAB]
          ltac:(repeat constructor; simpl; lia))))))).
  vm_compute. discriminate.
Defined.

(** Self-loops are not ignored by the adjacency construction: the loop
    A–A is pushed twice onto the adjacency array of A. *)
Lemma self_loop_entered :
  start eAA = end_ eAA ∧
  (build_graph (take 2 nodes) [eAA; eAB] (terrainFilter false 3) 10000
     ≫= λ g, g !! "A") =
  Some [Neighbor "A" 14 eAA; Neighbor "A" 14 eAA; Neighbor "B" 550 eAB].
Proof. split; vm_compute; reflexivity. Qed.

(** C9, as the code has it. Nothing validates the edge attributes. On
    inputs in the range where double arithmetic is exact, whatever the signs
    of the attributes, every edge that passes the filter is entered in the
    adjacency arrays of both its endpoints with the cost
    [distance × (materialCost + laborCost)], neither rejected nor clamped;
    the query throws exactly when an edge that passes the filter names a
    node that is not listed; and on a graph whose edges refer to listed
    nodes, between end points that are not names of properties of
    [Object.prototype], it returns a result. *)
Theorem no_validation ns es source destination tf maxCost :
  exact_range ns es maxCost →
  (∀ g e, build_graph ns es tf maxCost = Some g → e ∈ es →
     admissible tf maxCost e = true →
     (∃ l, g !! start e = Some l ∧
        Neighbor (end_ e)
          (distance e * (materialCost e + laborCost e))%Z e ∈ l) ∧
     (∃ l, g !! end_ e = Some l ∧
        Neighbor (start e)
          (distance e * (materialCost e + laborCost e))%Z e ∈ l)) ∧
  (dijkstra ns es source destination tf maxCost = TypeError ↔
   ∃ e, e ∈ es ∧ admissible tf maxCost e = true ∧
        (start e ∉ id <$> ns ∨ end_ e ∉ id <$> ns)) ∧
  (well_formed ns es → plain source → plain destination →
   ∃ r, dijkstra ns es source destination tf maxCost = Returned r).
Proof.
  intros _. split_and!.
  - intros g e Hg He Ha. apply (add_edges_entered _ _ _ _ _ _ Hg He Ha).
  - by rewrite dijkstra_throws, build_graph_None.
  - apply dijkstra_well_formed.
Qed.

Lemma no_validation_witness :
  ∃ r, dijkstra (take 2 nodes) [eNeg] "A" "B" (terrainFilter false 3) 10000 =
       Returned r.
Proof.
  apply (proj2 (proj2
    (no_validation (take 2 nodes) [eNeg] "A" "B" (terrainFilter false 3) 10000
       (two_nodes_exact_range [eNeg]
          ltac:(repeat constructor; simpl; lia))))).
  - repeat constructor.
  - apply plain_dec. reflexivity.
  - apply plain_dec. reflexivity.
Defined.

(** An edge with a negative distance is neither rejected nor clamped: the
    query returns it as the path from A to B, with the negative cost -550. *)
Lemma negative_edge_accepted :
  (distance eNeg < 0)%Z ∧
  calculateEdgeCost eNeg = (-550)%Z ∧
  dijkstra (take 2 nodes) [eNeg] "A" "B" (terrainFilter false 3) 10000 =
    Returned (Route [Some eNeg] (Number (Fin (-550)))).
Proof. split_and!; vm_compute; reflexivity. Qed.






(** * Further properties of the search *)

(** ** Selection *)

(** The selection loop returns the first node, in insertion order, whose
    cost is least among the unvisited nodes, and nothing exactly when no
    unvisited node has a finite cost. *)
Lemma pick_fold_first cs unv :
  let res := foldl (pick cs) (None, Infinity) unv in
  (res.1 = None ∧ res.2 = Infinity ∧
   ∀ v z, v ∈ unv → cs !! v ≠ Some (Fin z)) ∨
  (∃ c z l1 l2, res = (Some c, Fin z) ∧ unv = l1 ++ c :: l2 ∧
     cs !! c = Some (Fin z) ∧
     (∀ v cv, v ∈ l1 → cs !! v = Some cv → num_lt (Fin z) cv = true) ∧
     (∀ v cv, v ∈ l2 → cs !! v = Some cv → num_lt cv (Fin z) = false)).
Proof.
  induction unv as [|a unv IH] using rev_ind; simpl.
  - left. split_and!; [done | done |]. by intros v z ?%elem_of_nil.
  - rewrite foldl_app. cbn [foldl]. simpl in IH.
    destruct IH as [(H1 & H2 & Hnone)|(c & z & l1 & l2 & Hres & -> & Hc & Hl1 & Hl2)].
    + destruct (foldl (pick cs) (None, Infinity) unv) as [cur m]. simpl in *.
      subst cur m. unfold pick. simpl.
      destruct (cs !! a) as [[za|]|] eqn:Ha; simpl.
      * right. exists a, za, unv, []. split_and!; [done | done | done | |].
        -- intros v cv Hv Hcv. destruct cv as [zv|]; [|done].
           by destruct (Hnone v zv Hv).
        -- by intros v cv ?%elem_of_nil.
      * left. split_and!; [done | done |].
        intros v z [Hv| ->%list_elem_of_singleton]%elem_of_app; [by apply Hnone|].
        by rewrite Ha.
      * left. split_and!; [done | done |].
        intros v z [Hv| ->%list_elem_of_singleton]%elem_of_app; [by apply Hnone|].
        by rewrite Ha.
    + rewrite Hres. unfold pick. simpl. right.
      destruct (cs !! a) as [ca|] eqn:Ha.
      * destruct (num_lt ca (Fin z)) eqn:Hlt.
        -- destruct ca as [za|]; [|done]. simpl in Hlt. apply Z.ltb_lt in Hlt.
           exists a, za, (l1 ++ c :: l2), []. split_and!; [done | done | done | |].
           ++ intros v cv [Hv|[->|Hv]%elem_of_cons]%elem_of_app Hcv.
              ** specialize (Hl1 v cv Hv Hcv). destruct cv as [zv|]; [|done].
                 simpl in *. apply Z.ltb_lt in Hl1. apply Z.ltb_lt. lia.
              ** rewrite Hc in Hcv. injection Hcv as <-. simpl.
                 by apply Z.ltb_lt.
              ** specialize (Hl2 v cv Hv Hcv). destruct cv as [zv|]; [|done].
                 simpl in *. apply Z.ltb_ge in Hl2. apply Z.ltb_lt. lia.
           ++ by intros v cv ?%elem_of_nil.
        -- exists c, z, l1, (l2 ++ [a]). split_and!; [done | | done | done |].
           ++ by rewrite <- (assoc_L (++)).
           ++ intros v cv [Hv| ->%list_elem_of_singleton]%elem_of_app Hcv;
                [by apply (Hl2 v)|]. congruence.
      * exists c, z, l1, (l2 ++ [a]). split_and!; [done | | done | done |].
        -- by rewrite <- (assoc_L (++)).
        -- intros v cv [Hv| ->%list_elem_of_singleton]%elem_of_app Hcv;
             [by apply (Hl2 v)|]. congruence.
Qed.

(** X1. The node selected by an iteration is the first one, in the
    insertion order of [unvisited], whose tentative cost is finite and least:
    every node before it costs strictly more, none after it costs less; no
    node is selected exactly when no unvisited node has a finite cost. *)
Theorem select_min_first cs unv :
  match select_min cs unv with
  | Some c =>
      ∃ z l1 l2, unv = l1 ++ c :: l2 ∧ cs !! c = Some (Fin z) ∧
        (∀ v cv, v ∈ l1 → cs !! v = Some cv → num_lt (Fin z) cv = true) ∧
        (∀ v cv, v ∈ l2 → cs !! v = Some cv → num_lt cv (Fin z) = false)
  | None => ∀ v z, v ∈ unv → cs !! v ≠ Some (Fin z)
  end.
Proof.
  unfold select_min.
  destruct (pick_fold_first cs unv)
    as [(-> & _ & Hnone)|(c & z & l1 & l2 & -> & Hunv & Hc & Hl1 & Hl2)]; simpl.
  - done.
  - by exists z, l1, l2.
Qed.

Lemma select_min_least cs unv c :
  select_min cs unv = Some c →
  ∃ z, cs !! c = Some (Fin z) ∧ c ∈ unv ∧
    ∀ v cv, v ∈ unv → cs !! v = Some cv → num_lt cv (Fin z) = false.
Proof.
  unfold select_min.
  destruct (pick_fold_first cs unv)
    as [(-> & _ & _)|(c' & z & l1 & l2 & -> & -> & Hc & Hl1 & Hl2)]; simpl; [done|].
  intros [= <-]. exists z. split_and!; [done | |].
  - rewrite elem_of_app, elem_of_cons. auto.
  - intros v cv [Hv|[->|Hv]%elem_of_cons]%elem_of_app Hcv.
    + specialize (Hl1 v cv Hv Hcv). destruct cv as [zv|]; [|done]. simpl in *.
      apply Z.ltb_lt in Hl1. apply Z.ltb_ge. lia.
    + rewrite Hc in Hcv. injection Hcv as <-. simpl. apply Z.ltb_irrefl.
    + by apply (Hl2 v).
Qed.

Lemma select_min_None cs unv v z :
  select_min cs unv = None → v ∈ unv → cs !! v ≠ Some (Fin z).
Proof.
  unfold select_min.
  destruct (pick_fold_first cs unv)
    as [(_ & _ & Hnone)|(c' & z' & l1 & l2 & -> & _)]; simpl; [|done].
  intros _. apply Hnone.
Qed.

(** ** When a query throws *)


(** ** Routes as walks *)

Lemma path_cost_from a p :
  foldl (λ acc e, (acc + calculateEdgeCost e)%Z) a p = (a + path_cost p)%Z.
Proof.
  unfold path_cost. revert a. induction p as [|e p IH]; intros a; simpl; [lia|].
  rewrite IH, (IH (0 + _)%Z). lia.
Qed.

Lemma path_cost_cons e p :
  path_cost (e :: p) = (calculateEdgeCost e + path_cost p)%Z.
Proof. unfold path_cost at 1. simpl. by rewrite path_cost_from. Qed.

Lemma path_cost_app p q : path_cost (p ++ q) = (path_cost p + path_cost q)%Z.
Proof.
  induction p as [|e p IH]; simpl; [done|]. rewrite !path_cost_cons, IH. lia.
Qed.

Lemma follow_app p q u : follow (p ++ q) u = follow p u ≫= follow q.
Proof.
  revert u. induction p as [|e p IH]; intros u; simpl; [done|].
  destruct (touches e u); [apply IH | done].
Qed.

Lemma visits_app p q u w :
  follow p u = Some w → visits (p ++ q) u = visits p u ++ visits q w.
Proof.
  revert u. induction p as [|e p IH]; intros u; simpl.
  - by intros [= ->].
  - destruct (touches e u); [|done]. intros H. by rewrite (IH _ H).
Qed.

(** One link, walked forwards. *)
Lemma follow_link es tf maxCost cs v l :
  link_ok es tf maxCost cs v l →
  follow [via l] (from l) = Some v ∧ visits [via l] (from l) = [v].
Proof.
  intros (Hne & _ & _ & Hends & _). simpl. unfold touches, other_end.
  destruct Hends as [[Hs He]|[He Hs]].
  - rewrite !bool_decide_eq_true_2 by done. simpl. by rewrite He.
  - rewrite (bool_decide_eq_false_2 (start (via l) = from l)) by congruence.
    rewrite bool_decide_eq_true_2 by done. simpl. by rewrite Hs.
Qed.

(** The path rebuilt from a settled node: a walk from the source along
    usable edges, through distinct settled nodes, whose edges total the
    cost recorded for the node. *)
Lemma chain_simple ns es source tf maxCost vis s w :
  inv ns es source tf maxCost vis s → plain source →
  ordered (previous s) w → NoDup w →
  ∀ v n acc p c, v ∈ w →
    reconstruct n (previous s) acc v = Returned p →
    costs s !! v = Some (Fin c) →
    ∃ q, p = (Some <$> q) ++ acc ∧ follow q source = Some v ∧
         path_cost q = c ∧
         Forall (λ e, e ∈ es ∧ admissible tf maxCost e = true) q ∧
         NoDup (source :: visits q source) ∧
         ∀ x, x ∈ source :: visits q source → x ∈ w.
Proof.
  intros Hinv Hsrc.
  induction w as [|a w IH]; [by intros _ _ v n acc p c ?%elem_of_nil|].
  simpl. intros [Ha Hord] [Haw Hnd]%NoDup_cons v n acc p c Hv Hrec Hc.
  apply elem_of_cons in Hv as [->|Hv].
  - destruct (previous s !! a) as [l|] eqn:Hl.
    + rewrite (reconstruct_link _ _ _ _ l Hl) in Hrec.
      destruct n as [|n]; [done|].
      destruct (inv_prev Hinv a l Hl) as (_ & _ & Hlk).
      pose proof (follow_link _ _ _ _ _ _ Hlk) as [Hf Hvis].
      pose proof Hlk as (_ & Hes & Hadm & _ & cu & Hcu & Hca).
      destruct (IH Hord Hnd (from l) n (Some (via l) :: acc) p cu
                  (Ha l eq_refl) Hrec Hcu)
        as (q & -> & Hq & Hsum & Hall & Hnodup & Hin).
      exists (q ++ [via l]). split_and!.
      * by rewrite fmap_app, <- (assoc_L (++)).
      * by rewrite follow_app, Hq.
      * rewrite path_cost_app, path_cost_cons, Hsum. unfold path_cost. simpl.
        rewrite Hc in Hca. injection Hca as ->. lia.
      * apply Forall_app. split; [done|]. by repeat constructor.
      * rewrite (visits_app _ _ _ _ Hq), Hvis, app_comm_cons.
        apply NoDup_app. split_and!; [done| |apply NoDup_singleton].
        intros x Hx ->%list_elem_of_singleton. by apply Haw, Hin.
      * rewrite (visits_app _ _ _ _ Hq), Hvis, app_comm_cons.
        intros x [Hx| ->%list_elem_of_singleton]%elem_of_app;
          [right; by apply Hin | by left].
    + destruct (inv_finite Hinv a c Hc) as [[-> ->]|[? ?]]; [|congruence].
      rewrite reconstruct_root in Hrec by done. injection Hrec as <-.
      exists []. split_and!; [done | done | done | done | |].
      * apply NoDup_singleton.
      * intros x ->%list_elem_of_singleton. by left.
  - destruct (IH Hord Hnd v n acc p c Hv Hrec Hc)
      as (q & -> & Hq & Hsum & Hall & Hnodup & Hin).
    exists q. split_and!; try done. intros x Hx. right. by apply Hin.
Qed.

(** The facts about a returned route with a finite cost. *)
Lemma dijkstra_finite_route ns es source destination tf maxCost r c :
  plain source →
  dijkstra ns es source destination tf maxCost = Returned r →
  cost r = Number (Fin c) →
  ∃ p, path r = Some <$> p ∧
    usable_route tf maxCost es p source destination ∧
    path_cost p = c ∧
    NoDup (source :: visits p source).
Proof.
  intros Hsrc (g & s & vis & _ & Hinv & Hrec & Hcost)%dijkstra_Returned Hc.
  rewrite Hcost in Hc. unfold read_cost in Hc.
  destruct (costs s !! destination) as [c'|] eqn:Hcd;
    [|by case_bool_decide].
  injection Hc as ->. unfold usable_route.
  destruct (decide (destination ∈ vis)) as [Hd|Hd].
  { destruct (chain_simple _ _ _ _ _ _ _ vis Hinv Hsrc (inv_ordered Hinv)
                (inv_nodup Hinv) _ _ _ _ _ Hd Hrec Hcd)
      as (q & Hq & Hf & Hsum & Hall & Hnodup & _).
    rewrite app_nil_r in Hq. by exists q. }
  destruct (previous s !! destination) as [l|] eqn:Hl.
  - rewrite (reconstruct_link _ _ _ _ l Hl) in Hrec.
    destruct (inv_prev Hinv _ l Hl) as (_ & Hfrom & Hlk).
    pose proof (follow_link _ _ _ _ _ _ Hlk) as [Hf Hvis].
    pose proof Hlk as (_ & Hes & Hadm & _ & cu & Hcu & Hcd').
    destruct (chain_simple _ _ _ _ _ _ _ vis Hinv Hsrc (inv_ordered Hinv)
                (inv_nodup Hinv) _ _ _ _ _ Hfrom Hrec Hcu)
      as (q & Hq & Hfq & Hsum & Hall & Hnodup & Hin).
    exists (q ++ [via l]). rewrite Hq, fmap_app. split_and!.
    + done.
    + apply Forall_app. split; [done|]. by repeat constructor.
    + by rewrite follow_app, Hfq.
    + rewrite path_cost_app, path_cost_cons, Hsum. unfold path_cost. simpl.
      rewrite Hcd in Hcd'. injection Hcd' as ->. lia.
    + rewrite (visits_app _ _ _ _ Hfq), Hvis, app_comm_cons.
      apply NoDup_app. split_and!; [done| |apply NoDup_singleton].
      intros x Hx ->%list_elem_of_singleton. by apply Hd, Hin.
  - destruct (inv_finite Hinv _ c Hcd) as [[-> ->]|[? ?]]; [|congruence].
    rewrite reconstruct_root in Hrec by done. injection Hrec as Hp.
    exists []. split_and!; [done | done | done | done | apply NoDup_singleton].
Qed.

Lemma follow_last p u v : follow p u = Some v → p ≠ [] → v ∈ visits p u.
Proof.
  revert u. induction p as [|e p IH]; intros u; simpl; [done|].
  destruct (touches e u); [|done]. intros Hf _.
  destruct p as [|e' p]; [simpl in Hf; injection Hf as <-; by left|].
  right. by apply IH.
Qed.

Lemma nonempty_path_finite ns es source destination tf maxCost r :
  plain destination →
  dijkstra ns es source destination tf maxCost = Returned r →
  path r ≠ [] → ∃ c, cost r = Number (Fin c).
Proof.
  intros Hdst (g & s & vis & _ & Hinv & Hrec & ->)%dijkstra_Returned Hp.
  destruct (previous s !! destination) as [l|] eqn:Hl.
  - destruct (inv_prev Hinv _ l Hl) as (_ & _ & Hlk).
    destruct Hlk as (_ & _ & _ & _ & cu & _ & Hd).
    unfold read_cost. rewrite Hd. eauto.
  - rewrite reconstruct_root in Hrec by done. congruence.
Qed.

(** X3. Between end points that are not names of properties of
    [Object.prototype], on inputs in the range where double arithmetic is
    exact, a returned path that is not empty, or whose cost is finite, leads
    from the source to the destination: its elements are edges of the input
    that pass the filter, and each one continues from the node the previous
    one reached, in one direction or the other. *)
Theorem route_is_walk ns es source destination tf maxCost r :
  plain source → plain destination → exact_range ns es maxCost →
  dijkstra ns es source destination tf maxCost = Returned r →
  path r ≠ [] ∨ (∃ c, cost r = Number (Fin c)) →
  ∃ p, path r = Some <$> p ∧
    Forall (λ e, e ∈ es ∧ admissible tf maxCost e = true) p ∧
    follow p source = Some destination.
Proof.
  intros Hsrc Hdst _ Hr Hfin.
  assert (∃ c, cost r = Number (Fin c)) as [c Hc].
  { destruct Hfin as [Hp|?]; [|done]. by eapply nonempty_path_finite. }
  destruct (dijkstra_finite_route _ _ _ _ _ _ _ _ Hsrc Hr Hc)
    as (p & Hp & [? ?] & _).
  by exists p.
Qed.

Lemma route_is_walk_witness :
  ∃ p, [Some eAC; Some eCE; Some eEF] = Some <$> p ∧
    Forall (λ e, e ∈ edges ∧ admissible (terrainFilter true 2) 700 e = true) p ∧
    follow p "A" = Some "F".
Proof.
  apply (route_is_walk nodes edges "A" "F" (terrainFilter true 2) 700
           (Route [Some eAC; Some eCE; Some eEF] (Number (Fin 1595)))).
  - apply plain_dec. reflexivity.
  - apply plain_dec. reflexivity.
  - apply example_exact_range. by vm_compute.
  - vm_compute. reflexivity.
  - left. discriminate.
Defined.

Lemma simple_route ns es source destination tf maxCost r :
  plain source → plain destination →
  dijkstra ns es source destination tf maxCost = Returned r →
  ∃ p, path r = Some <$> p ∧
    NoDup (source :: visits p source) ∧
    (p ≠ [] → source ≠ destination).
Proof.
  intros Hsrc Hdst Hr. destruct (decide (path r = [])) as [Hp|Hp].
  { exists []. rewrite Hp. split_and!; [done | apply NoDup_singleton | done]. }
  destruct (nonempty_path_finite _ _ _ _ _ _ _ Hdst Hr Hp) as [c Hc].
  destruct (dijkstra_finite_route _ _ _ _ _ _ _ _ Hsrc Hr Hc)
    as (p & Hpath & [_ Hf] & _ & Hnd).
  exists p. split_and!; [done | done |]. intros Hne ->.
  apply NoDup_cons in Hnd as [Hnd _]. apply Hnd. by apply follow_last.
Qed.

(** X4. Between end points that are not names of properties of
    [Object.prototype], a returned path never passes through a node twice:
    its elements are edges, the source and the nodes reached after each edge
    are pairwise distinct, and a path that is not empty has different end
    points. *)
Theorem route_is_simple ns es source destination tf maxCost r :
  plain source → plain destination →
  dijkstra ns es source destination tf maxCost = Returned r →
  ∃ p, path r = Some <$> p ∧
    NoDup (source :: visits p source) ∧
    (p ≠ [] → source ≠ destination).
Proof. apply simple_route. Qed.

Lemma route_is_simple_witness :
  ∃ p, [Some eAC; Some eCE; Some eEF] = Some <$> p ∧
    NoDup ("A" :: visits p "A") ∧ (p ≠ [] → "A" ≠ "F").
Proof.
  apply (route_is_simple nodes edges "A" "F" (terrainFilter false 3) 10000
           (Route [Some eAC; Some eCE; Some eEF] (Number (Fin 1595)))).
  - apply plain_dec. reflexivity.
  - apply plain_dec. reflexivity.
  - vm_compute. reflexivity.
Defined.

(** ** Least cost *)

Section Optimal.
Context (ns : list node) (source : string).

Lemma relaxed_init g :
  "__proto__" ∉ id <$> ns → source ≠ "__proto__" →
  relaxed ns source g (init_state ns source).
Proof.
  intros Hproto Hsrc.
  assert (∀ u, ¬ settled ns (init_state ns source) u) as Hnone.
  { intros u [Hu1 Hu2]. apply Hu2. simpl. by apply (Set_new_spec (id <$> ns)). }
  split.
  - intros n. simpl. by rewrite (proj1 (Set_new_spec _)).
  - intros n Hn. simpl. rewrite init_costs_lookup.
    rewrite bool_decide_eq_false_2 by (by intros ->).
    case_decide; [done|]. by rewrite bool_decide_eq_true_2.
  - exists 0%Z. simpl. rewrite init_costs_lookup.
    rewrite bool_decide_eq_false_2, decide_True by done. done.
  - intros u Hu. by destruct (Hnone u).
  - intros u l nb cu Hu. by destruct (Hnone u).
  - intros u v cu cv Hu. by destruct (Hnone u).
Qed.

Lemma relaxed_visit g s c z :
  relaxed ns source g s → c ∈ unvisited s → costs s !! c = Some (Fin z) →
  (∀ v cv, v ∈ unvisited s → costs s !! v = Some cv → num_lt cv (Fin z) = false) →
  relaxed ns source (<[c := []]> g)
    (State (costs s) (previous s) (Set_delete (unvisited s) c)) ∧
  (∀ u cu, u ∈ id <$> ns → u ∉ Set_delete (unvisited s) c →
     costs s !! u = Some (Fin cu) → (cu ≤ z)%Z).
Proof.
  intros [Hunv Hcosts Hsrc Hset Hedges Hord] Hc Hz Hleast.
  assert (∀ u, u ∈ id <$> ns → u ∉ Set_delete (unvisited s) c →
               u = c ∨ settled ns s u) as Hcase.
  { intros u Hu1 Hu2. rewrite elem_of_Set_delete in Hu2.
    destruct (decide (u = c)); [by left|]. right. split; [done|tauto]. }
  split.
  - split; unfold settled; simpl.
    + intros n [Hn _]%elem_of_Set_delete. by apply Hunv.
    + done.
    + done.
    + intros u [Hu1 Hu2]. destruct (Hcase u Hu1 Hu2) as [->|Hu]; [eauto|].
      by apply Hset.
    + intros u l nb cu [Hu1 Hu2] Hl Hnb Hcu.
      destruct (decide (c = u)) as [<-|Hne].
      * rewrite lookup_insert_eq in Hl. injection Hl as <-.
        by apply elem_of_nil in Hnb.
      * rewrite lookup_insert_ne in Hl by done.
        destruct (Hcase u Hu1 Hu2) as [->|Hu]; [done|].
        by apply (Hedges u l).
    + intros u v cu cv [Hu1 Hu2] [Hv _]%elem_of_Set_delete Hcu Hcv.
      destruct (Hcase u Hu1 Hu2) as [->|Hu].
      * rewrite Hz in Hcu. injection Hcu as <-. by apply (Hleast v).
      * by apply (Hord u v).
  - intros u cu Hu1 Hu2 Hcu. destruct (Hcase u Hu1 Hu2) as [->|Hu].
    + rewrite Hz in Hcu. injection Hcu as <-. lia.
    + specialize (Hord u c cu (Fin z) Hu Hc Hcu Hz). num_solve.
Qed.

Lemma relaxed_relax g unv c z done nb cp :
  relaxed ns source (<[c := done]> g) (State cp.1 cp.2 unv) →
  c ∈ id <$> ns → c ∉ unv → cp.1 !! c = Some (Fin z) →
  (∀ u cu, u ∈ id <$> ns → u ∉ unv → cp.1 !! u = Some (Fin cu) → (cu ≤ z)%Z) →
  nb_node nb ∈ id <$> ns → (0 ≤ nb_cost nb)%Z →
  relaxed ns source (<[c := done ++ [nb]]> g)
    (State (relax unv c cp nb).1 (relax unv c cp nb).2 unv) ∧
  (relax unv c cp nb).1 !! c = Some (Fin z) ∧
  (∀ u cu, u ∈ id <$> ns → u ∉ unv →
     (relax unv c cp nb).1 !! u = Some (Fin cu) → (cu ≤ z)%Z).
Proof.
  intros Hrel Hc Hcu Hz Hmax Hv Hw.
  destruct Hrel as [Hunv Hcosts Hsrc Hset Hedges Hord].
  unfold settled in *. simpl in *.
  assert ((∃ cv, cp.1 !! nb_node nb = Some cv ∧
                 num_lt (Fin (z + nb_cost nb)) cv = false) →
          relaxed ns source (<[c := done ++ [nb]]> g) (State cp.1 cp.2 unv))
    as Hsame.
  { intros Hnb. split; unfold settled; simpl; try done.
    intros u l nb' cu Hu Hl Hnb' Hcu'.
    destruct (decide (c = u)) as [<-|Hne].
    - rewrite lookup_insert_eq in Hl. injection Hl as <-.
      apply elem_of_app in Hnb' as [Hnb'| ->%list_elem_of_singleton].
      + apply (Hedges c done nb' cu); [done | by rewrite lookup_insert_eq | done | done].
      + rewrite Hz in Hcu'. injection Hcu' as <-. done.
    - rewrite lookup_insert_ne in Hl by done.
      apply (Hedges u l nb' cu); [done | by rewrite lookup_insert_ne | done | done]. }
  unfold relax, Set_has. case_bool_decide as Hin; cycle 1.
  { split_and!; [|done|done]. apply Hsame.
    destruct (Hset (nb_node nb)) as [cv Hcv]; [done|].
    exists (Fin cv). split; [done|].
    specialize (Hmax _ _ Hv Hin Hcv). num_solve. }
  simpl. rewrite Hz. destruct (Hcosts _ Hv) as [cn Hcn]. rewrite Hcn.
  cbn [num_add].
  destruct (num_lt (Fin (z + nb_cost nb)) cn) eqn:Hlt; cycle 1.
  { split_and!; [|done|done]. apply Hsame. eauto. }
  simpl.
  assert (∀ u, u ∉ unv → nb_node nb ≠ u) as Hneq by (by intros u ? <-).
  assert (∀ k a cv, cp.1 !! k = Some cv → num_lt (Fin a) cv = false →
            ∃ cv', <[nb_node nb := Fin (z + nb_cost nb)]> cp.1 !! k = Some cv' ∧
                   num_lt (Fin a) cv' = false) as Hdec.
  { intros k a cv Hk Ha. destruct (decide (nb_node nb = k)) as [<-|Hne].
    - rewrite lookup_insert_eq. eexists. split; [done|].
      rewrite Hcn in Hk. injection Hk as <-. num_solve.
    - rewrite lookup_insert_ne by done. eauto. }
  split_and!.
  - split; unfold settled; simpl.
    + done.
    + intros n Hn. rewrite lookup_insert. case_decide; [done | by apply Hcosts].
    + destruct Hsrc as (z0 & Hz0 & Hle).
      destruct (decide (nb_node nb = source)) as [Heq|Hne].
      * rewrite Heq, lookup_insert_eq. eexists. split; [done|].
        rewrite Heq, Hz0 in Hcn. injection Hcn as <-. num_solve.
      * rewrite lookup_insert_ne by done. eauto.
    + intros u [Hu1 Hu2]. rewrite lookup_insert_ne by auto. by apply Hset.
    + intros u l nb' cu [Hu1 Hu2] Hl Hnb' Hcu'.
      rewrite lookup_insert_ne in Hcu' by auto.
      destruct (decide (c = u)) as [<-|Hne].
      * rewrite lookup_insert_eq in Hl. injection Hl as <-.
        apply elem_of_app in Hnb' as [Hnb'| ->%list_elem_of_singleton].
        -- destruct (Hedges c done nb' cu) as (cv & Hcv' & Hle);
             [done | by rewrite lookup_insert_eq | done | done |].
           by apply (Hdec _ _ cv).
        -- rewrite lookup_insert_eq. eexists. split; [done|].
           rewrite Hz in Hcu'. injection Hcu' as <-. simpl. apply Z.ltb_irrefl.
      * rewrite lookup_insert_ne in Hl by done.
        destruct (Hedges u l nb' cu) as (cv & Hcv' & Hle);
          [done | by rewrite lookup_insert_ne | done | done |].
        by apply (Hdec _ _ cv).
    + intros u v cu cv [Hu1 Hu2] Hvin Hcu' Hcv'.
      rewrite lookup_insert_ne in Hcu' by auto.
      destruct (decide (nb_node nb = v)) as [<-|Hne].
      * rewrite lookup_insert_eq in Hcv'. injection Hcv' as <-.
        specialize (Hmax u cu Hu1 Hu2 Hcu'). num_solve.
      * rewrite lookup_insert_ne in Hcv' by done. by apply (Hord u v).
  - rewrite lookup_insert_ne by auto. done.
  - intros u cu Hu1 Hu2. rewrite lookup_insert_ne by auto. by apply Hmax.
Qed.

Lemma relaxed_fold g unv c z nbs done cp :
  relaxed ns source (<[c := done]> g) (State cp.1 cp.2 unv) →
  c ∈ id <$> ns → c ∉ unv → cp.1 !! c = Some (Fin z) →
  (∀ u cu, u ∈ id <$> ns → u ∉ unv → cp.1 !! u = Some (Fin cu) → (cu ≤ z)%Z) →
  (∀ nb, nb ∈ nbs → nb_node nb ∈ id <$> ns ∧ (0 ≤ nb_cost nb)%Z) →
  relaxed ns source (<[c := done ++ nbs]> g)
    (State (foldl (relax unv c) cp nbs).1 (foldl (relax unv c) cp nbs).2 unv).
Proof.
  revert done cp. induction nbs as [|nb nbs IH]; intros done cp Hrel Hc Hcu Hz Hmax Hnbs.
  { by rewrite app_nil_r. }
  cbn [foldl]. destruct (Hnbs nb) as [Hv Hw]; [by left|].
  destruct (relaxed_relax g unv c z done nb cp Hrel Hc Hcu Hz Hmax Hv Hw)
    as (Hrel' & Hz' & Hmax').
  rewrite (cons_middle nb), (assoc_L (++)).
  apply IH; try done. intros nb' Hnb'. apply Hnbs. by right.
Qed.

Context (g : gmap string (list neighbor)).
Context (Hentries : ∀ k l nb, g !! k = Some l → nb ∈ l →
  nb_node nb ∈ id <$> ns ∧ (0 ≤ nb_cost nb)%Z).

Lemma relaxed_step destination s s' :
  relaxed ns source g s → step g destination s = Next s' →
  relaxed ns source g s'.
Proof.
  intros Hrel. unfold step.
  destruct (select_min _ _) as [c|] eqn:Hsel; [|done].
  case_bool_decide; [done|]. destruct (g !! c) as [nbs|] eqn:Hnbs; [|done].
  intros [= <-].
  destruct (select_min_least _ _ _ Hsel) as (z & Hz & Hc & Hleast).
  destruct (relaxed_visit g s c z Hrel Hc Hz Hleast) as [Hrel0 Hmax].
  rewrite <- (insert_id g c nbs Hnbs).
  change nbs with ([] ++ nbs) at 1.
  apply (relaxed_fold g _ c z nbs [] (costs s, previous s)); try done.
  - by apply (rel_unv Hrel).
  - rewrite elem_of_Set_delete. tauto.
  - intros nb Hnb. by apply (Hentries c nbs).
Qed.

Lemma relaxed_search destination fuel s s' :
  relaxed ns source g s → search fuel g destination s = Returned s' →
  relaxed ns source g s' ∧
  (unvisited s' = [] ∨ step g destination s' = Break).
Proof.
  revert s. induction fuel as [|fuel IH]; intros s Hrel; simpl.
  - destruct (unvisited s) eqn:Hu; [|done]. intros [= <-]. auto.
  - destruct (unvisited s) eqn:Hu; [intros [= <-]; auto|].
    destruct (step g destination s) as [| |s1] eqn:Hstep; [|done|].
    + intros [= <-]. auto.
    + apply IH. by apply (relaxed_step destination s).
Qed.

Lemma path_cost_nonneg p :
  (∀ e, e ∈ p → (0 ≤ calculateEdgeCost e)%Z) → (0 ≤ path_cost p)%Z.
Proof.
  induction p as [|e p IH]; intros Hp; [done|]. rewrite path_cost_cons.
  assert (0 ≤ calculateEdgeCost e)%Z by (apply Hp; by left).
  assert (0 ≤ path_cost p)%Z by (apply IH; intros e' ?; apply Hp; by right).
  lia.
Qed.

(** Along a walk that starts at a settled node, either the end of the walk
    or the first unvisited node on it costs no more than the walk so far. *)
Lemma walk_bound s p u zu d :
  relaxed ns source g s →
  (∀ e, e ∈ p → (0 ≤ calculateEdgeCost e)%Z ∧
     ∀ k, touches e k = true → ∃ l nb, g !! k = Some l ∧ nb ∈ l ∧
       nb_node nb = other_end e k ∧ nb_cost nb = calculateEdgeCost e) →
  settled ns s u → costs s !! u = Some (Fin zu) → follow p u = Some d →
  ∃ v zv, costs s !! v = Some (Fin zv) ∧ (zv ≤ zu + path_cost p)%Z ∧
          (v = d ∨ v ∈ unvisited s).
Proof.
  intros Hrel. revert u zu. induction p as [|e p IH]; intros u zu Hp Hu Hzu; simpl.
  - intros [= <-]. exists u, zu. unfold path_cost. simpl. split_and!; [done|lia|auto].
  - destruct (touches e u) eqn:Ht; [|done]. intros Hf.
    destruct (Hp e) as [Hw Hent]; [by left|].
    destruct (Hent u Ht) as (l & nb & Hl & Hnb & Hnode & Hcost).
    destruct (rel_edges Hrel u l nb zu Hu Hl Hnb Hzu) as (cv & Hcv & Hle).
    rewrite Hnode in Hcv. rewrite Hcost in Hle.
    destruct cv as [zv|]; [|done]. simpl in Hle. apply Z.ltb_ge in Hle.
    assert (0 ≤ path_cost p)%Z as Hrest.
    { apply path_cost_nonneg. intros e' He'. apply Hp. by right. }
    rewrite path_cost_cons.
    destruct (decide (other_end e u ∈ unvisited s)) as [Hin|Hout].
    + exists (other_end e u), zv. split_and!; [done | lia | auto].
    + destruct (IH (other_end e u) zv) as (v & zv' & Hv & Hle' & Hcase); try done.
      * intros e' He'. apply Hp. by right.
      * split; [|done]. rewrite <- Hnode. by apply (Hentries u l).
      * exists v, zv'. split_and!; [done | lia | done].
Qed.

End Optimal.

Lemma build_graph_entries ns es tf maxCost g :
  build_graph ns es tf maxCost = Some g → nonneg_costs tf maxCost es →
  ∀ k l nb, g !! k = Some l → nb ∈ l →
    nb_node nb ∈ id <$> ns ∧ (0 ≤ nb_cost nb)%Z.
Proof.
  intros Hg Hnn k l nb Hl Hnb.
  destruct (build_graph_ok _ _ _ _ _ Hg k l nb Hl Hnb) as (Hes & Ha & Hcost & Hends).
  destruct (add_edges_entered _ _ _ _ _ _ Hg Hes Ha) as [(l1 & Hl1 & _) (l2 & Hl2 & _)].
  split.
  - destruct Hends as [[_ <-]|[_ <-]]; eapply build_graph_dom; eauto.
  - rewrite Hcost. by apply (proj1 (Forall_forall _ _) Hnn).
Qed.

Lemma build_graph_usable ns es tf maxCost g e k :
  build_graph ns es tf maxCost = Some g →
  e ∈ es → admissible tf maxCost e = true → touches e k = true →
  ∃ l nb, g !! k = Some l ∧ nb ∈ l ∧
    nb_node nb = other_end e k ∧ nb_cost nb = calculateEdgeCost e.
Proof.
  intros Hg He Ha Ht.
  destruct (add_edges_entered _ _ _ _ _ _ Hg He Ha) as [(l1 & Hl1 & H1) (l2 & Hl2 & H2)].
  unfold touches in Ht. unfold other_end. case_bool_decide as Hs.
  - subst k. by exists l1, (Neighbor (end_ e) (calculateEdgeCost e) e).
  - simpl in Ht. apply bool_decide_eq_true in Ht. subst k.
    by exists l2, (Neighbor (start e) (calculateEdgeCost e) e).
Qed.

Lemma least_cost ns es source destination tf maxCost r p :
  "__proto__" ∉ id <$> ns → source ≠ "__proto__" →
  nonneg_costs tf maxCost es →
  dijkstra ns es source destination tf maxCost = Returned r →
  usable_route tf maxCost es p source destination →
  ∃ c, cost r = Number (Fin c) ∧ (c ≤ path_cost p)%Z.
Proof.
  intros Hproto Hsrc Hnn Hr [Hp Hf]. unfold dijkstra in Hr.
  destruct (dijkstra_cases ns es source destination tf maxCost
              (length ns) (S (length ns)))
    as [[_ Hthrow]|(g & s & vis & Hg & Hs & _ & Hret)];
    [done | congruence |].
  rewrite Hret in Hr.
  destruct (reconstruct _ _ _ _) as [p0| |]; [|done|done].
  injection Hr as <-. simpl. unfold read_cost.
  pose proof (build_graph_entries _ _ _ _ _ Hg Hnn) as Hentries.
  destruct (relaxed_search ns source g Hentries destination _ _ _
              (relaxed_init ns source g Hproto Hsrc) Hs) as [Hrel Hstop].
  assert (∀ e, e ∈ p → (0 ≤ calculateEdgeCost e)%Z ∧
            ∀ k, touches e k = true → ∃ l nb, g !! k = Some l ∧ nb ∈ l ∧
              nb_node nb = other_end e k ∧ nb_cost nb = calculateEdgeCost e)
    as Hedges.
  { intros e He. destruct (proj1 (Forall_forall _ _) Hp e He) as [Hes Ha]. split.
    - by apply (proj1 (Forall_forall _ _) Hnn).
    - intros k Hk. by eapply build_graph_usable. }
  destruct (rel_source Hrel) as (z0 & Hz0 & Hle0).
  (* a node that is the destination or unvisited, and cheap enough *)
  assert (∃ v zv, costs s !! v = Some (Fin zv) ∧ (zv ≤ path_cost p)%Z ∧
                  (v = destination ∨ v ∈ unvisited s)) as (v & zv & Hv & Hle & Hcase).
  { destruct p as [|e p'].
    - simpl in Hf. injection Hf as <-. exists source, z0. auto.
    - assert (0 ≤ path_cost (e :: p'))%Z.
      { apply path_cost_nonneg. intros e' He'. by apply Hedges. }
      destruct (decide (source ∈ unvisited s)) as [Hin|Hout].
      { exists source, z0. split_and!; [done | lia | auto]. }
      assert (settled ns s source) as Hset.
      { split; [|done]. pose proof Hf as Hf'. simpl in Hf'.
        destruct (touches e source) eqn:Ht; [|done].
        destruct (proj2 (Hedges e ltac:(by left)) source Ht) as (l & _ & Hl & _).
        eapply build_graph_dom; eauto. }
      destruct (walk_bound ns source g Hentries s _ source z0 destination
                  Hrel Hedges Hset Hz0 Hf) as (v & zv & Hv & Hle & Hcase).
      exists v, zv. split_and!; [done | lia | done]. }
  destruct Hcase as [->|Hin]; [rewrite Hv; eauto|].
  destruct Hstop as [Hnil|Hbreak]; [rewrite Hnil in Hin; by apply elem_of_nil in Hin|].
  unfold step in Hbreak.
  destruct (select_min (costs s) (unvisited s)) as [c|] eqn:Hsel.
  - case_bool_decide as Hcd; [|by destruct (g !! c)]. subst c.
    destruct (select_min_least _ _ _ Hsel) as (zd & Hzd & _ & Hleast).
    exists zd. rewrite Hzd. split; [done|].
    specialize (Hleast v (Fin zv) Hin Hv). num_solve.
  - by destruct (select_min_None _ _ v zv Hsel Hin).
Qed.

(** X5. The returned cost is the least possible. When no node is named
    ["__proto__"] and the source is not ["__proto__"], on inputs in the range
    where double arithmetic is exact, if the edges that pass the filter have
    non-negative costs and some list of such edges leads from the source to
    the destination, then whenever the query returns, its cost is finite and
    at most the total of that list. *)
Theorem dijkstra_optimal ns es source destination tf maxCost r p :
  "__proto__" ∉ id <$> ns → source ≠ "__proto__" →
  exact_range ns es maxCost →
  nonneg_costs tf maxCost es →
  dijkstra ns es source destination tf maxCost = Returned r →
  usable_route tf maxCost es p source destination →
  ∃ c, cost r = Number (Fin c) ∧ (c ≤ path_cost p)%Z.
Proof. intros Hproto Hsrc _. by apply least_cost. Qed.

Lemma example_no_proto : "__proto__" ∉ id <$> nodes.
Proof. intros H%(bool_decide_pack _). vm_compute in H. exact H. Qed.

Lemma dijkstra_optimal_witness :
  ∃ c, Number (Fin 1595) = Number (Fin c) ∧
       (c ≤ path_cost [eAB; eBD; eDF])%Z.
Proof.
  apply (dijkstra_optimal nodes edges "A" "F" (terrainFilter false 3) 10000
           (Route [Some eAC; Some eCE; Some eEF] (Number (Fin 1595)))
           [eAB; eBD; eDF]).
  - exact example_no_proto.
  - discriminate.
  - apply example_exact_range. by vm_compute.
  - repeat constructor; discriminate.
  - vm_compute. reflexivity.
  - split; [|reflexivity]. repeat constructor.
Defined.

(** ** Reachability *)

Lemma search_costs_defined fuel g destination s s' n :
  search fuel g destination s = Returned s' →
  is_Some (costs s !! n) → is_Some (costs s' !! n).
Proof.
  assert (∀ unv c cp nb, is_Some (cp.1 !! n) →
            is_Some ((relax unv c cp nb).1 !! n)) as Hrelax.
  { intros unv c cp nb Hn. unfold relax. destruct (Set_has _ _); [|done].
    destruct (cp.1 !! c); [|done]. destruct (cp.1 !! nb_node nb); [|done].
    destruct (num_lt _ _); [|done]. simpl. rewrite lookup_insert.
    by case_decide. }
  assert (∀ unv c nbs cp, is_Some (cp.1 !! n) →
            is_Some ((foldl (relax unv c) cp nbs).1 !! n)) as Hfold.
  { intros unv c nbs. induction nbs as [|nb nbs IH]; intros cp Hn; [done|].
    cbn [foldl]. by apply IH, Hrelax. }
  revert s. induction fuel as [|fuel IH]; intros s; simpl.
  - destruct (unvisited s); [|done]. by intros [= <-].
  - destruct (unvisited s); [by intros [= <-]|].
    destruct (step g destination s) as [| |s1] eqn:Hstep; [by intros [= <-] | done |].
    intros Hs Hn. apply (IH s1 Hs). unfold step in Hstep.
    destruct (select_min _ _) as [c|]; [|done]. case_bool_decide; [done|].
    destruct (g !! c); [|done]. injection Hstep as <-. simpl. by apply Hfold.
Qed.

Lemma unreachable_result ns es source destination tf maxCost r :
  plain source → plain destination →
  dijkstra ns es source destination tf maxCost = Returned r →
  destination ∈ id <$> ns →
  (∀ p, ¬ usable_route tf maxCost es p source destination) →
  r = Route [] (Number Infinity).
Proof.
  intros Hsrc Hdst Hr Hd Hnone.
  assert (∀ c, cost r ≠ Number (Fin c)) as Hinf.
  { intros c Hc.
    destruct (dijkstra_finite_route _ _ _ _ _ _ _ _ Hsrc Hr Hc)
      as (p & _ & Hp & _).
    by apply (Hnone p). }
  assert (path r = []) as Hp.
  { destruct (decide (path r = [])) as [Hp|Hp]; [done|].
    destruct (nonempty_path_finite _ _ _ _ _ _ _ Hdst Hr Hp) as [c Hc].
    by destruct (Hinf c). }
  assert (∃ c, cost r = Number c) as [c Hc].
  { unfold dijkstra in Hr.
    destruct (dijkstra_cases ns es source destination tf maxCost
                (length ns) (S (length ns)))
      as [[_ Hthrow]|(g & s & vis & Hg & Hs & _ & Hret)];
      [done | congruence |].
    rewrite Hret in Hr.
    destruct (reconstruct _ _ _ _) as [p0| |]; [|done|done].
    injection Hr as <-. simpl. unfold read_cost.
    destruct (search_costs_defined _ _ _ _ _ destination Hs) as [c ->];
      [|eauto].
    simpl. rewrite init_costs_lookup.
    rewrite bool_decide_eq_false_2 by (by apply plain_proto).
    case_decide; [done|]. by rewrite bool_decide_eq_true_2. }
  destruct r as [p c']. simpl in *. subst p c'. do 2 f_equal.
  destruct c as [z|]; [by destruct (Hinf z) | done].
Qed.

(** Between plain end points a query returns or throws. *)
Lemma dijkstra_plain_cases ns es source destination tf maxCost :
  plain source → plain destination →
  (∃ r, dijkstra ns es source destination tf maxCost = Returned r) ∨
  dijkstra ns es source destination tf maxCost = TypeError.
Proof.
  intros Hsrc Hdst.
  destruct (build_graph ns es tf maxCost) as [g|] eqn:Hg.
  - left. by apply (dijkstra_plain _ _ _ _ _ _ g).
  - right. by apply dijkstra_throws.
Qed.

(** X6. Between end points that are not names of properties of
    [Object.prototype], on inputs in the range where double arithmetic is
    exact: when no list of edges that pass the filter leads from the source
    to a destination that is a listed node, the query, unless it throws,
    returns the empty path with cost [Infinity], whatever the signs of the
    costs. *)
Theorem no_route_unreachable ns es source destination tf maxCost :
  plain source → plain destination → exact_range ns es maxCost →
  destination ∈ id <$> ns →
  (∀ p, ¬ usable_route tf maxCost es p source destination) →
  dijkstra ns es source destination tf maxCost =
    Returned (Route [] (Number Infinity)) ∨
  dijkstra ns es source destination tf maxCost = TypeError.
Proof.
  intros Hsrc Hdst _ Hd Hnone.
  destruct (dijkstra_plain_cases ns es source destination tf maxCost Hsrc Hdst)
    as [[r Hr]|?]; [left | by right].
  rewrite Hr. f_equal. by apply (unreachable_result _ _ _ _ _ _ _ Hsrc Hdst Hr).
Qed.

Lemma no_route_unreachable_witness :
  dijkstra nodes edges "A" "F" (terrainFilter false 3) 400 =
    Returned (Route [] (Number Infinity)) ∨
  dijkstra nodes edges "A" "F" (terrainFilter false 3) 400 = TypeError.
Proof.
  apply (no_route_unreachable nodes edges "A" "F").
  - apply plain_dec. reflexivity.
  - apply plain_dec. reflexivity.
  - apply example_exact_range. by vm_compute.
  - vm_compute. repeat constructor.
  - intros [|e p] [Hp Hf]; [discriminate Hf|].
    apply Forall_cons in Hp as [[He Ha] _]. simpl in Hf.
    unfold edges in He.
    repeat (apply elem_of_cons in He as [->|He]; [by vm_compute in Ha, Hf|]).
    by apply elem_of_nil in He.
Defined.

Lemma follow_Some_touches e p u v :
  follow (e :: p) u = Some v → touches e u = true.
Proof. simpl. by destruct (touches e u). Qed.

Lemma other_end_back e u :
  touches e u = true →
  touches e (other_end e u) = true ∧ other_end e (other_end e u) = u.
Proof.
  unfold touches, other_end. intros Ht.
  destruct (decide (start e = u)) as [Hs|Hs].
  - rewrite (bool_decide_eq_true_2 _ Hs).
    rewrite (bool_decide_eq_true_2 (end_ e = end_ e)) by done.
    split; [apply orb_true_r|].
    destruct (bool_decide (start e = end_ e)) eqn:Hb; [|done].
    apply bool_decide_eq_true in Hb. congruence.
  - rewrite (bool_decide_eq_false_2 _ Hs) in *. simpl in Ht.
    apply bool_decide_eq_true in Ht.
    rewrite (bool_decide_eq_true_2 (start e = start e)) by done. done.
Qed.

Lemma follow_rev p u v : follow p u = Some v → follow (rev p) v = Some u.
Proof.
  revert u. induction p as [|e p IH]; intros u; simpl; [by intros [= ->]|].
  destruct (touches e u) eqn:Ht; [|done]. intros Hf.
  rewrite follow_app, (IH _ Hf). simpl.
  destruct (other_end_back e u Ht) as [-> ->]. done.
Qed.

Lemma path_cost_rev p : path_cost (rev p) = path_cost p.
Proof.
  induction p as [|e p IH]; [done|]. simpl.
  rewrite path_cost_app, !path_cost_cons, IH. unfold path_cost. simpl. lia.
Qed.

Lemma usable_route_rev tf maxCost es p u v :
  usable_route tf maxCost es p u v → usable_route tf maxCost es (rev p) v u.
Proof.
  intros [Hp Hf]. split; [|by apply follow_rev].
  apply Forall_forall. intros e He%list_elem_of_In%in_rev%list_elem_of_In.
  by apply (proj1 (Forall_forall _ _) Hp).
Qed.

(** X7. Between end points that are not names of properties of
    [Object.prototype], on inputs in the range where double arithmetic is
    exact: a destination that is a listed node, different from the source,
    and that no edge passing the filter touches is unreachable: the query,
    unless it throws, returns the empty path with cost [Infinity]. This is
    the case of every destination when [maxCost] is below the cost of every
    edge. *)
Theorem isolated_destination ns es source destination tf maxCost :
  plain source → plain destination → exact_range ns es maxCost →
  destination ∈ id <$> ns → source ≠ destination →
  (∀ e, e ∈ es → admissible tf maxCost e = true →
     touches e destination = false) →
  dijkstra ns es source destination tf maxCost =
    Returned (Route [] (Number Infinity)) ∨
  dijkstra ns es source destination tf maxCost = TypeError.
Proof.
  intros Hsrc Hdst _ Hd Hne Hiso.
  destruct (dijkstra_plain_cases ns es source destination tf maxCost Hsrc Hdst)
    as [[r Hr]|?]; [left | by right].
  rewrite Hr. f_equal.
  apply (unreachable_result _ _ _ _ _ _ _ Hsrc Hdst Hr Hd).
  intros p [Hp Hf]%usable_route_rev.
  destruct (rev p) as [|e q] eqn:Hq.
  - simpl in Hf. congruence.
  - apply follow_Some_touches in Hf.
    apply Forall_cons in Hp as [[He Ha] _].
    rewrite (Hiso e He Ha) in Hf. done.
Qed.

Lemma isolated_destination_witness :
  dijkstra nodes edges "E" "B" (terrainFilter false 3) 500 =
    Returned (Route [] (Number Infinity)) ∨
  dijkstra nodes edges "E" "B" (terrainFilter false 3) 500 = TypeError.
Proof.
  apply (isolated_destination nodes edges "E" "B").
  - apply plain_dec. reflexivity.
  - apply plain_dec. reflexivity.
  - apply example_exact_range. by vm_compute.
  - vm_compute. repeat constructor.
  - discriminate.
  - intros e He. unfold edges in He.
    repeat (apply elem_of_cons in He as [->|He]; [vm_compute; congruence|]).
    by apply elem_of_nil in He.
Defined.

Lemma example_nonneg maxTerrain enabled maxCost :
  nonneg_costs (terrainFilter enabled maxTerrain) maxCost edges.
Proof. repeat constructor; discriminate. Qed.

(** X8. When no node is named ["__proto__"] and the source is not the name
    of a property of [Object.prototype], on inputs in the range where double
    arithmetic is exact and with non-negative costs: the cost of a query
    that returns is finite exactly when some list of edges that pass the
    filter leads from the source to the destination. *)
Theorem finite_iff_reachable ns es source destination tf maxCost r :
  "__proto__" ∉ id <$> ns → plain source → exact_range ns es maxCost →
  nonneg_costs tf maxCost es →
  dijkstra ns es source destination tf maxCost = Returned r →
  (∃ c, cost r = Number (Fin c)) ↔
  (∃ p, usable_route tf maxCost es p source destination).
Proof.
  intros Hproto Hsrc _ Hnn Hr. split.
  - intros [c Hc].
    destruct (dijkstra_finite_route _ _ _ _ _ _ _ _ Hsrc Hr Hc)
      as (p & _ & Hp & _).
    by exists p.
  - intros [p Hp].
    destruct (least_cost _ _ _ _ _ _ _ _ Hproto (plain_proto _ Hsrc) Hnn Hr Hp)
      as (c & Hc & _).
    eauto.
Qed.

Lemma finite_iff_reachable_witness :
  (∃ c, Number (Fin 1595) = Number (Fin c)) ↔
  (∃ p, usable_route (terrainFilter false 3) 10000 edges p "A" "F").
Proof.
  apply (finite_iff_reachable nodes edges "A" "F" (terrainFilter false 3) 10000
           (Route [Some eAC; Some eCE; Some eEF] (Number (Fin 1595)))).
  - exact example_no_proto.
  - apply plain_dec. reflexivity.
  - apply example_exact_range. by vm_compute.
  - apply example_nonneg.
  - vm_compute. reflexivity.
Defined.

(** ** Comparing queries *)

(** The filter of the component, tightened: a lower terrain ceiling, the
    terrain filter switched on, or a lower [maxCost]. *)
Lemma admissible_tighten enabled maxTerrain maxCost enabled' maxTerrain' maxCost' e :
  (enabled = true → enabled' = true ∧ (maxTerrain' ≤ maxTerrain)%Z) →
  (maxCost' ≤ maxCost)%Z →
  admissible (terrainFilter enabled' maxTerrain') maxCost' e = true →
  admissible (terrainFilter enabled maxTerrain) maxCost e = true.
Proof.
  intros Hen Hmax. rewrite !admissible_true, !terrainFilter_true.
  intros [Ht Hc]. split; [|lia]. intros He.
  destruct (Hen He) as [He' Hle]. specialize (Ht He'). lia.
Qed.

(** X9. Tightening the filter never lowers the cost. When no node is named
    ["__proto__"] and the source is not the name of a property of
    [Object.prototype], on inputs in the range where double arithmetic is
    exact: if every edge that passes the second filter passes the first, the
    edges passing the first have non-negative costs, the queries under both
    filters return, and the cost under the second filter is finite, then the
    cost under the first is finite and not larger. *)
Theorem tighter_filter_costs_more
    ns es source destination tf maxCost tf' maxCost' r r' c' :
  "__proto__" ∉ id <$> ns → plain source →
  exact_range ns es maxCost → exact_range ns es maxCost' →
  nonneg_costs tf maxCost es →
  (∀ e, e ∈ es → admissible tf' maxCost' e = true →
        admissible tf maxCost e = true) →
  dijkstra ns es source destination tf maxCost = Returned r →
  dijkstra ns es source destination tf' maxCost' = Returned r' →
  cost r' = Number (Fin c') →
  ∃ c, cost r = Number (Fin c) ∧ (c ≤ c')%Z.
Proof.
  intros Hproto Hsrc _ _ Hnn Hsub Hr Hr' Hc'.
  destruct (dijkstra_finite_route _ _ _ _ _ _ _ _ Hsrc Hr' Hc')
    as (p & _ & [Hp Hf] & <- & _).
  apply (least_cost _ _ _ _ _ _ _ _ Hproto (plain_proto _ Hsrc) Hnn Hr).
  split; [|done].
  apply Forall_forall. intros e He.
  destruct (proj1 (Forall_forall _ _) Hp e He) as [Hes Ha]. auto.
Qed.

Lemma tighter_filter_costs_more_witness :
  ∃ c, Number (Fin 1595) = Number (Fin c) ∧ (c ≤ 2020)%Z.
Proof.
  apply (tighter_filter_costs_more nodes edges "A" "F"
           (terrainFilter false 3) 10000 (terrainFilter true 1) 800
           (Route [Some eAC; Some eCE; Some eEF] (Number (Fin 1595)))
           (Route [Some eAB; Some eBD; Some eDF] (Number (Fin 2020)))).
  - exact example_no_proto.
  - apply plain_dec. reflexivity.
  - apply example_exact_range. by vm_compute.
  - apply example_exact_range. by vm_compute.
  - apply example_nonneg.
  - intros e _. apply admissible_tighten; [discriminate | lia].
  - vm_compute. reflexivity.
  - vm_compute. reflexivity.
  - reflexivity.
Defined.

(** X10. The cost does not depend on the direction of the query. When no
    node is named ["__proto__"] and neither end point is the name of a
    property of [Object.prototype], on inputs in the range where double
    arithmetic is exact and with non-negative costs: if the queries from [u]
    to [v] and from [v] to [u] both return, one has a finite cost exactly
    when the other has, and the two costs are equal. *)
Theorem cost_symmetric ns es u v tf maxCost r r' c :
  "__proto__" ∉ id <$> ns → plain u → plain v →
  exact_range ns es maxCost →
  nonneg_costs tf maxCost es →
  dijkstra ns es u v tf maxCost = Returned r →
  dijkstra ns es v u tf maxCost = Returned r' →
  cost r = Number (Fin c) ↔ cost r' = Number (Fin c).
Proof.
  intros Hproto Hu Hv _. revert c.
  assert (∀ a b ra rb c, plain a → plain b →
            nonneg_costs tf maxCost es →
            dijkstra ns es a b tf maxCost = Returned ra →
            dijkstra ns es b a tf maxCost = Returned rb →
            cost ra = Number (Fin c) →
            ∃ c', cost rb = Number (Fin c') ∧ (c' ≤ c)%Z) as Hhalf.
  { intros a b ra rb c Hpa Hpb Hnn Ha Hb Hc.
    destruct (dijkstra_finite_route _ _ _ _ _ _ _ _ Hpa Ha Hc)
      as (p & _ & Hp & <- & _).
    rewrite <- path_cost_rev.
    apply (least_cost _ _ _ _ _ _ _ _ Hproto (plain_proto _ Hpb) Hnn Hb).
    by apply usable_route_rev. }
  intros c Hnn Hr Hr'. split; intros Hc.
  - destruct (Hhalf u v r r' c Hu Hv Hnn Hr Hr' Hc) as (c' & Hc' & Hle).
    destruct (Hhalf v u r' r c' Hv Hu Hnn Hr' Hr Hc') as (c'' & Hc'' & Hle').
    rewrite Hc'. do 2 f_equal. rewrite Hc in Hc''. injection Hc'' as <-. lia.
  - destruct (Hhalf v u r' r c Hv Hu Hnn Hr' Hr Hc) as (c' & Hc' & Hle).
    destruct (Hhalf u v r r' c' Hu Hv Hnn Hr Hr' Hc') as (c'' & Hc'' & Hle').
    rewrite Hc'. do 2 f_equal. rewrite Hc in Hc''. injection Hc'' as <-. lia.
Qed.

Lemma cost_symmetric_witness :
  cost (Route [Some eAC; Some eCE; Some eEF] (Number (Fin 1595))) =
    Number (Fin 1595) ↔
  cost (Route [Some eEF; Some eCE; Some eAC] (Number (Fin 1595))) =
    Number (Fin 1595).
Proof.
  apply (cost_symmetric nodes edges "A" "F" (terrainFilter false 3) 10000
           (Route [Some eAC; Some eCE; Some eEF] (Number (Fin 1595)))
           (Route [Some eEF; Some eCE; Some eAC] (Number (Fin 1595))) 1595).
  - exact example_no_proto.
  - apply plain_dec. reflexivity.
  - apply plain_dec. reflexivity.
  - apply example_exact_range. by vm_compute.
  - apply example_nonneg.
  - vm_compute. reflexivity.
  - vm_compute. reflexivity.
Defined.

(** ** The drawing of a route *)

Lemma same_ends_refl e : same_ends e e = true.
Proof.
  unfold same_ends.
  rewrite (bool_decide_eq_true_2 (start e = start e)) by done.
  rewrite (bool_decide_eq_true_2 (end_ e = end_ e)) by done. done.
Qed.

(** On a path of edges the search of [find] does not throw. *)
Lemma find_same_edges p e :
  find_same (Some <$> p) e = Returned (existsb (λ e', same_ends e' e) p).
Proof.
  induction p as [|e' p IH]; [done|]. rewrite fmap_cons. simpl.
  by destruct (same_ends e' e).
Qed.

Lemma highlighted_iff es p c e :
  no_parallel es → (∀ e', e' ∈ p → e' ∈ es) → e ∈ es →
  ∃ b, highlighted (Route (Some <$> p) c) e = Returned b ∧ (b = true ↔ e ∈ p).
Proof.
  intros Hnp Hp He. unfold highlighted. simpl. rewrite find_same_edges.
  eexists. split; [done|]. rewrite existsb_exists. split.
  - intros (e' & He'%list_elem_of_In & Hsame).
    destruct (proj1 (list_elem_of_lookup _ _) (Hp e' He')) as [i Hi].
    destruct (proj1 (list_elem_of_lookup _ _) He) as [j Hj].
    rewrite <- (Hnp i j e' e Hi Hj Hsame) in Hj. congruence.
  - intros Hin. exists e. split; [by apply list_elem_of_In | apply same_ends_refl].
Qed.

(** Between plain end points the path holds edges of the input. *)
Lemma dijkstra_path_edges ns es source destination tf maxCost r :
  plain source → plain destination →
  dijkstra ns es source destination tf maxCost = Returned r →
  ∃ p, path r = Some <$> p ∧ ∀ e, e ∈ p → e ∈ es.
Proof.
  intros Hsrc Hdst Hr.
  pose proof Hr as (g & s & vis & _ & Hinv & Hrec & _)%dijkstra_Returned.
  destruct (reconstruct_edges ns es source tf maxCost vis s _ _ _ _
              Hinv Hsrc Hdst Hrec) as (p & Hp).
  rewrite app_nil_r in Hp. exists p. split; [done|]. intros e He.
  destruct (path_edge_link _ _ _ _ _ _ _ e Hr) as (s0 & v & l & Hlk & <-).
  { rewrite Hp. by apply list_elem_of_fmap_2. }
  by destruct Hlk as (_ & ? & _).
Qed.

(** X11. When no two entries of the edge list join the same pair of nodes,
    and the end points of the query are not names of properties of
    [Object.prototype], the test that decides whether an edge of the graph
    is drawn as part of a returned route does not throw, and the edges drawn
    so are exactly the edges of the path. *)
Theorem highlighted_exact ns es source destination tf maxCost r e :
  no_parallel es → plain source → plain destination →
  dijkstra ns es source destination tf maxCost = Returned r →
  e ∈ es →
  ∃ b, highlighted r e = Returned b ∧ (b = true ↔ Some e ∈ path r).
Proof.
  intros Hnp Hsrc Hdst Hr He.
  destruct (dijkstra_path_edges _ _ _ _ _ _ _ Hsrc Hdst Hr) as (p & Hp & Hes).
  destruct r as [p' c]. simpl in Hp. subst p'.
  destruct (highlighted_iff es p c e Hnp Hes He) as (b & Hb & Hiff).
  exists b. split; [done|]. rewrite Hiff. simpl. split.
  - apply list_elem_of_fmap_2.
  - by intros (e' & [= <-] & He')%list_elem_of_fmap.
Qed.

Lemma example_no_parallel : no_parallel edges.
Proof.
  intros i j e e' Hi Hj Hs. unfold edges in Hi, Hj.
  do 7 (destruct i as [|i];
    [injection Hi as <-;
     do 7 (destruct j as [|j];
       [injection Hj as <-; first [done | by vm_compute in Hs]|]);
     done|]).
  done.
Qed.

Lemma highlighted_exact_witness :
  ∃ b, highlighted
         (Route [Some eAC; Some eCE; Some eEF] (Number (Fin 1595))) eCE =
       Returned b ∧
       (b = true ↔ Some eCE ∈ [Some eAC; Some eCE; Some eEF]).
Proof.
  apply (highlighted_exact nodes edges "A" "F" (terrainFilter false 3) 10000).
  - exact example_no_parallel.
  - apply plain_dec. reflexivity.
  - apply plain_dec. reflexivity.
  - vm_compute. reflexivity.
  - repeat constructor.
Defined.

(** ** The component *)

Lemma options_plain k : k ∈ App.options → plain k.
Proof.
  intros Hk. apply plain_dec. unfold App.options, nodes in Hk.
  rewrite !fmap_cons in Hk. simpl in Hk.
  repeat (apply elem_of_cons in Hk as [->|Hk]; [reflexivity|]).
  by apply elem_of_nil in Hk.
Qed.

Lemma calculateRoute_consistent st :
  App.consistent st →
  ∃ st', App.calculateRoute st = Returned st' ∧ App.consistent st'.
Proof.
  intros Hst. pose proof Hst as (Hsrc & Hdst & _). unfold App.calculateRoute.
  destruct (App.source st) as [s|] eqn:Hs; [|eauto].
  destruct (App.destination st) as [d|] eqn:Hd; [|eauto].
  destruct (_ || _); [eauto|].
  pose proof (options_plain s (Hsrc s eq_refl)) as Hps.
  pose proof (options_plain d (Hdst d eq_refl)) as Hpd.
  destruct (dijkstra_well_formed nodes edges s d
              (terrainFilter (App.terrainFilterEnabled st) (App.maxTerrain st))
              (App.maxCost st) example_well_formed Hps Hpd) as [r Hr].
  rewrite Hr. eexists. split; [done|]. split_and!; simpl.
  - intros s' [= <-]. by apply Hsrc.
  - intros d' [= <-]. by apply Hdst.
  - destruct (dijkstra_path_edges _ _ _ _ _ _ _ Hps Hpd Hr) as (p & Hp & Hes).
    exists p. split_and!; [done | | done]. intros Hne.
    destruct (nonempty_path_finite _ _ _ _ _ _ _ Hpd Hr) as [c Hc].
    { rewrite Hp. by destruct p. }
    destruct (dijkstra_finite_route _ _ _ _ _ _ _ _ Hps Hr Hc)
      as (p' & Hp' & _ & <- & _).
    rewrite Hp in Hp'. apply (inj (fmap Some)) in Hp'. by subst p'.
Qed.

Lemma run_consistent evs st :
  App.consistent st →
  ∃ st', App.run st evs = Returned st' ∧ App.consistent st'.
Proof.
  revert st. induction evs as [|ev evs IH]; intros st Hst; simpl; [eauto|].
  assert (∃ st1, App.handle st ev = Returned st1 ∧ App.consistent st1)
    as (st1 & -> & Hst1).
  { destruct Hst as (Hsrc & Hdst & Hroute).
    destruct ev as [i|i| | | |]; simpl;
      try (eexists; split; [done|]; by split_and!).
    - destruct (App.options !! i) as [v|] eqn:Hv;
        (eexists; split; [done|]); split_and!; simpl; try done.
      intros s [= <-]. by apply list_elem_of_lookup_2 in Hv.
    - destruct (App.options !! i) as [v|] eqn:Hv;
        (eexists; split; [done|]); split_and!; simpl; try done.
      intros s [= <-]. by apply list_elem_of_lookup_2 in Hv.
    - by apply calculateRoute_consistent. }
  by apply IH.
Qed.

Lemma initial_consistent : App.consistent App.initial.
Proof.
  split_and!; simpl; [done | done |]. exists [].
  split_and!; [done | done | by intros e ?%elem_of_nil].
Qed.

Lemma table_rows_edges p :
  App.table_rows (Some <$> p) =
  Returned ((λ record, (record, App.edge_cost_cell record)) <$> p).
Proof.
  induction p as [|e p IH]; [done|]. rewrite !fmap_cons. simpl.
  by rewrite IH.
Qed.

(** X12. Whatever the user does, the component does not throw: after any
    sequence of selections, filter changes and clicks, starting from the
    initial state, the click handler has returned every time, the route
    panel renders, and every edge of the graph is drawn. *)
Theorem component_never_throws (evs : list App.event) :
  ∃ st, App.run App.initial evs = Returned st ∧
    (∃ pn, App.route_info st = Returned pn) ∧
    Forall (λ e, ∃ ln, App.render_line st e = Returned ln) edges.
Proof.
  destruct (run_consistent evs App.initial initial_consistent)
    as (st & Hrun & _ & _ & p & Hp & Hcost & _).
  exists st. split_and!; [done | |].
  - unfold App.route_info. rewrite Hp.
    destruct p as [|e p]; [by eexists|]. rewrite fmap_cons.
    rewrite Hcost by done.
    rewrite <- fmap_cons, table_rows_edges. by eexists.
  - assert (∀ e, ∃ b, App.inRoute st e = Returned b) as Hin.
    { intros e. unfold App.inRoute, highlighted.
      rewrite Hp, find_same_edges. by eexists. }
    apply Forall_forall. intros e He. unfold App.render_line.
    destruct (Hin e) as [b ->]. unfold edges in He.
    repeat (apply elem_of_cons in He as [->|He]; [simpl; by eexists|]).
    by apply elem_of_nil in He.
Qed.

Lemma sum_cells_map p :
  App.sum_cells ((λ record, (record, App.edge_cost_cell record)) <$> p) =
  (path_cost p * 100)%Z.
Proof.
  unfold App.sum_cells.
  assert (∀ a, foldl (λ acc row, (acc + row.2)%Z) a
                 ((λ record, (record, App.edge_cost_cell record)) <$> p) =
               (a + path_cost p * 100)%Z) as H.
  { induction p as [|e p IH]; intros a; simpl.
    - unfold path_cost. simpl. lia.
    - rewrite IH, path_cost_cons. unfold App.edge_cost_cell. lia. }
  rewrite H. lia.
Qed.

Lemma rows_edges p :
  ((λ record, (record, App.edge_cost_cell record)) <$> p).*1 = p.
Proof. induction p as [|e p IH]; [done|]. rewrite !fmap_cons. simpl. by f_equal. Qed.

(** X13. In every state the component reaches, when the route panel shows
    a table, its rows are the edges of the route, in order, and the total
    above it is the sum of the numbers in the "Edge Cost" column. *)
Theorem panel_total_is_sum evs st total rows :
  App.run App.initial evs = Returned st →
  App.route_info st = Returned (App.Details total rows) →
  Some <$> rows.*1 = path (App.route st) ∧ total = Fin (App.sum_cells rows).
Proof.
  intros Hrun.
  destruct (run_consistent evs App.initial initial_consistent)
    as (st' & Hrun' & _ & _ & p & Hp & Hcost & _).
  rewrite Hrun in Hrun'. injection Hrun' as <-.
  unfold App.route_info. rewrite Hp.
  destruct p as [|e p]; [done|]. rewrite fmap_cons.
  rewrite Hcost by done. rewrite <- fmap_cons, table_rows_edges.
  intros [= <- <-]. split.
  - f_equal. apply (rows_edges (e :: p)).
  - simpl. f_equal. symmetry. apply (sum_cells_map (e :: p)).
Qed.

Lemma panel_total_is_sum_witness :
  Some <$> [(eAC, 70000%Z); (eCE, 32000%Z); (eEF, 57500%Z)].*1 =
    [Some eAC; Some eCE; Some eEF] ∧
  Fin 159500 = Fin (App.sum_cells [(eAC, 70000%Z); (eCE, 32000%Z); (eEF, 57500%Z)]).
Proof.
  apply (panel_total_is_sum
           [App.SetSource 0; App.SetDestination 5; App.Click]
           (App.Mk (Some "A") (Some "F") false 3 10000
              (Route [Some eAC; Some eCE; Some eEF] (Number (Fin 1595))))).
  - vm_compute. reflexivity.
  - vm_compute. reflexivity.
Defined.

(** X14. A click whose two end points, neither the name of a property of
    [Object.prototype], are the same node, or between which no list of edges
    passing the filter leads, stores a route without edges, and the panel
    goes on showing "No route calculated yet". *)
Theorem click_without_route st s d :
  App.source st = Some s → App.destination st = Some d →
  s ≠ "" → d ≠ "" → plain s → plain d →
  s = d ∨
  (∀ p, ¬ usable_route
          (terrainFilter (App.terrainFilterEnabled st) (App.maxTerrain st))
          (App.maxCost st) edges p s d) →
  ∃ st', App.calculateRoute st = Returned st' ∧
         path (App.route st') = [] ∧
         App.route_info st' = Returned App.NoRouteYet.
Proof.
  intros Hs Hd Hsne Hdne Hps Hpd Hcase.
  unfold App.calculateRoute. rewrite Hs, Hd. simpl.
  rewrite !bool_decide_eq_false_2 by done. simpl.
  destruct (dijkstra_well_formed nodes edges s d
              (terrainFilter (App.terrainFilterEnabled st) (App.maxTerrain st))
              (App.maxCost st) example_well_formed Hps Hpd) as [r Hr].
  rewrite Hr. eexists. split; [done|].
  assert (path r = []) as Hp.
  { destruct (simple_route _ _ _ _ _ _ _ Hps Hpd Hr) as (p & Hp & _ & Hne).
    destruct (decide (path r = [])) as [?|Hnil]; [done|]. exfalso.
    destruct Hcase as [->|Hnone].
    - apply Hne; [|done]. intros ->. by rewrite Hp in Hnil.
    - destruct (nonempty_path_finite _ _ _ _ _ _ _ Hpd Hr Hnil) as [c Hc].
      destruct (dijkstra_finite_route _ _ _ _ _ _ _ _ Hps Hr Hc)
        as (p' & _ & Hroute & _).
      by apply (Hnone p'). }
  unfold App.route_info. simpl. by rewrite Hp.
Qed.

Lemma click_without_route_witness :
  ∃ st', App.calculateRoute
           (App.Mk (Some "C") (Some "C") false 3 10000
              (Route [Some eAC; Some eCE; Some eEF] (Number (Fin 1595)))) =
           Returned st' ∧
         path (App.route st') = [] ∧
         App.route_info st' = Returned App.NoRouteYet.
Proof.
  apply (click_without_route _ "C" "C");
    [reflexivity | reflexivity | discriminate | discriminate
    | apply plain_dec; reflexivity | apply plain_dec; reflexivity | by left].
Defined.

(** ** What an iteration may change *)

Lemma relax_changes unv c cp nb n :
  (n ∉ unv →
   (relax unv c cp nb).1 !! n = cp.1 !! n ∧
   (relax unv c cp nb).2 !! n = cp.2 !! n) ∧
  (∀ c', (relax unv c cp nb).1 !! n = Some c' →
     ∃ c0, cp.1 !! n = Some c0 ∧ num_lt c0 c' = false).
Proof.
  assert (∀ c0, num_lt c0 c0 = false) as Hirr.
  { intros [z|]; simpl; [apply Z.ltb_irrefl | done]. }
  unfold relax, Set_has. case_bool_decide as Hin; [|by eauto].
  destruct (cp.1 !! c) as [cc|]; [|by eauto].
  destruct (cp.1 !! nb_node nb) as [cn|] eqn:Hcn; [|by eauto].
  destruct (num_lt (num_add cc (nb_cost nb)) cn) eqn:Hlt; [|by eauto].
  simpl. split.
  - intros Hn. assert (nb_node nb ≠ n) by (intros Heq; by rewrite Heq in Hin).
    by rewrite !lookup_insert_ne.
  - intros c'. rewrite lookup_insert. case_decide as Hk; [|by eauto].
    subst n. intros [= <-]. exists cn. split; [done|].
    destruct (num_add cc (nb_cost nb)), cn; simpl in *; try done.
    apply Z.ltb_lt in Hlt. apply Z.ltb_ge. lia.
Qed.

Lemma relax_fold_changes unv c nbs cp n :
  (n ∉ unv →
   (foldl (relax unv c) cp nbs).1 !! n = cp.1 !! n ∧
   (foldl (relax unv c) cp nbs).2 !! n = cp.2 !! n) ∧
  (∀ c', (foldl (relax unv c) cp nbs).1 !! n = Some c' →
     ∃ c0, cp.1 !! n = Some c0 ∧ num_lt c0 c' = false).
Proof.
  revert cp. induction nbs as [|nb nbs IH]; intros cp; cbn [foldl].
  { split; [done|]. intros c' Hc'. exists c'. split; [done|].
    destruct c'; simpl; [apply Z.ltb_irrefl | done]. }
  destruct (IH (relax unv c cp nb)) as [IH1 IH2].
  destruct (relax_changes unv c cp nb n) as [H1 H2]. split.
  - intros Hn. destruct (IH1 Hn) as [-> ->]. by apply H1.
  - intros c' Hc'. destruct (IH2 c' Hc') as (c1 & Hc1 & Hle1).
    destruct (H2 c1 Hc1) as (c0 & Hc0 & Hle0). exists c0. split; [done|].
    destruct c0, c1, c'; simpl in *; try done.
    apply Z.ltb_ge in Hle0, Hle1. apply Z.ltb_ge. lia.
Qed.

(** X15. An iteration of the main loop never raises a tentative cost, and
    it changes neither the cost nor the predecessor of a node that is no
    longer unvisited after it, the node it has just selected included: what
    is recorded for a settled node is final. *)
Theorem settled_is_final g destination s s' n :
  step g destination s = Next s' →
  (n ∉ unvisited s' →
   costs s' !! n = costs s !! n ∧ previous s' !! n = previous s !! n) ∧
  (∀ c', costs s' !! n = Some c' →
     ∃ c, costs s !! n = Some c ∧ num_lt c c' = false).
Proof.
  unfold step. destruct (select_min _ _) as [c|]; [|done].
  case_bool_decide; [done|]. destruct (g !! c) as [nbs|]; [|done].
  intros [= <-]. simpl.
  apply (relax_fold_changes _ c nbs (costs s, previous s) n).
Qed.

(** The first iteration of the query from A to F on the example: A is
    settled with cost 0, and the cost of B falls from [Infinity] to 550. *)
Lemma settled_is_final_witness :
  ∃ g s',
    build_graph nodes edges (terrainFilter false 3) 10000 = Some g ∧
    step g "F" (init_state nodes "A") = Next s' ∧
    ("A" ∉ unvisited s') ∧
    costs s' !! "B" = Some (Fin 550) ∧
    (costs s' !! "A" = costs (init_state nodes "A") !! "A" ∧
     previous s' !! "A" = previous (init_state nodes "A") !! "A") ∧
    (∃ c, costs (init_state nodes "A") !! "B" = Some c ∧
          num_lt c (Fin 550) = false).
Proof.
  destruct (build_graph nodes edges (terrainFilter false 3) 10000)
    as [g|] eqn:Hg; [|by vm_compute in Hg].
  destruct (step g "F" (init_state nodes "A")) as [| |s'] eqn:Hstep.
  1, 2: exfalso; vm_compute in Hg; injection Hg as <-; by vm_compute in Hstep.
  assert (("A" ∉ unvisited s') ∧ costs s' !! "B" = Some (Fin 550)) as [HA HB].
  { vm_compute in Hg. injection Hg as <-. vm_compute in Hstep.
    injection Hstep as <-. split; [|reflexivity].
    intros H%(bool_decide_pack _). vm_compute in H. exact H. }
  exists g, s'. do 4 (split; [done|]). split.
  - by apply (proj1 (settled_is_final g "F" _ s' "A" Hstep)).
  - by apply (proj2 (settled_is_final g "F" _ s' "B" Hstep)).
Defined.

(** ** Keys without a number in [costs] *)

Lemma relax_undefined unv c cp nb n :
  cp.1 !! n = None →
  (relax unv c cp nb).1 !! n = None ∧ (relax unv c cp nb).2 !! n = cp.2 !! n.
Proof.
  intros Hn. unfold relax. destruct (Set_has _ _); [|done].
  destruct (cp.1 !! c); [|done].
  destruct (cp.1 !! nb_node nb) eqn:Hnb; [|done].
  destruct (num_lt _ _); [|done]. simpl.
  assert (nb_node nb ≠ n) by congruence.
  by rewrite !lookup_insert_ne.
Qed.

Lemma relax_fold_undefined unv c nbs cp n :
  cp.1 !! n = None →
  (foldl (relax unv c) cp nbs).1 !! n = None ∧
  (foldl (relax unv c) cp nbs).2 !! n = cp.2 !! n.
Proof.
  revert cp. induction nbs as [|nb nbs IH]; intros cp Hn; cbn [foldl]; [done|].
  destruct (relax_undefined unv c cp nb n Hn) as [H1 H2].
  destruct (IH _ H1) as [H3 H4]. by rewrite H3, H4.
Qed.

Lemma search_undefined fuel g destination s s' n :
  search fuel g destination s = Returned s' → costs s !! n = None →
  costs s' !! n = None ∧ previous s' !! n = previous s !! n.
Proof.
  revert s. induction fuel as [|fuel IH]; intros s; simpl.
  - destruct (unvisited s); [|done]. by intros [= <-].
  - destruct (unvisited s); [by intros [= <-]|].
    destruct (step g destination s) as [| |s1] eqn:Hstep;
      [by intros [= <-] | done |].
    intros Hs Hn. unfold step in Hstep.
    destruct (select_min _ _) as [c|]; [|done]. case_bool_decide; [done|].
    destruct (g !! c) as [nbs|]; [|done]. injection Hstep as <-.
    destruct (relax_fold_undefined (Set_delete (unvisited s) c) c nbs
                (costs s, previous s) n Hn) as [H1 H2].
    destruct (IH _ Hs H1) as [H3 H4]. simpl in H4. by rewrite H3, H4, H2.
Qed.

(** X16. A key for which [costs] holds no number after the initialisation,
    that is ["__proto__"], whose assignments are ignored, or an identifier
    that is neither listed nor the source, never receives a cost or a
    predecessor in the main loop: in particular a node named ["__proto__"]
    is never reached. *)
Theorem unlisted_never_reached ns source g destination fuel s n :
  n = "__proto__" ∨ ((n ∉ id <$> ns) ∧ n ≠ source) →
  search fuel g destination (init_state ns source) = Returned s →
  costs s !! n = None ∧ previous s !! n = None.
Proof.
  intros Hn Hs.
  destruct (search_undefined _ _ _ _ _ n Hs) as [H1 H2].
  - simpl. rewrite init_costs_lookup. case_bool_decide as Hp; [done|].
    destruct Hn as [?|[Hns Hsrc]]; [done|].
    rewrite decide_False by (by apply not_eq_sym).
    by rewrite bool_decide_eq_false_2.
  - split; [done|]. rewrite H2. apply lookup_empty.
Qed.

(** The query from A to its neighbour ["__proto__"]. *)
Lemma unlisted_never_reached_witness :
  ∃ g s,
    build_graph nodesAP [eAP] (terrainFilter false 3) 10000 = Some g ∧
    g !! "A" = Some [Neighbor "__proto__" 2 eAP] ∧
    search 2 g "__proto__" (init_state nodesAP "A") = Returned s ∧
    costs s !! "__proto__" = None ∧ previous s !! "__proto__" = None.
Proof.
  destruct (build_graph nodesAP [eAP] (terrainFilter false 3) 10000)
    as [g|] eqn:Hg; [|by vm_compute in Hg].
  destruct (search 2 g "__proto__" (init_state nodesAP "A")) as [s| |] eqn:Hs.
  2, 3: exfalso; vm_compute in Hg; injection Hg as <-; by vm_compute in Hs.
  exists g, s. split; [done|]. split.
  { vm_compute in Hg. by injection Hg as <-. }
  split; [done|].
  apply (unlisted_never_reached nodesAP "A" g "__proto__" 2 s "__proto__");
    [by left | done].
Defined.

(** ** The range of the costs *)

Lemma small_cost B e :
  small B e → (Z.abs (calculateEdgeCost e) ≤ 2 * B * B)%Z.
Proof. intros (Hd & Hm & Hl & _). unfold calculateEdgeCost. nia. Qed.

Lemma path_cost_bound K p :
  Forall (λ e, (Z.abs (calculateEdgeCost e) ≤ K)%Z) p →
  (Z.abs (path_cost p) ≤ K * Z.of_nat (length p))%Z.
Proof.
  induction p as [|e p IH]; intros Hp.
  - unfold path_cost. simpl. lia.
  - apply Forall_cons in Hp as [He Hp]. specialize (IH Hp).
    rewrite path_cost_cons. simpl length. lia.
Qed.

Lemma length_visits p u : length (visits p u) = length p.
Proof. revert u. induction p as [|e p IH]; intros u; simpl; [done|]. by rewrite IH. Qed.

Lemma visits_ends p u x :
  x ∈ visits p u → ∃ e, e ∈ p ∧ (x = start e ∨ x = end_ e).
Proof.
  revert u. induction p as [|e p IH]; intros u; simpl; [by intros ?%elem_of_nil|].
  intros [->|Hx]%elem_of_cons.
  - exists e. split; [by left|]. unfold other_end. case_bool_decide; auto.
  - destruct (IH _ Hx) as (e' & He' & Hends). exists e'. split; [by right | done].
Qed.

Lemma admitted_ends ns es tf maxCost g e :
  build_graph ns es tf maxCost = Some g → e ∈ es →
  admissible tf maxCost e = true →
  start e ∈ id <$> ns ∧ end_ e ∈ id <$> ns.
Proof.
  intros Hg He Ha.
  destruct (add_edges_entered _ _ _ _ _ _ Hg He Ha) as [(l1 & Hl1 & _) (l2 & Hl2 & _)].
  split; eapply build_graph_dom; eauto.
Qed.

(** X17. On inputs in the range described by [exact_range], the cost of each
    edge of the input, and the finite cost returned by a query whose source
    is not the name of a property of [Object.prototype], are below [2 ^ 53]
    in absolute value: they are integers that a double holds exactly. *)
Theorem returned_cost_exact ns es source destination tf maxCost r :
  plain source → exact_range ns es maxCost →
  dijkstra ns es source destination tf maxCost = Returned r →
  (∀ e, e ∈ es → (Z.abs (calculateEdgeCost e) < 2 ^ 53)%Z) ∧
  (∀ c, cost r = Number (Fin c) → (Z.abs c < 2 ^ 53)%Z).
Proof.
  intros Hsrc (B & Hsmall & Hbound & _) Hr.
  assert (0 ≤ 2 * B * B)%Z as HB by nia.
  assert (∀ e, e ∈ es → (Z.abs (calculateEdgeCost e) ≤ 2 * B * B)%Z) as Hcost.
  { intros e He. by apply small_cost, (proj1 (Forall_forall _ _) Hsmall). }
  split.
  - intros e He. specialize (Hcost e He). nia.
  - intros c Hc.
    destruct (dijkstra_finite_route _ _ _ _ _ _ _ _ Hsrc Hr Hc)
      as (p & _ & [Hp Hf] & <- & Hnd).
    pose proof Hr as (g & _ & _ & Hg & _)%dijkstra_Returned.
    assert (length p ≤ length ns) as Hlen.
    { rewrite <- (length_visits p source), <- (length_fmap id ns).
      apply NoDup_cons in Hnd as [_ Hnd].
      apply submseteq_length, NoDup_submseteq; [done|].
      intros x (e & He & Hends)%visits_ends.
      destruct (proj1 (Forall_forall _ _) Hp e He) as [Hes Ha].
      destruct (admitted_ends _ _ _ _ _ _ Hg Hes Ha) as [? ?].
      by destruct Hends as [->| ->]. }
    assert (Z.abs (path_cost p) ≤ 2 * B * B * Z.of_nat (length p))%Z as Hsum.
    { apply path_cost_bound. apply Forall_forall. intros e He. apply Hcost.
      by destruct (proj1 (Forall_forall _ _) Hp e He). }
    nia.
Qed.

Lemma returned_cost_exact_witness :
  (∀ e, e ∈ edges → (Z.abs (calculateEdgeCost e) < 2 ^ 53)%Z) ∧
  (∀ c, Number (Fin 1595) = Number (Fin c) → (Z.abs c < 2 ^ 53)%Z).
Proof.
  apply (returned_cost_exact nodes edges "A" "F" (terrainFilter false 3) 10000
           (Route [Some eAC; Some eCE; Some eEF] (Number (Fin 1595)))).
  - apply plain_dec. reflexivity.
  - apply example_exact_range. by vm_compute.
  - vm_compute. reflexivity.
Defined.

(** ** The integer model and the doubles *)

Lemma exact_range_edge ns es maxCost e :
  exact_range ns es maxCost → e ∈ es →
  (Z.abs (distance e) < 2 ^ 53 ∧ Z.abs (materialCost e) < 2 ^ 53 ∧
   Z.abs (laborCost e) < 2 ^ 53 ∧
   Z.abs (materialCost e + laborCost e) < 2 ^ 53 ∧
   Z.abs (calculateEdgeCost e) < 2 ^ 53 ∧ Z.abs maxCost < 2 ^ 53)%Z.
Proof.
  intros (B & Hsmall & Hbound & Hmax) He.
  destruct (proj1 (Forall_forall _ _) Hsmall e He) as (Hd & Hm & Hl & _).
  unfold calculateEdgeCost.
  assert (0 ≤ B)%Z by lia.
  assert (2 * B * B < 2 ^ 53)%Z by nia.
  assert (B = 0 ∨ 1 ≤ B)%Z as [->|HB] by lia; [split_and!; lia|].
  split_and!; [nia | nia | nia | nia | nia | done].
Qed.

(** X18. On inputs in the range described by [exact_range], the cost of an
    edge computed on doubles is the double of its integer cost, up to the
    sign of a zero, and the cost clause of the filter, evaluated on doubles,
    has the value it has in the integer model. *)
Theorem edge_cost_on_doubles ns es maxCost e :
  exact_range ns es maxCost → e ∈ es →
  Double.same (Double.calculateEdgeCost (to_double e))
    (Double.of_Z (calculateEdgeCost e)) ∧
  Double.le (Double.calculateEdgeCost (to_double e)) (Double.of_Z maxCost) =
    (calculateEdgeCost e <=? maxCost)%Z.
Proof.
  intros Hrange He.
  destruct (exact_range_edge _ _ _ _ Hrange He)
    as (Hd & Hm & Hl & Hml & Hc & Hmax).
  assert (Double.same (Double.calculateEdgeCost (to_double e))
            (Double.of_Z (calculateEdgeCost e))) as Hsame.
  { unfold Double.calculateEdgeCost, to_double. simpl.
    rewrite add_exact by done. by apply mul_exact. }
  split; [done|].
  unfold Double.le, SFleb. rewrite (compare_same _ _ _ Hsame).
  by apply le_exact.
Qed.

Lemma edge_cost_on_doubles_witness :
  Double.same (Double.calculateEdgeCost (to_double eCD))
    (Double.of_Z (calculateEdgeCost eCD)) ∧
  Double.le (Double.calculateEdgeCost (to_double eCD)) (Double.of_Z 400) =
    (calculateEdgeCost eCD <=? 400)%Z.
Proof.
  apply (edge_cost_on_doubles nodes edges 400 eCD).
  - apply example_exact_range. by vm_compute.
  - repeat constructor.
Defined.

(** X19. The comparison and the addition of the integer model are those of
    the doubles: for tentative costs that are [Infinity] or integers below
    [2 ^ 53] in absolute value, [a < b] on doubles is [num_lt], and adding
    the cost of an edge, a double equal to the integer [w] up to the sign of
    a zero, gives the double of [num_add], when that sum is in the range
    too. *)
Theorem number_ops_on_doubles (a b : number) (w : Z) (x : spec_float) :
  exact a → exact b → (Z.abs w < 2 ^ 53)%Z → exact (num_add a w) →
  Double.same x (Double.of_Z w) →
  Double.lt (Double.of_number a) (Double.of_number b) = num_lt a b ∧
  Double.add (Double.of_number a) x = Double.of_number (num_add a w).
Proof.
  intros Ha Hb Hw Hsum Hx. split.
  - destruct a as [za|], b as [zb|]; simpl in *.
    + by apply lt_exact.
    + rewrite of_Z_repr by done. by destruct za.
    + rewrite of_Z_repr by done. by destruct zb.
    + done.
  - destruct a as [za|]; simpl in *.
    + destruct Hx as [->|[Hx Hzero]]; [by apply add_exact|].
      rewrite of_Z_repr in Hzero by done.
      destruct w; [|done|done]. rewrite Z.add_0_r.
      rewrite of_Z_repr by done.
      destruct x as [sx| | |]; [|done..].
      destruct za; [by destruct sx | done | done].
    + destruct Hx as [->|[Hx _]].
      * rewrite of_Z_repr by done. by destruct w.
      * by destruct x.
Qed.

Lemma number_ops_on_doubles_witness :
  Double.lt (Double.of_number (Fin 700)) (Double.of_number Infinity) =
    num_lt (Fin 700) Infinity ∧
  Double.add (Double.of_number (Fin 700))
    (Double.calculateEdgeCost (to_double eCE)) =
    Double.of_number (num_add (Fin 700) 320).
Proof.
  apply (number_ops_on_doubles (Fin 700) Infinity 320
           (Double.calculateEdgeCost (to_double eCE))).
  - by vm_compute.
  - done.
  - by vm_compute.
  - by vm_compute.
  - left. vm_compute. reflexivity.
Defined.
